(** * Ariel / Kai FLIP fluid simulator: the pressure solver and the
      particle passes of the simulation step, embedded in Rocq.

    Sources embedded here:
    - [src/geom/geom.inl] (the part that is [solver.inl]): [flipGrid],
      [ARef], [PRef], [ADiag], [buildPreconditioner], [xRef], [op],
      [computeAx], [solveConjugateGradient], [solve];
    - [src/sim/flip.cpp]: [ApplyExternalForces],
      [AdjustParticlesStuckInSolids], [CheckParticleSolidConstraints],
      [AdvectParticles], [ExtrapolateVelocity],
      [StoreTempParticleVelocities], [StorePreviousGrid],
      [SubtractPreviousGrid], the divergence loop of [Project],
      [SubtractPressureGradient], [ComputeDensity].

    C++ [float] is IEEE-754 binary32 and is modelled by [spec_float] with
    a 24-bit significand; [int] and [unsigned int] are modelled in [Z]. *)

From Stdlib Require Import ZArith Bool Lia Floats.SpecFloat.
From stdpp Require Import gmap list.

Local Open Scope Z_scope.

(** * The model *)

(** ** Single-precision arithmetic *)

Module F32.

Definition float := spec_float.

Definition prec : Z := 24.
Definition emax : Z := 128.

Definition fadd : float -> float -> float := SFadd prec emax.
Definition fsub : float -> float -> float := SFsub prec emax.
Definition fmul : float -> float -> float := SFmul prec emax.
Definition fdiv : float -> float -> float := SFdiv prec emax.
Definition fsqrt : float -> float := SFsqrt prec emax.
Definition fneg : float -> float := SFopp.
Definition flt : float -> float -> bool := SFltb.
Definition feq : float -> float -> bool := SFeqb.
Definition fle : float -> float -> bool := SFleb.

(** [!=] on floats: true as soon as one side is a NaN. *)
Definition fne (a b : float) : bool := negb (feq a b).

(** Conversion of an integer to [float] (round to nearest even). *)
Definition Z2F (n : Z) : float := binary_normalize prec emax n 0 false.

(** A decimal literal [n / d] written with the [f] suffix: the nearest
    [float], obtained as the correctly rounded quotient of two integers
    that are themselves exact. *)
Definition lit (n d : Z) : float := fdiv (Z2F n) (Z2F d).

Definition zero : float := S754_zero false.
Definition one : float := Z2F 1.

(** Truncation toward zero of a float, before the range check of the
    target integer type. *)
Definition trunc (f : float) : option Z :=
  match f with
  | S754_zero _ => Some 0
  | S754_finite s m e =>
      let v := if 0 <=? e then Z.pos m * 2 ^ e
               else Z.quot (Z.pos m) (2 ^ (- e)) in
      Some (if s then - v else v)
  | _ => None
  end.

Definition INT_MIN : Z := - 2 ^ 31.
Definition INT_MAX : Z := 2 ^ 31 - 1.

(** [(int)f]. The conversion is undefined in C++ when the truncated
    value does not fit; the model returns [INT_MIN] there, which is what
    the x86 conversion instruction yields. *)
Definition F2Z (f : float) : Z :=
  match trunc f with
  | Some v => if (INT_MIN <=? v) && (v <=? INT_MAX) then v else INT_MIN
  | None => INT_MIN
  end.

(** [unsigned int] arithmetic wraps modulo 2^32. *)
Definition wrap32 (n : Z) : Z := n mod 2 ^ 32.

(** [(unsigned int)f]; out of range (undefined in C++) the model keeps
    the low 32 bits of the truncated value, and 0 for NaN and the
    infinities. *)
Definition F2U (f : float) : Z :=
  match trunc f with
  | Some v => wrap32 v
  | None => 0
  end.

(** [glm::min(x, y)] is [(y < x) ? y : x] and [glm::max(x, y)] is
    [(x < y) ? y : x]. *)
Definition fmin (x y : float) : float := if flt y x then y else x.
Definition fmax (x y : float) : float := if flt x y then y else x.

End F32.
Export F32.

(** ** [glm::vec3] *)

Record vec3 := mkvec3 { vx : float; vy : float; vz : float }.

(** [glm::vec3(s)]: the same scalar in the three components. *)
Definition vsplat (s : float) : vec3 := mkvec3 s s s.

Definition vadd (a b : vec3) : vec3 :=
  mkvec3 (fadd (vx a) (vx b)) (fadd (vy a) (vy b)) (fadd (vz a) (vz b)).
Definition vsub (a b : vec3) : vec3 :=
  mkvec3 (fsub (vx a) (vx b)) (fsub (vy a) (vy b)) (fsub (vz a) (vz b)).
Definition vneg (a : vec3) : vec3 :=
  mkvec3 (fneg (vx a)) (fneg (vy a)) (fneg (vz a)).
(** [v * s] and [s * v]. *)
Definition vscale (a : vec3) (s : float) : vec3 :=
  mkvec3 (fmul (vx a) s) (fmul (vy a) s) (fmul (vz a) s).
Definition scalev (s : float) (a : vec3) : vec3 :=
  mkvec3 (fmul s (vx a)) (fmul s (vy a)) (fmul s (vz a)).
(** [v / s]. *)
Definition vdivs (a : vec3) (s : float) : vec3 :=
  mkvec3 (fdiv (vx a) s) (fdiv (vy a) s) (fdiv (vz a) s).
Definition vmin (a b : vec3) : vec3 :=
  mkvec3 (fmin (vx a) (vx b)) (fmin (vy a) (vy b)) (fmin (vz a) (vz b)).
Definition vmax (a b : vec3) : vec3 :=
  mkvec3 (fmax (vx a) (vx b)) (fmax (vy a) (vy b)) (fmax (vz a) (vz b)).

(** [glm::dot]: the componentwise product summed left to right. *)
Definition dot (a b : vec3) : float :=
  fadd (fadd (fmul (vx a) (vx b)) (fmul (vy a) (vy b))) (fmul (vz a) (vz b)).
(** [glm::length(v)] is [sqrt(dot(v, v))]. *)
Definition vlength (a : vec3) : float := fsqrt (dot a a).
(** [glm::normalize(v)] is [v * inversesqrt(dot(v, v))], and
    [inversesqrt(x)] is [1 / sqrt(x)]. *)
Definition inversesqrt (x : float) : float := fdiv one (fsqrt x).
Definition normalize (a : vec3) : vec3 := vscale a (inversesqrt (dot a a)).

(** ** Grids and the store they live in *)

Definition loc := positive.
Definition coord := (Z * Z * Z)%type.

(** Modelled from the spec: the grid classes ([floatgrid], [intgrid],
    [Grid<T>]) are declared outside the files at hand. The spec describes
    a three-dimensional field addressed by integer (i,j,k) that returns a
    default background value where nothing is stored, and adds that an
    access with out-of-bounds indices clamps to the nearest valid cell.
    The constructor of the solver's grids takes the background value and
    nothing else ([new floatgrid(0.0f)]), so these grids have no bound to
    clamp to; [flip.cpp] passes the dimensions too
    ([new Grid<int>(dims, 0)]) and then reads and writes faces up to one
    past them. The model leaves the clamp out: a grid is a finite map
    from coordinates to values together with its background, and every
    coordinate is its own cell. The two readings part only where a grid
    built with dimensions is addressed outside them, which the code at
    hand does for the mark grids of [ExtrapolateVelocity] at the last
    face of each axis; the statements made about that pass hold under
    either reading. *)
Record Grid (T : Type) := mkGrid { background : T; cells : gmap coord T }.
Arguments mkGrid {T} _ _.
Arguments background {T} _.
Arguments cells {T} _.

Definition grid_get {T} (g : Grid T) (c : coord) : T :=
  default (background g) (cells g !! c).
Definition grid_set {T} (c : coord) (v : T) (g : Grid T) : Grid T :=
  mkGrid (background g) (<[c := v]> (cells g)).

(** Grids are reached through pointers, so the objects live in a store
    indexed by address. Two pointers that hold the same address see the
    same cells. *)
Definition getCell {T} `{Inhabited T} (h : gmap loc (Grid T)) (g : loc)
    (i j k : Z) : T :=
  match h !! g with
  | Some gr => grid_get gr (i, j, k)
  | None => inhabitant
  end.
Definition setCell {T} (h : gmap loc (Grid T)) (g : loc) (i j k : Z) (v : T)
    : gmap loc (Grid T) :=
  alter (grid_set (i, j, k) v) g h.

(** [new Grid(background)]: a fresh address holding an empty grid. *)
Definition new_grid {T} (bg : T) (h : gmap loc (Grid T))
    : loc * gmap loc (Grid T) :=
  let l := fresh (dom h) in (l, <[l := mkGrid bg ∅]> h).

Global Instance float_inhabited : Inhabited float := populate zero.

(** The store: float grids and int grids are different C++ types, so a
    float pointer never aliases an int pointer. *)
Record heap := mkHeap {
  floatgrids : gmap loc (Grid float);
  intgrids : gmap loc (Grid Z)
}.

Definition fget (h : heap) := getCell (floatgrids h).
Definition iget (h : heap) := getCell (intgrids h).
Definition fset (h : heap) (g : loc) (i j k : Z) (v : float) : heap :=
  mkHeap (setCell (floatgrids h) g i j k v) (intgrids h).
Definition new_floatgrid (bg : float) (h : heap) : loc * heap :=
  let '(l, fg) := new_grid bg (floatgrids h) in (l, mkHeap fg (intgrids h)).
Definition delete_floatgrid (l : loc) (h : heap) : heap :=
  mkHeap (delete l (floatgrids h)) (intgrids h).

(** ** Cell markers *)

(** The enumeration [geomtype] with the enumerators [AIR], [FLUID] and
    [SOLID] is declared outside the files at hand and its numeric values
    are not given; they are kept abstract, known only to be distinct. *)
Class geomtype := {
  AIR : Z;
  FLUID : Z;
  SOLID : Z;
  AIR_FLUID : AIR <> FLUID;
  AIR_SOLID : AIR <> SOLID;
  FLUID_SOLID : FLUID <> SOLID
}.

(** The numbering AIR = 0, FLUID = 1, SOLID = 2. *)
Program Definition geomtype_012 : geomtype :=
  {| AIR := 0; FLUID := 1; SOLID := 2 |}.
Solve All Obligations with lia.

(** A [for] loop over [gn = 0 .. n-1] threading a state. *)
Definition for_gn {S} (n : Z) (body : Z -> S -> S) (s : S) : S :=
  fold_left (fun s gn => body gn s) (seqZ 0 n) s.

(** ** The PCG solver ([solver.inl]) *)

Section Solver.
Context {G : geomtype}.

(** [int x = (int)dimensions.x; ...]. *)
Definition dims_int (dimensions : vec3) : Z * Z * Z :=
  (F2Z (vx dimensions), F2Z (vy dimensions), F2Z (vz dimensions)).

(** The decomposition of the flat index used by every loop of the
    solver: [i=(gn%(x*y))%z; j=(gn%(x*y))/z; k=gn/(x*y)]. C++ [%] and
    [/] truncate toward zero. Overflow of [int] is undefined in C++; the
    products are taken in [Z]. *)
Definition cell_of (x y z gn : Z) : coord :=
  (Z.rem (Z.rem gn (x * y)) z, Z.quot (Z.rem gn (x * y)) z,
   Z.quot gn (x * y)).

(** The [int] products [x*y] of the index split and [x*y*z] of the loop
    bound are representable. Where one of them overflows the behaviour of
    the C++ code is undefined; on a grid with [no_overflow] the products
    in [Z] are the products that the code computes, and the statements
    about the cells that a loop visits are made for such grids. *)
Definition no_overflow (x y z : Z) : Prop :=
  (INT_MIN <= x * y <= INT_MAX) /\ (INT_MIN <= x * y * z <= INT_MAX).

(** [flipGrid]: "Takes a grid, multiplies everything by -1". *)
Definition flipGrid (grid : loc) (dimensions : vec3) (h : heap) : heap :=
  let '(x, y, z) := dims_int dimensions in
  for_gn (x * y * z) (fun gn h =>
    let '(i, j, k) := cell_of x y z gn in
    let flipped := fneg (fget h grid i j k) in
    fset h grid i j k flipped) h.

(** The bounds test shared by the helpers:
    [i<0 || i>x-1 || j<0 || j>y-1 || k<0 || k>z-1]. *)
Definition outside (x y z i j k : Z) : bool :=
  (i <? 0) || (x - 1 <? i) || (j <? 0) || (y - 1 <? j)
  || (k <? 0) || (z - 1 <? k).

Definition ARef (h : heap) (A : loc) (i j k qi qj qk : Z)
    (dimensions : vec3) : float :=
  let '(x, y, z) := dims_int dimensions in
  if outside x y z i j k || negb (iget h A i j k =? FLUID) then zero
  else if outside x y z qi qj qk || negb (iget h A qi qj qk =? FLUID)
  then zero
  else fneg one.

(** [PRef] compares the value stored in the float grid [p] with the
    enumerator [FLUID], which is converted to [float] for the
    comparison. *)
Definition PRef (h : heap) (p : loc) (i j k : Z) (dimensions : vec3)
    : float :=
  let '(x, y, z) := dims_int dimensions in
  if outside x y z i j k || fne (fget h p i j k) (Z2F FLUID) then zero
  else fget h p i j k.

(** The six neighbours in the order of the array [q] of [ADiag]. *)
Definition neighbours6 (i j k : Z) : list coord :=
  [(i - 1, j, k); (i + 1, j, k); (i, j - 1, k); (i, j + 1, k);
   (i, j, k - 1); (i, j, k + 1)].

(** [glm::min(1.0e-6f, L)]. *)
Definition eps6 : float := lit 1 1000000.

(** [ADiag]. The literals [6.0] and [1.0] are doubles: [diag -= 1.0]
    subtracts in double precision and rounds to [float], which gives the
    same value as the single-precision subtraction. *)
Definition ADiag (h : heap) (A L : loc) (i j k : Z) (dimensions : vec3)
    (subcell : Z) : float :=
  let '(x, y, z) := dims_int dimensions in
  let diag := Z2F 6 in
  if negb (iget h A i j k =? FLUID) then diag
  else
    fold_left (fun diag '(qi, qj, qk) =>
      if outside x y z qi qj qk || (iget h A qi qj qk =? SOLID)
      then fsub diag one
      else if (iget h A qi qj qk =? AIR) && negb (subcell =? 0)
      then fsub diag (fdiv (fget h L qi qj qk)
                           (fmin eps6 (fget h L i j k)))
      else diag) (neighbours6 i j k) diag.

(** The macgrid of the solver: its fields are pointers into the store. *)
Record macgrid := mkMacgrid {
  dimensions : vec3;
  A : loc;
  L : loc;
  P : loc;
  D : loc;
  u_x : loc;
  u_y : loc;
  u_z : loc
}.

(** One round of the loop of [buildPreconditioner], at flat index
    [gn]. *)
Definition buildPreconditioner_body (pc : loc) (mgrid : macgrid)
    (subcell : Z) (x y z : Z) (gn : Z) (h : heap) : heap :=
  let dm := dimensions mgrid in
  let a := lit 25 100 in
  let '(i, j, k) := cell_of x y z gn in
  if iget h (A mgrid) i j k =? FLUID then
    let left := fmul (ARef h (A mgrid) (i - 1) j k i j k dm)
                     (PRef h pc (i - 1) j k dm) in
    let bottom := fmul (ARef h (A mgrid) i (j - 1) k i j k dm)
                       (PRef h pc i (j - 1) k dm) in
    let back := fmul (ARef h (A mgrid) i j (k - 1) i j k dm)
                     (PRef h pc i j (k - 1) dm) in
    let diag := ADiag h (A mgrid) (L mgrid) i j k dm subcell in
    let e := fsub (fsub (fsub diag (fmul left left))
                        (fmul bottom bottom)) (fmul back back) in
    if flt zero diag then
      let e := if flt e (fmul a diag) then diag else e in
      fset h pc i j k (fdiv one (fsqrt e))
    else h
  else h.

Definition buildPreconditioner (pc : loc) (mgrid : macgrid) (subcell : Z)
    (h : heap) : heap :=
  let '(x, y, z) := dims_int (dimensions mgrid) in
  for_gn (x * y * z) (buildPreconditioner_body pc mgrid subcell x y z) h.

(** [glm::min(glm::max(0,(int)p),x-1)]. *)
Definition clampi (p hi : Z) : Z := Z.min (Z.max 0 p) hi.

(** [xRef]: the cell [p] and the centre [f] arrive as [vec3] and are
    converted back with [(int)]. *)
Definition xRef (h : heap) (A L X : loc) (f p : vec3) (dimensions : vec3)
    (subcell : Z) : float :=
  let '(x, y, z) := dims_int dimensions in
  let i := clampi (F2Z (vx p)) (x - 1) in let fi := F2Z (vx f) in
  let j := clampi (F2Z (vy p)) (y - 1) in let fj := F2Z (vy f) in
  let k := clampi (F2Z (vz p)) (z - 1) in let fk := F2Z (vz f) in
  if iget h A i j k =? FLUID then fget h X i j k
  else if iget h A i j k =? SOLID then fget h X fi fj fk
  else if negb (subcell =? 0) then
    fmul (fdiv (fget h L i j k) (fmin eps6 (fget h L fi fj fk)))
         (fget h X fi fj fk)
  else zero.

Definition vec3i (i j k : Z) : vec3 := mkvec3 (Z2F i) (Z2F j) (Z2F k).

(** [op]: target = X + alpha*Y on fluid cells, 0 elsewhere. *)
Definition op (A X Y target : loc) (alpha : float) (dimensions : vec3)
    (h : heap) : heap :=
  let '(x, y, z) := dims_int dimensions in
  for_gn (x * y * z) (fun gn h =>
    let '(i, j, k) := cell_of x y z gn in
    if iget h A i j k =? FLUID then
      let targetval := fadd (fget h X i j k) (fmul alpha (fget h Y i j k)) in
      fset h target i j k targetval
    else fset h target i j k zero) h.

(** [computeAx]: target = AX. *)
Definition computeAx (A L X target : loc) (dimensions : vec3)
    (subcell : Z) (h : heap) : heap :=
  let '(x, y, z) := dims_int dimensions in
  let n := Z2F (Z.max (Z.max x y) z) in
  let hh := fdiv one (fmul n n) in
  for_gn (x * y * z) (fun gn h =>
    let '(i, j, k) := cell_of x y z gn in
    if iget h A i j k =? FLUID then
      let c := vec3i i j k in
      let xr p := xRef h A L X c p dimensions subcell in
      let result :=
        fdiv (fsub (fsub (fsub (fsub (fsub (fsub
               (fmul (Z2F 6) (fget h X i j k))
               (xr (vec3i (i + 1) j k)))
               (xr (vec3i (i - 1) j k)))
               (xr (vec3i i (j + 1) k)))
               (xr (vec3i i (j - 1) k)))
               (xr (vec3i i j (k + 1))))
               (xr (vec3i i j (k - 1)))) hh in
      fset h target i j k result
    else fset h target i j k zero) h.

(** [solveConjugateGradient]: allocates [r], [z] and [s], computes
    z = A·P and r = D - z, and returns. The addresses of the three local
    grids are returned with the store so that they can be inspected. *)
Definition solveConjugateGradient (mgrid : macgrid) (pc : loc)
    (subcell : Z) (h : heap) : (loc * loc * loc) * heap :=
  let '(r, h) := new_floatgrid zero h in
  let '(z, h) := new_floatgrid zero h in
  let '(s, h) := new_floatgrid zero h in
  let h := computeAx (A mgrid) (L mgrid) (P mgrid) z (dimensions mgrid)
                     subcell h in
  let h := op (A mgrid) (D mgrid) z r (fneg one) (dimensions mgrid) h in
  ((r, z, s), h).

(** [solve]: flip the divergence, build the preconditioner, call the
    conjugate-gradient routine, delete the preconditioner. *)
Definition solve_trace (mgrid : macgrid) (subcell : Z) (h : heap)
    : (loc * loc * loc) * heap :=
  let h := flipGrid (D mgrid) (dimensions mgrid) h in
  let '(preconditioner, h) := new_floatgrid zero h in
  let h := buildPreconditioner preconditioner mgrid subcell h in
  let '(rzs, h) := solveConjugateGradient mgrid preconditioner subcell h in
  (rzs, delete_floatgrid preconditioner h).

Definition solve (mgrid : macgrid) (subcell : Z) (h : heap) : heap :=
  snd (solve_trace mgrid subcell h).

End Solver.

(** ** Frames *)

(** [same_but h h' g]: the int grids are the same in [h'] as in [h], and
    so is every float grid except the one at address [g]. *)
Definition same_but (g : loc) (h h' : heap) : Prop :=
  intgrids h' = intgrids h /\
  forall l, l <> g -> floatgrids h' !! l = floatgrids h !! l.

(** [kept h h']: every float grid allocated in [h] is the same in [h'],
    and the int grids are the same. *)
Definition kept (h h' : heap) : Prop :=
  intgrids h' = intgrids h /\
  forall l, is_Some (floatgrids h !! l) ->
            floatgrids h' !! l = floatgrids h !! l.


(** ** Residual norm and concrete stores used in the examples *)

Definition fabs : float -> float := SFabs.

(** The cells of the box [0,x) × [0,y) × [0,z). *)
Definition box (x y z : Z) : list coord :=
  i ← seqZ 0 x; j ← seqZ 0 y; k ← seqZ 0 z; [(i, j, k)].

(** A grid holding [v] in every cell of the box and [bg] elsewhere. *)
Definition box_grid {T} (x y z : Z) (v bg : T) : Grid T :=
  mkGrid bg (list_to_map ((fun c => (c, v)) <$> box x y z)).

(** The ∞-norm of the float grid [g] over the FLUID cells of the box. *)
Definition inf_norm {G : geomtype} (h : heap) (A g : loc) (x y z : Z)
    : float :=
  fold_left (fun m '(i, j, k) =>
    if iget h A i j k =? FLUID then fmax m (fabs (fget h g i j k)) else m)
    (box x y z) zero.

Module Examples.
Local Existing Instance geomtype_012.

(** The fields of a macgrid at the addresses L=1, P=2, D=3, u_x=4,
    u_y=5, u_z=6 of the float store and A=1 of the int store. *)
Definition mg (x y z : Z) : macgrid :=
  mkMacgrid (vec3i x y z) 1%positive 1%positive 2%positive 3%positive
            4%positive 5%positive 6%positive.

(** A uniform n³ box of marker [m] with divergence [d] in every cell,
    pressure and level set zero, face velocities zero. *)
Definition uniform_store (n m : Z) (d : float) : heap :=
  mkHeap
    (<[1%positive := mkGrid zero ∅]>
     (<[2%positive := mkGrid zero ∅]>
     (<[3%positive := box_grid n n n d zero]>
     (<[4%positive := mkGrid zero ∅]>
     (<[5%positive := mkGrid zero ∅]>
     (<[6%positive := mkGrid zero ∅]> ∅))))))
    (<[1%positive := box_grid n n n m AIR]> ∅).

(** The 8³ all-FLUID box whose right-hand side is b = 1 once the
    divergence has been negated. *)
Definition fluid8 : heap := uniform_store 8 FLUID (fneg one).

(** A 2×1×1 grid: D holds 5 at (0,0,0) and 1 at (1,0,0). *)
Definition flip211 : heap :=
  mkHeap (<[3%positive :=
            mkGrid zero (<[(1, 0, 0) := one]> (<[(0, 0, 0) := Z2F 5]> ∅))]> ∅)
         ∅.

(** Two cells side by side; A marks (0,0,0) FLUID and (1,0,0) AIR; the
    float grid at address 7 holds 1/2 at (0,0,0) and 1 at (1,0,0). *)
Definition pref_store : heap :=
  mkHeap (<[7%positive :=
            mkGrid zero (<[(1, 0, 0) := one]> (<[(0, 0, 0) := lit 1 2]> ∅))]> ∅)
         (<[1%positive :=
            mkGrid AIR (<[(1, 0, 0) := AIR]> (<[(0, 0, 0) := FLUID]> ∅))]> ∅).

(** A 3³ box of SOLID cells with one FLUID cell in the middle, and a
    preconditioner grid of zeros at address 7. *)
Definition pocket : heap :=
  mkHeap (<[7%positive := mkGrid zero ∅]> (floatgrids (uniform_store 3 SOLID zero)))
         (<[1%positive :=
            grid_set (1, 1, 1) FLUID (box_grid 3 3 3 SOLID AIR)]> ∅).

(** A 2×1×2 grid with one FLUID cell at (0,0,0) among AIR cells; the
    level set is the smallest negative float in the FLUID cell and 1
    elsewhere; a preconditioner grid of zeros at address 7. *)
Definition thin_film : heap :=
  mkHeap (<[7%positive := mkGrid zero ∅]>
          (<[1%positive :=
              mkGrid one (<[(0, 0, 0) := S754_finite true 1 (-149)]> ∅)]> ∅))
         (<[1%positive := mkGrid AIR (<[(0, 0, 0) := FLUID]> ∅)]> ∅).

(** The same grid at the surface of a liquid: the level set is -3/2 in
    the FLUID cell and 1 in the AIR cells. *)
Definition surface : heap :=
  mkHeap (<[7%positive := mkGrid zero ∅]>
          (<[1%positive :=
              mkGrid one (<[(0, 0, 0) := fneg (lit 3 2)]> ∅)]> ∅))
         (<[1%positive := mkGrid AIR (<[(0, 0, 0) := FLUID]> ∅)]> ∅).

(** A store whose cells are all FLUID, with a level set of zeros and a
    preconditioner grid of zeros at address 7. *)
Definition all_fluid : heap :=
  mkHeap (<[7%positive := mkGrid zero ∅]> (<[1%positive := mkGrid zero ∅]> ∅))
         (<[1%positive := mkGrid FLUID ∅]> ∅).

(** The store [h] with one more float grid, all zeros, at address 7. *)
Definition with_pc (h : heap) : heap :=
  mkHeap (<[7%positive := mkGrid zero ∅]> (floatgrids h)) (intgrids h).
End Examples.

(** ** Floats by their size and sign *)

(** The finite floats that an operation of binary32 returns have a
    mantissa of at most 24 bits and an exponent between -149 and 104.
    The store of the model can hold any [spec_float]; [sized] says of a
    float that, if it is finite, it is one of binary32. *)
Definition sized (v : float) : Prop :=
  match v with
  | S754_finite _ m e => Z.pos m < 2 ^ 24 /\ -149 <= e <= 104
  | _ => True
  end.

(** What a product x·x can be: +0, +∞ or a positive float of binary32. *)
Definition square_like (v : float) : Prop :=
  match v with
  | S754_zero false | S754_infinity false => True
  | S754_finite false m e => Z.pos m < 2 ^ 24 /\ -149 <= e <= 104
  | _ => False
  end.

(** What is left of a positive finite diagonal after squares have been
    subtracted from it: +0, -∞ or a float of binary32 of either sign. *)
Definition remainder_like (v : float) : Prop :=
  match v with
  | S754_zero false | S754_infinity true => True
  | S754_finite _ m e => Z.pos m < 2 ^ 24 /\ -149 <= e <= 104
  | _ => False
  end.

(** +0 or a positive float of binary32. *)
Definition radicand (v : float) : Prop :=
  match v with
  | S754_zero false => True
  | S754_finite false m e => Z.pos m < 2 ^ 24 /\ -149 <= e <= 104
  | _ => False
  end.

(** ** Particles, the scene and the simulation state ([flip.cpp]) *)

(** The fields of [Particle] that [flip.cpp] reads or writes. *)
Record Particle := mkParticle {
  m_p : vec3;        (* position *)
  m_u : vec3;        (* velocity *)
  m_n : vec3;        (* normal (solid particles) *)
  m_t : vec3;        (* PIC/FLIP scratch *)
  m_pt : vec3;       (* stored previous position *)
  m_ut : vec3;       (* stored previous velocity *)
  m_mass : float;
  m_density_p : float;
  m_type : Z;
  m_temp : bool;
  m_temp2 : bool
}.

Definition set_p (q : vec3) (p : Particle) : Particle :=
  mkParticle q (m_u p) (m_n p) (m_t p) (m_pt p) (m_ut p) (m_mass p)
             (m_density_p p) (m_type p) (m_temp p) (m_temp2 p).
Definition set_u (q : vec3) (p : Particle) : Particle :=
  mkParticle (m_p p) q (m_n p) (m_t p) (m_pt p) (m_ut p) (m_mass p)
             (m_density_p p) (m_type p) (m_temp p) (m_temp2 p).
Definition set_pt (q : vec3) (p : Particle) : Particle :=
  mkParticle (m_p p) (m_u p) (m_n p) (m_t p) q (m_ut p) (m_mass p)
             (m_density_p p) (m_type p) (m_temp p) (m_temp2 p).
Definition set_temps (b b2 : bool) (p : Particle) : Particle :=
  mkParticle (m_p p) (m_u p) (m_n p) (m_t p) (m_pt p) (m_ut p) (m_mass p)
             (m_density_p p) (m_type p) b b2.

Record Ray := mkRay { m_origin : vec3; m_direction : vec3; m_frame_r : Z }.

Record Intersection := mkIntersection {
  m_hit : bool; m_point : vec3; m_normal : vec3
}.

(** The scene is reached through an interface ([scene.hpp] declares the
    queries; their bodies are elsewhere), so its queries are operations of
    a class. [ProjectPointsToSurface] is the operation of the solid level
    set that moves the particles it is handed. *)
Class Scene := {
  IntersectSolidGeoms : Ray -> Intersection;
  CheckPointInsideSolidGeom : vec3 -> float -> bool;
  GetExternalForces : list vec3;
  ProjectPointsToSurface : list Particle -> float -> list Particle
}.

(** The MAC grid of [flip.cpp]; the fields are pointers into the store. *)
Record MacGrid := mkMacGrid {
  m_A : loc;
  m_u_x : loc;
  m_u_y : loc;
  m_u_z : loc
}.

(** Modelled from the spec: the class [ParticleGrid] is declared outside
    the files at hand. The spec describes it as a map from an integer cell
    (i,j,k) to the ordered sequence of handles of the particles whose
    position, scaled to grid units, falls in that cell; [Sort] rebuilds the
    buckets and [GetCellNeighbors] returns the handles in the cells within
    ± radius of a centre. A handle is the index of the particle in
    [m_particles]. *)
Definition ParticleGrid := gmap coord (list nat).

Definition particle_cell (maxd : float) (p : Particle) : coord :=
  (F2Z (fmul (vx (m_p p)) maxd), F2Z (fmul (vy (m_p p)) maxd),
   F2Z (fmul (vz (m_p p)) maxd)).

Definition Sort (maxd : float) (particles : list Particle) : ParticleGrid :=
  fold_left (fun (pg : ParticleGrid) '(n, p) =>
    let c := particle_cell maxd p in
    <[c := default [] (pg !! c) ++ [n]]> pg)
    (imap (fun n p => (n, p)) particles) ∅.

Definition GetCellNeighbors (pg : ParticleGrid) (center radius : vec3)
    : list nat :=
  let '(ci, cj, ck) := (F2Z (vx center), F2Z (vy center), F2Z (vz center)) in
  let '(ri, rj, rk) := (F2Z (vx radius), F2Z (vy radius), F2Z (vz radius)) in
  i ← seqZ (ci - ri) (2 * ri + 1);
  j ← seqZ (cj - rj) (2 * rj + 1);
  k ← seqZ (ck - rk) (2 * rk + 1);
  default [] (pg !! (i, j, k)).

(** The state of [FlipSim] that the passes below use, with the store of
    its grids. *)
Record FlipSim := mkFlipSim {
  m_dimensions : vec3;
  m_particles : list Particle;
  m_density : float;
  m_stepsize : float;
  m_frame : Z;
  m_mgrid : MacGrid;
  m_pgrid : ParticleGrid;
  grids : heap
}.

Definition with_particles (ps : list Particle) (s : FlipSim) : FlipSim :=
  mkFlipSim (m_dimensions s) ps (m_density s) (m_stepsize s) (m_frame s)
            (m_mgrid s) (m_pgrid s) (grids s).
Definition with_pgrid (pg : ParticleGrid) (s : FlipSim) : FlipSim :=
  mkFlipSim (m_dimensions s) (m_particles s) (m_density s) (m_stepsize s)
            (m_frame s) (m_mgrid s) pg (grids s).
Definition with_grids (h : heap) (s : FlipSim) : FlipSim :=
  mkFlipSim (m_dimensions s) (m_particles s) (m_density s) (m_stepsize s)
            (m_frame s) (m_mgrid s) (m_pgrid s) h.

(** A loop over [i = 0 .. n-1] threading a state. The bodies of the
    [tbb::parallel_for] loops of [flip.cpp] write only what belongs to
    their own index; they are run here in index order. *)
Definition for_n {S} (n : nat) (body : nat -> S -> S) (s : S) : S :=
  fold_left (fun s i => body i s) (seq 0 n) s.

(** [float maxd = glm::max(glm::max(dims.x, dims.z), dims.y)]. *)
Definition maxd_of (dims : vec3) : float :=
  fmax (fmax (vx dims) (vz dims)) (vy dims).

Section Sim.
Context {G : geomtype} {scene : Scene}.

(** [InterpolateVelocity] comes from the kernels, which are not among
    the files at hand; it is a parameter of the passes that call it. *)
Variable InterpolateVelocity : vec3 -> MacGrid -> heap -> vec3.

(** [ApplyExternalForces]: for every particle and every force,
    [m_u += force * m_stepsize]. *)
Definition ApplyExternalForces (sim : FlipSim) : FlipSim :=
  let externalForces := GetExternalForces in
  let numberOfExternalForces := length externalForces in
  let particlecount := length (m_particles sim) in
  with_particles
    (for_n particlecount (fun i ps =>
       for_n numberOfExternalForces (fun j ps =>
         match externalForces !! j with
         | Some f =>
             alter (fun p => set_u (vadd (m_u p) (vscale f (m_stepsize sim))) p)
                   i ps
         | None => ps
         end) ps) (m_particles sim))
    sim.

(** The body of the loop of [CheckParticleSolidConstraints] for one
    particle. *)
Definition CheckParticleSolidConstraints_body (sim : FlipSim)
    (p : Particle) : Particle :=
  let maxd := maxd_of (m_dimensions sim) in
  if m_type p =? FLUID then
    let r_origin := vscale (m_pt p) maxd in
    let r_direction := normalize (vsub (m_p p) (m_pt p)) in
    let r := mkRay r_origin r_direction (m_frame sim) in
    let raynulltest := vlength r_direction in
    if feq raynulltest raynulltest then
      let hit := IntersectSolidGeoms r in
      let u_dir := vlength (m_ut p) in
      let p :=
        if m_hit hit then
          let solidDistance := vlength (vsub r_origin (m_point hit)) in
          let velocityDistance :=
            fmul (vlength (vsub (m_p p) (m_pt p))) maxd in
          if flt solidDistance velocityDistance then
            let p := set_p (vdivs (vadd r_origin
                              (vscale (vscale r_direction (lit 90 100))
                                      solidDistance)) maxd) p in
            let p := set_u (vsub (scalev (fmul (Z2F 2)
                                            (dot r_direction (m_normal hit)))
                                         (m_normal hit))
                                 (normalize r_direction)) p in
            set_u (vscale (normalize (m_u p)) u_dir) p
          else p
        else p in
      let r_origin := vscale (m_p p) maxd in
      if CheckPointInsideSolidGeom r_origin (Z2F (m_frame sim)) then
        let p := set_u (vscale (vneg (normalize r_direction)) u_dir) p in
        set_p (vadd (m_pt p) (vscale (m_u p) (m_stepsize sim))) p
      else p
    else p
  else p.

Definition CheckParticleSolidConstraints (sim : FlipSim) : FlipSim :=
  let particlecount := length (m_particles sim) in
  with_particles
    (for_n particlecount (fun p ps =>
       alter (CheckParticleSolidConstraints_body sim) p ps)
       (m_particles sim))
    sim.

(** The raycast of [AdjustParticlesStuckInSolids] for one stuck
    particle. *)
Definition AdjustParticlesStuckInSolids_raycast (sim : FlipSim)
    (p : Particle) : Particle :=
  let maxd := maxd_of (m_dimensions sim) in
  let r_origin := vscale (m_pt p) maxd in
  let r_direction := normalize (vsub (m_p p) (m_pt p)) in
  let r := mkRay r_origin r_direction (m_frame sim) in
  let d := vlength (vsub (m_p p) (m_pt p)) in
  let raynulltest := vlength r_direction in
  if feq raynulltest raynulltest then
    let hit := IntersectSolidGeoms r in
    let nearestDistance := vlength (vsub r_origin (m_point hit)) in
    let p := set_p (vdivs (vadd r_origin
                      (vscale (vscale r_direction (lit 105 100))
                              nearestDistance)) maxd) p in
    set_u (vscale (normalize r_direction) d) p
  else p.

(** The last loop of [AdjustParticlesStuckInSolids]: the raycast for
    every stuck particle. *)
Definition AdjustParticlesStuckInSolids_raycasts (sim : FlipSim)
    (stuckParticles : list nat) (ps : list Particle) : list Particle :=
  let stuckCount := length stuckParticles in
  for_n stuckCount (fun p ps =>
    match stuckParticles !! p with
    | Some n => alter (AdjustParticlesStuckInSolids_raycast sim) n ps
    | None => ps
    end) ps.

(** [AdjustParticlesStuckInSolids]. [stuckParticles] holds pointers to
    entries of [m_particles]; it is the list of their indices, and what
    is written through it is written to [m_particles]. *)
Definition AdjustParticlesStuckInSolids (sim : FlipSim) : FlipSim :=
  let maxd := maxd_of (m_dimensions sim) in
  let particleCount := length (m_particles sim) in
  (* the in-solid checks *)
  let '(ps, particleInSolidChecks) :=
    for_n particleCount (fun p '(ps, checks) =>
      match ps !! p with
      | Some q =>
          if m_type q =? FLUID then
            let ps := alter (set_temps false false) p ps in
            let point := vscale (m_p q) maxd in
            (ps, checks ++
                 [CheckPointInsideSolidGeom point (Z2F (m_frame sim))])
          else (ps, checks ++ [false])
      | None => (ps, checks)
      end) (m_particles sim, []) in
  (* the particles to adjust *)
  let '(ps, stuckParticles) :=
    for_n particleCount (fun p '(ps, stuck) =>
      if default false (particleInSolidChecks !! p) then
        (alter (fun q => set_pt (m_p q) q) p ps, stuck ++ [p])
      else (ps, stuck)) (ps, []) in
  (* projection to the surface of the solid level set *)
  let projected :=
    ProjectPointsToSurface (omap (fun n => ps !! n) stuckParticles) maxd in
  let ps :=
    fold_left (fun ps '(n, q) => <[n := q]> ps)
              (zip stuckParticles projected) ps in
  (* the raycast for a precise result *)
  let ps := AdjustParticlesStuckInSolids_raycasts sim stuckParticles ps in
  with_particles ps sim.

(** [AdvectParticles], the push of the fluid particle [p0] away from
    its neighbour [p1] (the body of the loop over [neighbors]). *)
Definition AdvectParticles_push (sim : FlipSim) (maxd : float)
    (p0 p1 : nat) (ps : list Particle) : list Particle :=
  match ps !! p0, ps !! p1 with
  | Some p, Some np =>
      let re := fdiv (fmul (lit 15 10) (m_density sim)) maxd in
      if m_type np =? SOLID then
        let dist := vlength (vsub (m_p p) (m_p np)) in
        if flt dist re then
          let normal := m_n np in
          let normal :=
            if flt (vlength normal) (lit 1 10000000) && fne dist zero
            then normalize (vsub (m_p p) (m_p np)) else normal in
          let p := set_p (vadd (m_p p) (scalev (fsub re dist) normal)) p in
          let p := set_u (vsub (m_u p)
                               (scalev (dot (m_u p) normal) normal)) p in
          <[p0 := p]> ps
        else ps
      else ps
  | _, _ => ps
  end.

(** The clamp to the outer walls: [glm::max(vec3(r), glm::min(vec3(1-r), p))]. *)
Definition wall_clamp (maxd : float) (q : vec3) : vec3 :=
  let r := fdiv one maxd in
  vmax (vsplat r) (vmin (vsplat (fsub one r)) q).

(** The clamp applied to the particle of the round: fluid particles
    only. *)
Definition AdvectParticles_clamp (maxd : float) (p : Particle) : Particle :=
  if m_type p =? FLUID then set_p (wall_clamp maxd (m_p p)) p else p.

(** The cell handed to [GetCellNeighbors]:
    [unsigned int i = glm::min(x-1.0f, p->m_p.x*maxd)], likewise [j] and
    [k], then [glm::vec3(i,j,k)]. *)
Definition AdvectParticles_cell (x y z : Z) (maxd : float) (p : Particle)
    : vec3 :=
  let i := F2U (fmin (fsub (Z2F x) one) (fmul (vx (m_p p)) maxd)) in
  let j := F2U (fmin (fsub (Z2F y) one) (fmul (vy (m_p p)) maxd)) in
  let k := F2U (fmin (fsub (Z2F z) one) (fmul (vz (m_p p)) maxd)) in
  vec3i i j k.

(** [AdvectParticles], one round of the second loop (the constraints
    for the outer walls and the solid particles) for the index [p0]. The
    round writes the particle [p0] only; of its neighbours it reads the
    type, and the position and normal of those that are SOLID, which no
    round writes. *)
Definition AdvectParticles_constrain (sim : FlipSim) (pgrid : ParticleGrid)
    (x y z : Z) (maxd : float) (p0 : nat) (ps : list Particle)
    : list Particle :=
  let ps := alter (AdvectParticles_clamp maxd) p0 ps in
  match ps !! p0 with
  | Some p =>
      if m_type p =? FLUID then
        let neighbors :=
          GetCellNeighbors pgrid (AdvectParticles_cell x y z maxd p)
                           (vsplat one) in
        for_n (length neighbors) (fun p1 ps =>
          match neighbors !! p1 with
          | Some np => AdvectParticles_push sim maxd p0 np ps
          | None => ps
          end) ps
      else ps
  | None => ps
  end.

(** The position update of the first loop of [AdvectParticles]. *)
Definition AdvectParticles_move (sim : FlipSim) (p : Particle) : Particle :=
  if m_type p =? FLUID then
    let velocity :=
      InterpolateVelocity (m_p p) (m_mgrid sim) (grids sim) in
    set_p (vadd (m_p p) (scalev (m_stepsize sim) velocity)) p
  else p.

Definition AdvectParticles (sim : FlipSim) : FlipSim :=
  let x := F2U (vx (m_dimensions sim)) in
  let y := F2U (vy (m_dimensions sim)) in
  let z := F2U (vz (m_dimensions sim)) in
  let maxd := maxd_of (m_dimensions sim) in
  let particleCount := length (m_particles sim) in
  (* update positions *)
  let ps := for_n particleCount (fun i ps =>
              alter (AdvectParticles_move sim) i ps) (m_particles sim) in
  (* sort *)
  let pgrid := Sort maxd ps in
  (* apply constraints for outer walls of sim *)
  let ps := for_n particleCount
              (AdvectParticles_constrain sim pgrid x y z maxd) ps in
  with_pgrid pgrid (with_particles ps sim).

(** [re = 1.5f*m_density/maxd], the reach of a solid particle. *)
Definition solid_reach (sim : FlipSim) : float :=
  fdiv (fmul (lit 15 10) (m_density sim)) (maxd_of (m_dimensions sim)).

End Sim.

(** ** Velocity extrapolation ([FlipSim::ExtrapolateVelocity]) *)

(** Selection among three by an index 0, 1, 2, as [mark[n]] and the
    chain [if(n==0) .. else if(n==1) .. else if(n==2) ..] do. *)
Definition sel3 {T} (a b c : T) (n : Z) : T :=
  if n =? 0 then a else if n =? 1 then b else c.

Definition u_of (m : MacGrid) (n : Z) : loc :=
  sel3 (m_u_x m) (m_u_y m) (m_u_z m) n.

Definition b2z (b : bool) : Z := if b then 1 else 0.

(** [glm::vec3(a, b, c)] built from [unsigned int] values. *)
Definition vec3u (a b c : Z) : vec3 :=
  mkvec3 (Z2F (wrap32 a)) (Z2F (wrap32 b)) (Z2F (wrap32 c)).

Section Extrapolate.
Context {G : geomtype}.

(** The six grids [mark[i]], [wallmark[i]] are allocated in the order
    of the loop: mark[0], wallmark[0], mark[1], ... *)
Definition ExtrapolateVelocity_alloc (ig : gmap loc (Grid Z))
    : (Z -> loc) * (Z -> loc) * gmap loc (Grid Z) :=
  let '(m0, ig) := new_grid 0 ig in
  let '(w0, ig) := new_grid 0 ig in
  let '(m1, ig) := new_grid 0 ig in
  let '(w1, ig) := new_grid 0 ig in
  let '(m2, ig) := new_grid 0 ig in
  let '(w2, ig) := new_grid 0 ig in
  (sel3 m0 m1 m2, sel3 w0 w1 w2, ig).

(** The three loops that fill [mark] and [wallmark] from the markers
    [A]. They read and write int grids only. Indices are [unsigned int]
    in the source; below 2^31 they reach the accessors unchanged. *)
Definition ExtrapolateVelocity_marks (A : loc) (x y z : Z)
    (mark wallmark : Z -> loc) (ig : gmap loc (Grid Z))
    : gmap loc (Grid Z) :=
  (* for every x face *)
  let ig :=
    for_gn (wrap32 (x + 1)) (fun i ig =>
    for_gn y (fun j ig =>
    for_gn z (fun k ig =>
      let ig := setCell ig (mark 0) i j k (b2z (
        ((0 <? i) && (getCell ig A (wrap32 (i - 1)) j k =? FLUID))
        || ((i <? x) && (getCell ig A i j k =? FLUID)))) in
      setCell ig (wallmark 0) i j k (b2z (
        ((i <=? 0) || (getCell ig A (wrap32 (i - 1)) j k =? SOLID))
        && ((x <=? i) || (getCell ig A i j k =? SOLID))))) ig) ig) ig in
  (* for every y face *)
  let ig :=
    for_gn x (fun i ig =>
    for_gn (wrap32 (y + 1)) (fun j ig =>
    for_gn z (fun k ig =>
      let ig := setCell ig (mark 1) i j k (b2z (
        ((0 <? j) && (getCell ig A i (wrap32 (j - 1)) k =? FLUID))
        || ((j <? y) && (getCell ig A i j k =? FLUID)))) in
      setCell ig (wallmark 1) i j k (b2z (
        ((j <=? 0) || (getCell ig A i (wrap32 (j - 1)) k =? SOLID))
        && ((y <=? j) || (getCell ig A i j k =? SOLID))))) ig) ig) ig in
  (* for every z face *)
  for_gn x (fun i ig =>
  for_gn y (fun j ig =>
  for_gn (wrap32 (z + 1)) (fun k ig =>
    let ig := setCell ig (mark 2) i j k (b2z (
      ((0 <? k) && (getCell ig A i j (wrap32 (k - 1)) =? FLUID))
      || ((k <? z) && (getCell ig A i j k =? FLUID)))) in
    setCell ig (wallmark 2) i j k (b2z (
      ((k <=? 0) || (getCell ig A i j (wrap32 (k - 1)) =? SOLID))
      && ((z <=? k) || (getCell ig A i j k =? SOLID))))) ig) ig) ig.

(** The six neighbours [q] of the face (i,j,k), as [glm::vec3]. *)
Definition face_neighbours (i j k : Z) : list vec3 :=
  [vec3u (i - 1) j k; vec3u (i + 1) j k; vec3u i (j - 1) k;
   vec3u i (j + 1) k; vec3u i j (k - 1); vec3u i j (k + 1)].

(** The test [q[0]>=0 && q[0]<x+(n==0) && q[1]>=0 && ...]. *)
Definition face_in_range (x y z n : Z) (q : vec3) : bool :=
  fle zero (vx q) && flt (vx q) (Z2F (wrap32 (x + b2z (n =? 0))))
  && fle zero (vy q) && flt (vy q) (Z2F (wrap32 (y + b2z (n =? 1))))
  && fle zero (vz q) && flt (vz q) (Z2F (wrap32 (z + b2z (n =? 2)))).

(** The loop over [qk]: the count [wsum] and the sum [sum] of the
    marked neighbours of a face of the field [n]. *)
Definition ExtrapolateVelocity_gather (ig : gmap loc (Grid Z))
    (mgrid : MacGrid) (x y z : Z) (mark : Z -> loc) (i j k n : Z)
    (fg : gmap loc (Grid float)) : Z * float :=
  fold_left (fun '(wsum, sum) q =>
    if face_in_range x y z n q then
      if negb (getCell ig (mark n) (F2Z (vx q)) (F2Z (vy q)) (F2Z (vz q))
               =? 0)
      then (wrap32 (wsum + 1),
            fadd sum (getCell fg (u_of mgrid n)
                              (F2Z (vx q)) (F2Z (vy q)) (F2Z (vz q))))
      else (wsum, sum)
    else (wsum, sum)) (face_neighbours i j k) (0, zero).

(** The body of the innermost loop (over [n]) of the extrapolation. *)
Definition ExtrapolateVelocity_face (ig : gmap loc (Grid Z))
    (mgrid : MacGrid) (x y z : Z) (mark wallmark : Z -> loc)
    (i j k n : Z) (fg : gmap loc (Grid float)) : gmap loc (Grid float) :=
  if negb (n =? 0) && (wrap32 (x - 1) <? i) then fg
  else if negb (n =? 1) && (wrap32 (y - 1) <? j) then fg
  else if negb (n =? 2) && (wrap32 (z - 1) <? k) then fg
  else if (getCell ig (mark n) i j k =? 0)
          && negb (getCell ig (wallmark n) i j k =? 0) then
    let '(wsum, sum) :=
      ExtrapolateVelocity_gather ig mgrid x y z mark i j k n fg in
    if negb (wsum =? 0)
    then setCell fg (u_of mgrid n) i j k (fdiv sum (Z2F wsum))
    else fg
  else fg.

(** The extrapolation loop; it reads the int grids and writes float
    grids only. *)
Definition ExtrapolateVelocity_pass (ig : gmap loc (Grid Z))
    (mgrid : MacGrid) (x y z : Z) (mark wallmark : Z -> loc)
    (fg : gmap loc (Grid float)) : gmap loc (Grid float) :=
  for_gn (wrap32 (x + 1)) (fun i fg =>
  for_gn (wrap32 (y + 1)) (fun j fg =>
  for_gn (wrap32 (z + 1)) (fun k fg =>
  for_gn 3 (fun n fg =>
    ExtrapolateVelocity_face ig mgrid x y z mark wallmark i j k n fg)
    fg) fg) fg) fg.

Definition ExtrapolateVelocity_delete (mark wallmark : Z -> loc)
    (ig : gmap loc (Grid Z)) : gmap loc (Grid Z) :=
  for_gn 3 (fun i ig => delete (wallmark i) (delete (mark i) ig)) ig.

Definition ExtrapolateVelocity (sim : FlipSim) : FlipSim :=
  let x := F2U (vx (m_dimensions sim)) in
  let y := F2U (vy (m_dimensions sim)) in
  let z := F2U (vz (m_dimensions sim)) in
  let h := grids sim in
  let '(mark, wallmark, ig) := ExtrapolateVelocity_alloc (intgrids h) in
  (* initalize temp grids with values *)
  let ig := ExtrapolateVelocity_marks (m_A (m_mgrid sim)) x y z
                                      mark wallmark ig in
  (* extrapolate *)
  let fg := ExtrapolateVelocity_pass ig (m_mgrid sim) x y z mark wallmark
                                     (floatgrids h) in
  let ig := ExtrapolateVelocity_delete mark wallmark ig in
  with_grids (mkHeap fg ig) sim.
End Extrapolate.

(** A write to one cell of one float grid, and a list of writes applied
    in order. *)
Definition write := (loc * coord * float)%type.

Definition applyW (ws : list write) (fg : gmap loc (Grid float))
    : gmap loc (Grid float) :=
  fold_left (fun fg '(l, (i, j, k), v) => setCell fg l i j k v) ws fg.

(** The value that the last write of [ws] to the cell [c] of [l] stores. *)
Fixpoint last_write (ws : list write) (l : loc) (c : coord) : option float :=
  match ws with
  | [] => None
  | (l', c', v) :: ws =>
      match last_write ws l c with
      | Some v' => Some v'
      | None => if decide (l' = l /\ c' = c) then Some v else None
      end
  end.

(** Two float stores agree on the cells selected by [M]. *)
Definition agree (M : loc -> coord -> Prop) (fg fg' : gmap loc (Grid float))
    : Prop :=
  forall l i j k, M l (i, j, k) -> getCell fg l i j k = getCell fg' l i j k.

(** [determined M f0 T]: on every store that agrees with [f0] on [M], the
    transformer [T] performs one and the same list of writes, none of
    which touches a cell of [M]. *)
Definition determined (M : loc -> coord -> Prop) (f0 : gmap loc (Grid float))
    (T : gmap loc (Grid float) -> gmap loc (Grid float)) : Prop :=
  exists ws, Forall (fun '(l, c, _) => ~ M l c) ws /\
             forall fg, agree M f0 fg -> T fg = applyW ws fg.

(** The faces that the extrapolation reads: those whose mark is set. *)
Definition marked (ig : gmap loc (Grid Z)) (mgrid : MacGrid) (mark : Z -> loc)
    (l : loc) (c : coord) : Prop :=
  exists n, 0 <= n < 3 /\ l = u_of mgrid n /\
            getCell ig (mark n) c.1.1 c.1.2 c.2 <> 0.

(** Two floats that are equal: for the comparison [==], or bit for bit
    (which a NaN is to itself only in the second sense). *)
Definition same_float (x y : float) : Prop := x = y \/ feq x y = true.

Definition same_position (a b : vec3) : Prop :=
  same_float (vx a) (vx b) /\ same_float (vy a) (vy b)
  /\ same_float (vz a) (vz b).

(** [stable ps ps']: the particle arrays have the same length, the
    particles keep their type, and every particle that is not FLUID is the
    same in [ps'] as in [ps]. *)
Definition stable {G : geomtype} (ps ps' : list Particle) : Prop :=
  length ps' = length ps /\
  forall k a, ps !! k = Some a ->
    exists b, ps' !! k = Some b /\ m_type b = m_type a /\
              (m_type a <> FLUID -> b = a).

(** Every component of [v] lies in the closed interval [lo, hi]. *)
Definition in_walls (lo hi : float) (v : vec3) : Prop :=
  (fle lo (vx v) = true /\ fle (vx v) hi = true) /\
  (fle lo (vy v) = true /\ fle (vy v) hi = true) /\
  (fle lo (vz v) = true /\ fle (vz v) hi = true).

Module SimExamples.
Local Existing Instance geomtype_012.

Definition v3 (a b c : float) : vec3 := mkvec3 a b c.
Definition origin3 : vec3 := v3 zero zero zero.

(** A scene with one solid wall met at the point (3/2, 2, 1) of the
    grid with the unit normal (-1, 0, 0); no point is inside a solid;
    gravity is the only external force. *)
Definition wall : Scene := {|
  IntersectSolidGeoms := fun _ =>
    mkIntersection true (v3 (lit 3 2) (Z2F 2) one) (v3 (fneg one) zero zero);
  CheckPointInsideSolidGeom := fun _ _ => false;
  GetExternalForces := [v3 zero (fneg (lit 98 10)) zero];
  ProjectPointsToSurface := fun ps _ => ps
|}.

(** A velocity field that is zero everywhere. *)
Definition still (p : vec3) (m : MacGrid) (h : heap) : vec3 := origin3.

Definition fluid_at (p pt ut : vec3) : Particle :=
  mkParticle p origin3 origin3 origin3 pt ut one one FLUID false false.
Definition solid_at (p n : vec3) : Particle :=
  mkParticle p origin3 n origin3 origin3 origin3 one one SOLID false false.

(** A 4×4×4 simulation, density 1/2, step 1/30, holding [ps]. *)
Definition sim4 (ps : list Particle) : FlipSim :=
  mkFlipSim (vec3i 4 4 4) ps (lit 1 2) (lit 1 30) 1
            (mkMacGrid 1%positive 4%positive 5%positive 6%positive) ∅
            (mkHeap ∅ ∅).

(** A fluid particle that moved from (1/4,1/4,1/4) to (1/2,3/4,1/4)
    with the stored previous velocity (3,0,0). *)
Definition mover : Particle :=
  fluid_at (v3 (lit 1 2) (lit 3 4) (lit 1 4))
           (v3 (lit 1 4) (lit 1 4) (lit 1 4)) (v3 (Z2F 3) zero zero).

(** [mover] with a stored previous velocity whose squared length
    overflows, (2^64,0,0), and with one whose squared length underflows,
    (2^-100,0,0). *)
Definition hasty : Particle :=
  fluid_at (v3 (lit 1 2) (lit 3 4) (lit 1 4))
           (v3 (lit 1 4) (lit 1 4) (lit 1 4)) (v3 (Z2F (2 ^ 64)) zero zero).
Definition crawler : Particle :=
  fluid_at (v3 (lit 1 2) (lit 3 4) (lit 1 4))
           (v3 (lit 1 4) (lit 1 4) (lit 1 4))
           (v3 (lit 1 (2 ^ 100)) zero zero).

(** A fluid particle that did not move. *)
Definition sitter : Particle :=
  fluid_at (v3 (lit 1 2) (lit 1 2) (lit 1 2))
           (v3 (lit 1 2) (lit 1 2) (lit 1 2)) (v3 one zero zero).

(** A fluid particle on the wall x = 1/4 and a solid particle 1/16
    further in, whose normal points out of the domain. *)
Definition near_wall : Particle :=
  fluid_at (v3 (lit 1 4) (lit 1 2) (lit 1 2)) origin3 origin3.
Definition pusher : Particle :=
  solid_at (v3 (lit 5 16) (lit 1 2) (lit 1 2)) (v3 (fneg one) zero zero).
(** A solid particle far from [near_wall]. *)
Definition far_solid : Particle :=
  solid_at (v3 (lit 3 4) (lit 1 2) (lit 1 2)) (v3 (fneg one) zero zero).

(** [far_solid] moving at 2^30 along y. *)
Definition fast_solid : Particle :=
  set_u (v3 zero (Z2F (2 ^ 30)) zero) far_solid.

(** The scene [wall] with a second external force, the opposite of
    gravity. *)
Definition tug : Scene := {|
  IntersectSolidGeoms := fun _ =>
    mkIntersection true (v3 (lit 3 2) (Z2F 2) one) (v3 (fneg one) zero zero);
  CheckPointInsideSolidGeom := fun _ _ => false;
  GetExternalForces := [v3 zero (fneg (lit 98 10)) zero;
                        v3 zero (lit 98 10) zero];
  ProjectPointsToSurface := fun ps _ => ps
|}.

(** A 3×1×1 grid whose cells are FLUID, SOLID, SOLID; the x faces 0, 1
    and 2 hold 5, 3 and 7. *)
Definition solid_run : FlipSim :=
  mkFlipSim (vec3i 3 1 1) [] one one 1
    (mkMacGrid 1%positive 4%positive 5%positive 6%positive) ∅
    (mkHeap
       (<[4%positive :=
           mkGrid zero (<[(1, 0, 0) := Z2F 3]>
                       (<[(0, 0, 0) := Z2F 5]>
                       (<[(2, 0, 0) := Z2F 7]> ∅)))]>
        (<[5%positive := mkGrid zero ∅]>
        (<[6%positive := mkGrid zero ∅]> ∅)))
       (<[1%positive :=
           mkGrid AIR (<[(0, 0, 0) := FLUID]>
                      (<[(1, 0, 0) := SOLID]>
                      (<[(2, 0, 0) := SOLID]> ∅)))]> ∅)).
End SimExamples.

(** ** The other passes of [flip.cpp] *)

Definition set_ut (q : vec3) (p : Particle) : Particle :=
  mkParticle (m_p p) (m_u p) (m_n p) (m_t p) (m_pt p) q (m_mass p)
             (m_density_p p) (m_type p) (m_temp p) (m_temp2 p).
Definition set_density (d : float) (p : Particle) : Particle :=
  mkParticle (m_p p) (m_u p) (m_n p) (m_t p) (m_pt p) (m_ut p) (m_mass p)
             d (m_type p) (m_temp p) (m_temp2 p).

(** [StoreTempParticleVelocities]: [m_pt = m_p; m_ut = m_u] for every
    particle. *)
Definition StoreTempParticleVelocities (sim : FlipSim) : FlipSim :=
  let particlecount := length (m_particles sim) in
  with_particles
    (for_n particlecount (fun p ps =>
       alter (fun q => set_ut (m_u q) (set_pt (m_p q) q)) p ps)
       (m_particles sim))
    sim.

(** The cell-centred fields of the MAC grid of [flip.cpp] (pressure,
    divergence, liquid level set), which the record [MacGrid] above
    leaves out, and the members of [FlipSim] that the passes below use
    beside those of the record [FlipSim]. *)
Record MacGridCells := mkMacGridCells { m_P : loc; m_D : loc; m_L : loc }.

Record FlipSimRest := mkFlipSimRest {
  m_mgrid_cells : MacGridCells;   (* m_mgrid.m_P, m_mgrid.m_D, m_mgrid.m_L *)
  m_mgrid_previous : MacGrid;
  m_max_density : float;
  m_subcell : Z
}.

(** [StorePreviousGrid]: the three face fields of [m_mgrid] are copied
    into [m_mgrid_previous], each over its own range of faces. The loop
    bounds [x+1], [y+1], [z+1] are [unsigned int] sums. *)
Definition StorePreviousGrid (sim : FlipSim) (rest : FlipSimRest) : FlipSim :=
  let x := F2U (vx (m_dimensions sim)) in
  let y := F2U (vy (m_dimensions sim)) in
  let z := F2U (vz (m_dimensions sim)) in
  let cur := m_mgrid sim in
  let prev := m_mgrid_previous rest in
  let h := grids sim in
  (* for every x face *)
  let h :=
    for_gn (wrap32 (x + 1)) (fun i h =>
    for_gn y (fun j h =>
    for_gn z (fun k h =>
      fset h (m_u_x prev) i j k (fget h (m_u_x cur) i j k)) h) h) h in
  (* for every y face *)
  let h :=
    for_gn x (fun i h =>
    for_gn (wrap32 (y + 1)) (fun j h =>
    for_gn z (fun k h =>
      fset h (m_u_y prev) i j k (fget h (m_u_y cur) i j k)) h) h) h in
  (* for every z face *)
  let h :=
    for_gn x (fun i h =>
    for_gn y (fun j h =>
    for_gn (wrap32 (z + 1)) (fun k h =>
      fset h (m_u_z prev) i j k (fget h (m_u_z cur) i j k)) h) h) h in
  with_grids h sim.

(** [SubtractPreviousGrid]: [m_mgrid_previous] becomes the difference
    between [m_mgrid] and what [m_mgrid_previous] held. *)
Definition SubtractPreviousGrid (sim : FlipSim) (rest : FlipSimRest)
    : FlipSim :=
  let x := F2U (vx (m_dimensions sim)) in
  let y := F2U (vy (m_dimensions sim)) in
  let z := F2U (vz (m_dimensions sim)) in
  let cur := m_mgrid sim in
  let prev := m_mgrid_previous rest in
  let h := grids sim in
  (* for every x face *)
  let h :=
    for_gn (wrap32 (x + 1)) (fun i h =>
    for_gn y (fun j h =>
    for_gn z (fun k h =>
      let subx := fsub (fget h (m_u_x cur) i j k)
                       (fget h (m_u_x prev) i j k) in
      fset h (m_u_x prev) i j k subx) h) h) h in
  (* for every y face *)
  let h :=
    for_gn x (fun i h =>
    for_gn (wrap32 (y + 1)) (fun j h =>
    for_gn z (fun k h =>
      let suby := fsub (fget h (m_u_y cur) i j k)
                       (fget h (m_u_y prev) i j k) in
      fset h (m_u_y prev) i j k suby) h) h) h in
  (* for every z face *)
  let h :=
    for_gn x (fun i h =>
    for_gn y (fun j h =>
    for_gn (wrap32 (z + 1)) (fun k h =>
      let subz := fsub (fget h (m_u_z cur) i j k)
                       (fget h (m_u_z prev) i j k) in
      fset h (m_u_z prev) i j k subz) h) h) h in
  with_grids h sim.

(** The first loop of [Project]: the divergence of every cell,
    [(ux(i+1) - ux(i) + uy(j+1) - uy(j) + uz(k+1) - uz(k)) / h], summed
    left to right, is stored in [m_D]. The calls that follow it in
    [Project] ([BuildSDF], [Solve] with three arguments) are not among
    the files at hand. *)
Definition Project_divergence (sim : FlipSim) (rest : FlipSimRest)
    : FlipSim :=
  let x := F2U (vx (m_dimensions sim)) in
  let y := F2U (vy (m_dimensions sim)) in
  let z := F2U (vz (m_dimensions sim)) in
  let maxd := maxd_of (m_dimensions sim) in
  let h := fdiv one maxd in (* cell width *)
  let g := m_mgrid sim in
  with_grids
    (for_gn x (fun i s =>
     for_gn y (fun j s =>
     for_gn z (fun k s =>
       let divergence :=
         fdiv (fsub (fadd (fsub (fadd (fsub
                (fget s (m_u_x g) (wrap32 (i + 1)) j k)
                (fget s (m_u_x g) i j k))
                (fget s (m_u_y g) i (wrap32 (j + 1)) k))
                (fget s (m_u_y g) i j k))
                (fget s (m_u_z g) i j (wrap32 (k + 1))))
                (fget s (m_u_z g) i j k)) h in
       fset s (m_D (m_mgrid_cells rest)) i j k divergence) s) s) (grids sim))
    sim.

(** [glm::min(1.0e-3f, L)]. *)
Definition eps3 : float := lit 1 1000.

(** The update of one face in [SubtractPressureGradient]: the face
    (i,j,k) of the field [u] lies between the cell (i,j,k) in front of it
    and the cell (bi,bj,bk) behind it. The source writes this block three
    times, for the x, y and z faces. [SubtractPressureGradient_value] is
    the value of [xval] ([yval], [zval]) that is stored. *)
Definition SubtractPressureGradient_value (cells : MacGridCells) (subcell : Z)
    (h : float) (u : loc) (i j k bi bj bk : Z) (s : heap) : float :=
  let P := m_P cells in
  let L := m_L cells in
  let pf := fget s P i j k in
  let pb := fget s P bi bj bk in
  let '(pf, pb) :=
    if negb (subcell =? 0)
       && flt (fmul (fget s L i j k) (fget s L bi bj bk)) zero
    then
      let pf :=
        if flt (fget s L i j k) zero then fget s P i j k
        else fmul (fdiv (fget s L i j k) (fmin eps3 (fget s L bi bj bk)))
                  (fget s P bi bj bk) in
      let pb :=
        if flt (fget s L bi bj bk) zero then fget s P bi bj bk
        else fmul (fdiv (fget s L bi bj bk) (fmin eps6 (fget s L i j k)))
                  (fget s P i j k) in
      (pf, pb)
    else (pf, pb) in
  let xval := fget s u i j k in
  let xval := fsub xval (fdiv (fsub pf pb) h) in
  xval.

Definition SubtractPressureGradient_face (cells : MacGridCells) (subcell : Z)
    (h : float) (u : loc) (i j k bi bj bk : Z) (s : heap) : heap :=
  fset s u i j k
       (SubtractPressureGradient_value cells subcell h u i j k bi bj bk s).

Definition SubtractPressureGradient (sim : FlipSim) (rest : FlipSimRest)
    : FlipSim :=
  let x := F2U (vx (m_dimensions sim)) in
  let y := F2U (vy (m_dimensions sim)) in
  let z := F2U (vz (m_dimensions sim)) in
  let maxd := maxd_of (m_dimensions sim) in
  let h := fdiv one maxd in (* cell width *)
  let g := m_mgrid sim in
  let cells := m_mgrid_cells rest in
  let s := grids sim in
  (* for every x face *)
  let s :=
    for_gn (wrap32 (x + 1)) (fun i s =>
    for_gn y (fun j s =>
    for_gn z (fun k s =>
      if (0 <? i) && (i <? x) then
        SubtractPressureGradient_face cells (m_subcell rest) h (m_u_x g)
          i j k (wrap32 (i - 1)) j k s
      else s) s) s) s in
  (* for every y face *)
  let s :=
    for_gn x (fun i s =>
    for_gn (wrap32 (y + 1)) (fun j s =>
    for_gn z (fun k s =>
      if (0 <? j) && (j <? y) then
        SubtractPressureGradient_face cells (m_subcell rest) h (m_u_y g)
          i j k i (wrap32 (j - 1)) k s
      else s) s) s) s in
  (* for every z face *)
  let s :=
    for_gn x (fun i s =>
    for_gn y (fun j s =>
    for_gn (wrap32 (z + 1)) (fun k s =>
      if (0 <? k) && (k <? z) then
        SubtractPressureGradient_face cells (m_subcell rest) h (m_u_z g)
          i j k i j (wrap32 (k - 1)) s
      else s) s) s) s in
  with_grids s sim.

Section Density.
Context {G : geomtype}.

(** [mathCore::Sqrlength] and [mathCore::Smooth] come from the kernels,
    which are not among the files at hand; they are parameters of
    [ComputeDensity]. *)
Variable Sqrlength : vec3 -> vec3 -> float.
Variable Smooth : float -> float -> float.

(** [(int)glm::max(0.0f, glm::min((int)maxd-1.0f, (int)maxd*v))], stored
    back into a [float]. *)
Definition ComputeDensity_cell (maxd v : float) : float :=
  Z2F (F2Z (fmax zero (fmin (fsub (Z2F (F2Z maxd)) one)
                            (fmul (Z2F (F2Z maxd)) v)))).

(** One round of the loop of [ComputeDensity]. The neighbours are
    handles into [m_particles]. *)
Definition ComputeDensity_body (sim : FlipSim) (rest : FlipSimRest)
    (maxd : float) (i : nat) (ps : list Particle) : list Particle :=
  match ps !! i with
  | Some p =>
      if m_type p =? SOLID then alter (set_density one) i ps
      else
        let position := m_p p in
        let position :=
          mkvec3 (ComputeDensity_cell maxd (vx position))
                 (ComputeDensity_cell maxd (vy position))
                 (ComputeDensity_cell maxd (vz position)) in
        let neighbors :=
          GetCellNeighbors (m_pgrid sim) position (vsplat one) in
        let weightsum := zero in
        let neighborscount := length neighbors in
        let weightsum :=
          for_n neighborscount (fun m weightsum =>
            match neighbors !! m with
            | Some n =>
                match ps !! n with
                | Some np =>
                    let sqd := Sqrlength (m_p np) (m_p p) in
                    let weight :=
                      fmul (m_mass np)
                           (Smooth sqd (fdiv (fmul (Z2F 4) (m_density sim))
                                             maxd)) in
                    fadd weightsum weight
                | None => weightsum
                end
            | None => weightsum
            end) weightsum in
        alter (set_density (fdiv weightsum (m_max_density rest))) i ps
  | None => ps
  end.

Definition ComputeDensity (sim : FlipSim) (rest : FlipSimRest) : FlipSim :=
  let maxd := maxd_of (m_dimensions sim) in
  let particlecount := length (m_particles sim) in
  with_particles
    (for_n particlecount (ComputeDensity_body sim rest maxd)
           (m_particles sim))
    sim.

End Density.

(** ** Predicates used in the statements *)

(** A float that is a number: a zero or a finite nonzero value. *)
Definition is_number (v : float) : Prop :=
  match v with
  | S754_zero _ | S754_finite _ _ _ => True
  | _ => False
  end.

(** A float that is a zero of either sign. *)
Definition is_zero (v : float) : Prop :=
  match v with S754_zero _ => True | _ => False end.

(** The faces that the loops over the field [n] (0 for x, 1 for y, 2 for
    z) visit on a grid of x × y × z cells: one more than the cells along
    the axis [n], the bound being an [unsigned int] sum. *)
Definition is_face (x y z n i j k : Z) : Prop :=
  0 <= i < sel3 (wrap32 (x + 1)) x x n /\
  0 <= j < sel3 y (wrap32 (y + 1)) y n /\
  0 <= k < sel3 z z (wrap32 (z + 1)) n.

(** A loop that visits the cells [cs], and at each cell either writes
    the grid [t] there or does nothing. *)
Definition cellwise (t : loc) (val : coord -> heap -> option float)
    (cs : list coord) (h : heap) : heap :=
  fold_left (fun s c =>
    match val c s with
    | Some v => fset s t c.1.1 c.1.2 c.2 v
    | None => s
    end) cs h.

(** The three loops over the faces, in the order x, y, z, as
    [StorePreviousGrid], [SubtractPreviousGrid] and
    [SubtractPressureGradient] run them; [F n i j k] is the body of the
    loop over the faces of the field [n]. *)
Definition face_loops {S} (x y z : Z) (F : Z -> Z -> Z -> Z -> S -> S)
    (s : S) : S :=
  let s :=
    for_gn (wrap32 (x + 1)) (fun i s =>
    for_gn y (fun j s =>
    for_gn z (fun k s => F 0 i j k s) s) s) s in
  let s :=
    for_gn x (fun i s =>
    for_gn (wrap32 (y + 1)) (fun j s =>
    for_gn z (fun k s => F 1 i j k s) s) s) s in
  for_gn x (fun i s =>
  for_gn y (fun j s =>
  for_gn (wrap32 (z + 1)) (fun k s => F 2 i j k s) s) s) s.

(** [same_outside ts h h']: the int grids are the same in [h'] as in
    [h], and so is every float grid whose address is not in [ts]. *)
Definition same_outside (ts : list loc) (h h' : heap) : Prop :=
  intgrids h' = intgrids h /\
  forall l, l ∉ ts -> floatgrids h' !! l = floatgrids h !! l.

(** The faces of the field [n] on the grid of the simulation, whose
    dimensions every pass reads as [(unsigned int)m_dimensions.x] and so
    on. *)
Definition sim_face (sim : FlipSim) (n i j k : Z) : Prop :=
  is_face (F2U (vx (m_dimensions sim))) (F2U (vy (m_dimensions sim)))
          (F2U (vz (m_dimensions sim))) n i j k.

(** The six face fields of the current and of the previous MAC grid. *)
Definition face_fields (sim : FlipSim) (rest : FlipSimRest) : list loc :=
  [m_u_x (m_mgrid_previous rest); m_u_y (m_mgrid_previous rest);
   m_u_z (m_mgrid_previous rest);
   m_u_x (m_mgrid sim); m_u_y (m_mgrid sim); m_u_z (m_mgrid sim)].

Module GridExamples.
Local Existing Instance geomtype_012.

(** The cell-centred fields at the addresses L=1, P=2, D=3 and the face
    fields of the previous grid at 7, 8, 9; sub-cell on. *)
Definition rest789 : FlipSimRest :=
  mkFlipSimRest (mkMacGridCells 2%positive 3%positive 1%positive)
                (mkMacGrid 1%positive 7%positive 8%positive 9%positive)
                one 1.

(** A 4×1×1 simulation with the face fields at 4, 5, 6. The x faces 0,
    1, 2 hold 1, 2, 2; the y and z faces hold 4 and 5; the pressure is 7
    in the cell (0,0,0) and 9 in the other cells; the level set is -1 in
    every cell; the previous grid holds 1 on every face. *)
Definition flow : FlipSim :=
  mkFlipSim (vec3i 4 1 1) [] one one 1
    (mkMacGrid 1%positive 4%positive 5%positive 6%positive) ∅
    (mkHeap
       (<[1%positive := mkGrid (fneg one) ∅]>
        (<[2%positive :=
            mkGrid (Z2F 9) (<[(0, 0, 0) := Z2F 7]> ∅)]>
        (<[3%positive := mkGrid zero ∅]>
        (<[4%positive :=
            mkGrid zero (<[(0, 0, 0) := one]>
                        (<[(1, 0, 0) := Z2F 2]>
                        (<[(2, 0, 0) := Z2F 2]> ∅)))]>
        (<[5%positive := mkGrid (Z2F 4) ∅]>
        (<[6%positive := mkGrid (Z2F 5) ∅]>
        (<[7%positive := mkGrid one ∅]>
        (<[8%positive := mkGrid one ∅]>
        (<[9%positive := mkGrid one ∅]> ∅)))))))))
       (<[1%positive := mkGrid FLUID ∅]> ∅)).
End GridExamples.

(** The divergence that [Project] computes for the cell (i,j,k) from
    the face velocities held in the store [s], for the cell width [h]. *)
Definition cell_divergence (s : heap) (g : MacGrid) (h : float)
    (i j k : Z) : float :=
  fdiv (fsub (fadd (fsub (fadd (fsub
         (fget s (m_u_x g) (i + 1) j k)
         (fget s (m_u_x g) i j k))
         (fget s (m_u_y g) i (j + 1) k))
         (fget s (m_u_y g) i j k))
         (fget s (m_u_z g) i j (k + 1)))
         (fget s (m_u_z g) i j k)) h.

(** A cell width that can be divided by: neither a zero nor a NaN. *)
Definition usable_width (h : float) : Prop :=
  match h with
  | S754_finite _ _ _ | S754_infinity _ => True
  | _ => False
  end.

(** The cells of the grid of the simulation. *)
Definition sim_cell (sim : FlipSim) (i j k : Z) : Prop :=
  0 <= i < F2U (vx (m_dimensions sim)) /\
  0 <= j < F2U (vy (m_dimensions sim)) /\
  0 <= k < F2U (vz (m_dimensions sim)).

(** The cell behind the face (i,j,k) of the field [n]. *)
Definition cell_behind (n i j k : Z) : coord :=
  sel3 (i - 1, j, k) (i, j - 1, k) (i, j, k - 1) n.

(** The faces of the field [n] that lie strictly inside the grid: the
    index along the axis [n] is neither 0 nor the dimension. *)
Definition interior_face (sim : FlipSim) (n i j k : Z) : Prop :=
  sim_face sim n i j k /\
  0 < sel3 i j k n
    < sel3 (F2U (vx (m_dimensions sim))) (F2U (vy (m_dimensions sim)))
           (F2U (vz (m_dimensions sim))) n.

(** The cells of the domain of the solver, [0,x) × [0,y) × [0,z). *)
Definition in_domain (x y z i j k : Z) : Prop :=
  0 <= i < x /\ 0 <= j < y /\ 0 <= k < z.

(** The value that [computeAx] computes for the FLUID cell (i,j,k) from
    the store [h]: the 7-point stencil applied to [X]. *)
Definition Ax_at {G : geomtype} (h : heap) (A L X : loc) (dimensions : vec3)
    (subcell : Z) (i j k : Z) : float :=
  let '(x, y, z) := dims_int dimensions in
  let n := Z2F (Z.max (Z.max x y) z) in
  let hh := fdiv one (fmul n n) in
  let c := vec3i i j k in
  let xr p := xRef h A L X c p dimensions subcell in
  fdiv (fsub (fsub (fsub (fsub (fsub (fsub
         (fmul (Z2F 6) (fget h X i j k))
         (xr (vec3i (i + 1) j k)))
         (xr (vec3i (i - 1) j k)))
         (xr (vec3i i (j + 1) k)))
         (xr (vec3i i (j - 1) k)))
         (xr (vec3i i j (k + 1))))
         (xr (vec3i i j (k - 1)))) hh.

Module SolverExamples.
Local Existing Instance geomtype_012.

(** The all-FLUID 2³ box whose grid at address 3 holds 1 in the cell
    (0,0,0) and 0 elsewhere, with one more grid of zeros at address 7. *)
Definition bump : heap :=
  Examples.with_pc
    (mkHeap (<[3%positive := mkGrid zero (<[(0, 0, 0) := one]> ∅)]>
               (floatgrids (Examples.uniform_store 2 FLUID zero)))
            (intgrids (Examples.uniform_store 2 FLUID zero))).
End SolverExamples.

(** A cell that is in the domain and marked FLUID. *)
Definition fluid_cell {G : geomtype} (h : heap) (A : loc) (x y z i j k : Z)
    : Prop :=
  outside x y z i j k = false /\ iget h A i j k = FLUID.

(** The test of [ADiag] for a neighbour that takes 1 off the diagonal:
    outside the domain, or SOLID. *)
Definition is_wall {G : geomtype} (h : heap) (A : loc) (x y z : Z)
    (q : coord) : bool :=
  outside x y z q.1.1 q.1.2 q.2 || (iget h A q.1.1 q.1.2 q.2 =? SOLID).

(** The number of the six neighbours of (i,j,k) that are walls. *)
Definition wall_count {G : geomtype} (h : heap) (A : loc) (x y z i j k : Z)
    : Z :=
  fold_left (fun n q => n + b2z (is_wall h A x y z q)) (neighbours6 i j k) 0.

(** The face (i,j,k) of the field [n] touches, along its own axis, a
    cell of the domain that is not SOLID: the cell behind it (when the
    face is not the first one) or the cell in front of it (when the face
    is not the last one). *)
Definition open_face {G : geomtype} (ig : gmap loc (Grid Z)) (A : loc)
    (x y z n i j k : Z) : Prop :=
  (0 < sel3 i j k n /\
   getCell ig A (cell_behind n i j k).1.1 (cell_behind n i j k).1.2
           (cell_behind n i j k).2 <> SOLID)
  \/ (sel3 i j k n < sel3 x y z n /\ getCell ig A i j k <> SOLID).

(** What the loops that fill [mark] and [wallmark] maintain, for the
    markers [A] as the store [ig1] holds them: [A] is not written; a
    mark is set only where a FLUID cell of the domain exists; a wall
    mark is set only on a face that is not open. *)
Definition marks_inv {G : geomtype} (A : loc) (x y z : Z)
    (mark wallmark : Z -> loc) (ig1 s : gmap loc (Grid Z)) : Prop :=
  s !! A = ig1 !! A /\
  (forall n i j k, 0 <= n < 3 -> getCell s (mark n) i j k <> 0 ->
     exists a b c, in_domain x y z a b c /\ getCell ig1 A a b c = FLUID) /\
  (forall n i j k, 0 <= n < 3 -> getCell s (wallmark n) i j k <> 0 ->
     ~ open_face ig1 A x y z n i j k).

(** An index of less than 24 bits, which a [float] holds exactly. *)
Definition small_index (v : Z) : Prop := - 2 ^ 24 < v < 2 ^ 24.
(** * Properties *)

(** ** Laws of the store *)

Section StoreLaws.
Context {T : Type} `{Inhabited T}.
Implicit Types (h : gmap loc (Grid T)) (g : loc).

Lemma setCell_lookup_ne h g g' i j k (v : T) :
  g <> g' -> setCell h g i j k v !! g' = h !! g'.
Proof. intros Hne. unfold setCell. by rewrite lookup_alter_ne. Qed.

Lemma setCell_lookup_eq h g i j k (v : T) :
  setCell h g i j k v !! g = grid_set (i, j, k) v <$> h !! g.
Proof. unfold setCell. by rewrite lookup_alter_eq. Qed.

Lemma getCell_setCell_ne_loc h g g' i j k i' j' k' (v : T) :
  g <> g' -> getCell (setCell h g i j k v) g' i' j' k' = getCell h g' i' j' k'.
Proof. intros Hne. unfold getCell. by rewrite setCell_lookup_ne. Qed.

Lemma getCell_setCell_eq h g i j k (v : T) :
  is_Some (h !! g) -> getCell (setCell h g i j k v) g i j k = v.
Proof.
  intros [gr Hgr]. unfold getCell. rewrite setCell_lookup_eq, Hgr. simpl.
  unfold grid_get, grid_set. simpl. by rewrite lookup_insert_eq.
Qed.

Lemma getCell_setCell_ne_cell h g i j k i' j' k' (v : T) :
  (i, j, k) <> (i', j', k') ->
  getCell (setCell h g i j k v) g i' j' k' = getCell h g i' j' k'.
Proof.
  intros Hne. unfold getCell. rewrite setCell_lookup_eq.
  destruct (h !! g) as [gr|]; simpl; [|done].
  unfold grid_get, grid_set. simpl. by rewrite lookup_insert_ne.
Qed.

Lemma setCell_is_Some h g g' i j k (v : T) :
  is_Some (setCell h g i j k v !! g') <-> is_Some (h !! g').
Proof.
  destruct (decide (g = g')) as [->|Hne].
  - rewrite setCell_lookup_eq. apply fmap_is_Some.
  - by rewrite setCell_lookup_ne.
Qed.

Lemma new_grid_fresh (bg : T) h : h !! (new_grid bg h).1 = None.
Proof. simpl. apply not_elem_of_dom, is_fresh. Qed.

Lemma new_grid_lookup_old (bg : T) h g :
  is_Some (h !! g) -> (new_grid bg h).2 !! g = h !! g.
Proof.
  intros Hs. simpl. rewrite lookup_insert_ne; [done|].
  intros <-. pose proof (new_grid_fresh bg h) as Hf. simpl in Hf.
  rewrite Hf in Hs. by destruct Hs.
Qed.

End StoreLaws.

(** An invariant of a loop holds at its exit. *)
Lemma fold_left_inv {S B} (f : S -> B -> S) (I : S -> Prop) (l : list B) s :
  I s -> (forall s x, x ∈ l -> I s -> I (f s x)) -> I (fold_left f l s).
Proof.
  revert s. induction l as [|b l IH]; intros s Hs Hstep; simpl; [done|].
  apply IH.
  - apply Hstep; [left | done].
  - intros s' x Hx. apply Hstep. by right.
Qed.

Lemma for_gn_inv {S} (I : S -> Prop) n (body : Z -> S -> S) s :
  I s -> (forall gn s, 0 <= gn < n -> I s -> I (body gn s)) ->
  I (for_gn n body s).
Proof.
  intros Hs Hstep. unfold for_gn. apply fold_left_inv; [done|].
  intros s' gn Hgn. apply Hstep. apply elem_of_seqZ in Hgn. lia.
Qed.

(** ** What the passes of the solver leave alone *)

Lemma same_but_refl g h : same_but g h h.
Proof. by split. Qed.

Lemma same_but_trans g h1 h2 h3 :
  same_but g h1 h2 -> same_but g h2 h3 -> same_but g h1 h3.
Proof.
  intros [Hi1 Hf1] [Hi2 Hf2]. split; [congruence|].
  intros l Hl. rewrite Hf2, Hf1; done.
Qed.

Lemma fset_same_but g h i j k v : same_but g h (fset h g i j k v).
Proof.
  split; [done|]. intros l Hl. simpl. by apply setCell_lookup_ne.
Qed.

Lemma for_gn_same_but g n (body : Z -> heap -> heap) h :
  (forall gn h', same_but g h' (body gn h')) ->
  same_but g h (for_gn n body h).
Proof.
  intros Hbody. apply (for_gn_inv (same_but g h)); [apply same_but_refl|].
  intros gn h' _ Hh'. eapply same_but_trans; [exact Hh'|apply Hbody].
Qed.

Section SolverFrame.
Context {G : geomtype}.

Lemma flipGrid_same_but g dm h : same_but g h (flipGrid g dm h).
Proof.
  unfold flipGrid. destruct (dims_int dm) as [[x y] z].
  apply for_gn_same_but. intros gn h'.
  destruct (cell_of x y z gn) as [[i j] k]. apply fset_same_but.
Qed.

Lemma buildPreconditioner_body_same_but pc mgrid subcell x y z gn h :
  same_but pc h (buildPreconditioner_body pc mgrid subcell x y z gn h).
Proof.
  unfold buildPreconditioner_body.
  destruct (cell_of x y z gn) as [[i j] k].
  repeat case_match; first [apply fset_same_but | apply same_but_refl].
Qed.

Lemma buildPreconditioner_same_but pc mgrid subcell h :
  same_but pc h (buildPreconditioner pc mgrid subcell h).
Proof.
  unfold buildPreconditioner. destruct (dims_int (dimensions mgrid)) as [[x y] z].
  apply for_gn_same_but. intros gn h'.
  apply buildPreconditioner_body_same_but.
Qed.

Lemma op_same_but A0 X Y target alpha dm h :
  same_but target h (op A0 X Y target alpha dm h).
Proof.
  unfold op. destruct (dims_int dm) as [[x y] z].
  apply for_gn_same_but. intros gn h'.
  destruct (cell_of x y z gn) as [[i j] k].
  case_match; apply fset_same_but.
Qed.

Lemma computeAx_same_but A0 L0 X target dm subcell h :
  same_but target h (computeAx A0 L0 X target dm subcell h).
Proof.
  unfold computeAx. destruct (dims_int dm) as [[x y] z].
  apply for_gn_same_but. intros gn h'.
  destruct (cell_of x y z gn) as [[i j] k].
  case_match; apply fset_same_but.
Qed.

Lemma kept_trans h1 h2 h3 : kept h1 h2 -> kept h2 h3 -> kept h1 h3.
Proof.
  intros [Hi1 Hf1] [Hi2 Hf2]. split; [congruence|].
  intros l Hl. rewrite Hf2, Hf1; [done..|]. by rewrite Hf1.
Qed.

Lemma new_floatgrid_kept bg h : kept h (new_floatgrid bg h).2.
Proof.
  split; [done|]. intros l Hl. by apply (new_grid_lookup_old bg).
Qed.

Lemma new_floatgrid_fresh bg h :
  floatgrids h !! (new_floatgrid bg h).1 = None.
Proof. apply (new_grid_fresh bg). Qed.

(** Writing a grid that [h] does not hold keeps every grid of [h]. *)
Lemma same_but_kept g h0 h h' :
  floatgrids h0 !! g = None -> kept h0 h -> same_but g h h' -> kept h0 h'.
Proof.
  intros Hg [Hi Hf] [Hi' Hf']. split; [congruence|].
  intros l Hl. rewrite Hf', Hf; [done..|].
  intros ->. rewrite Hg in Hl. by destruct Hl.
Qed.

Lemma solveConjugateGradient_kept mgrid pc subcell h :
  kept h (solveConjugateGradient mgrid pc subcell h).2.
Proof.
  unfold solveConjugateGradient.
  pose proof (new_floatgrid_kept zero h) as K1.
  pose proof (new_floatgrid_fresh zero h) as F1.
  destruct (new_floatgrid zero h) as [r h1]. simpl in K1, F1.
  pose proof (new_floatgrid_kept zero h1) as K2.
  pose proof (new_floatgrid_fresh zero h1) as F2.
  destruct (new_floatgrid zero h1) as [z h2]. simpl in K2, F2.
  pose proof (new_floatgrid_kept zero h2) as K3.
  destruct (new_floatgrid zero h2) as [s h3]. simpl in K3. simpl.
  assert (K : kept h h3) by (eapply kept_trans; [|exact K3]; eapply kept_trans; eauto).
  assert (Fz : floatgrids h !! z = None).
  { destruct (floatgrids h !! z) eqn:E; [|done].
    destruct K1 as [_ K1]. rewrite <- K1 in E by (rewrite E; eauto).
    congruence. }
  eapply (same_but_kept r); [exact F1| |apply op_same_but].
  eapply (same_but_kept z); [exact Fz|exact K|apply computeAx_same_but].
Qed.

End SolverFrame.

(** ** The solver: frame of [solve] *)

Section SolveFrame.
Context {G : geomtype}.

End SolveFrame.



(** C1. On the uniform FLUID 8³ box with right-hand side b = 1 and zero
    initial pressure, [solve] returns with the pressure still zero in every
    cell; the residual r = b − A·P that the routine computes has ∞-norm 1,
    which is not below the tolerance 1e-4. *)
Theorem solve_fluid8_pressure_unsolved :
  let G := geomtype_012 in
  let m := Examples.mg 8 8 8 in
  let '((r, _, _), h') := solve_trace m 1 Examples.fluid8 in
  forallb (fun '(i, j, k) => feq (fget h' (D m) i j k) one) (box 8 8 8) = true
  /\ floatgrids h' !! P m = Some (mkGrid zero ∅)
  /\ inf_norm h' (A m) r 8 8 8 = one
  /\ flt one (lit 1 10000) = false.
Proof. vm_compute. repeat split; reflexivity. Qed.

(** C2. On a 2×1×1 grid [flipGrid] negates the cell (0,0,0), never
    reaches the cell (1,0,0), whose value stays 1, and negates the cell
    (0,1,0) outside the grid instead. *)
Theorem flipGrid_2x1x1_misses_cell :
  let h' := flipGrid 3%positive (vec3i 2 1 1) Examples.flip211 in
  dims_int (vec3i 2 1 1) = (2, 1, 1)
  /\ fget Examples.flip211 3%positive 1 0 0 = one
  /\ fget h' 3%positive 1 0 0 = one
  /\ fget h' 3%positive 0 0 0 = fneg (Z2F 5)
  /\ fget h' 3%positive 0 1 0 = fneg zero.
Proof. vm_compute. repeat split; reflexivity. Qed.

(** C5. [PRef] never looks at the marker grid: on a FLUID cell whose
    stored value is 1/2 it returns 0, and on an AIR cell whose stored value
    happens to equal the enumerator FLUID it returns that value. *)
Theorem PRef_ignores_marker :
  let G := geomtype_012 in
  let h := Examples.pref_store in
  let dm := vec3i 2 1 1 in
  iget h 1%positive 0 0 0 = FLUID
  /\ fget h 7%positive 0 0 0 = lit 1 2
  /\ PRef h 7%positive 0 0 0 dm = zero
  /\ iget h 1%positive 1 0 0 = AIR
  /\ PRef h 7%positive 1 0 0 dm = one.
Proof. vm_compute. repeat split; reflexivity. Qed.


(** ** The preconditioner *)

(** C4, counterexample. A FLUID cell enclosed by SOLID cells has the
    matrix diagonal 0; the guard [diag>0] of [buildPreconditioner] skips
    it and its preconditioner value stays 0, which is not strictly
    positive. *)
Lemma buildPreconditioner_pocket_stays_zero :
  let G := geomtype_012 in
  let m := Examples.mg 3 3 3 in
  let h := Examples.pocket in
  let h' := buildPreconditioner 7%positive m 0 h in
  floatgrids h !! 7%positive = Some (mkGrid zero ∅)
  /\ iget h (A m) 1 1 1 = FLUID
  /\ ADiag h (A m) (L m) 1 1 1 (dimensions m) 0 = zero
  /\ fget h' 7%positive 1 1 1 = zero
  /\ flt zero (fget h' 7%positive 1 1 1) = false.
Proof. vm_compute. repeat split; reflexivity. Qed.

(** With the ghost-fluid term on, a level set that is almost zero in a
    FLUID cell next to AIR makes the diagonal overflow to +∞, and the
    stored value 1/sqrt(+∞) is 0. *)
Lemma buildPreconditioner_ghost_overflow :
  let G := geomtype_012 in
  let m := Examples.mg 2 1 2 in
  let h := Examples.thin_film in
  let h' := buildPreconditioner 7%positive m 1 h in
  iget h (A m) 0 0 0 = FLUID
  /\ ADiag h (A m) (L m) 0 0 0 (dimensions m) 1 = S754_infinity false
  /\ fget h' 7%positive 0 0 0 = zero.
Proof. vm_compute. repeat split; reflexivity. Qed.

(** On a grid with X ≠ Z the loop of [buildPreconditioner] does not
    reach every cell (the index split of [flipGrid] is shared by every
    loop of the solver): on the 2×1×1 grid of FLUID cells the cell
    (1,0,0) has the diagonal 1 and is never written. *)
Lemma buildPreconditioner_2x1x1_misses_cell :
  let G := geomtype_012 in
  let m := Examples.mg 2 1 1 in
  let h := Examples.all_fluid in
  let h' := buildPreconditioner 7%positive m 1 h in
  iget h (A m) 1 0 0 = FLUID
  /\ ADiag h (A m) (L m) 1 0 0 (dimensions m) 1 = one
  /\ fget h' 7%positive 1 0 0 = zero
  /\ fget h' 7%positive 0 0 0 = one.
Proof. vm_compute. repeat split; reflexivity. Qed.

Lemma for_gn_snoc {S} n (body : Z -> S -> S) s :
  0 <= n -> for_gn (n + 1) body s = body n (for_gn n body s).
Proof.
  intros Hn. unfold for_gn. rewrite seqZ_app by lia.
  rewrite fold_left_app. 
  replace (seqZ (0 + n) 1) with [n]; [done|].
  rewrite Z.add_0_l. symmetry. apply (seqZ_cons n 1). lia.
Qed.
Lemma for_gn_ind {S} (I : Z -> S -> Prop) n (body : Z -> S -> S) s :
  0 <= n -> I 0 s ->
  (forall gn s, 0 <= gn < n -> I gn s -> I (gn + 1) (body gn s)) ->
  I n (for_gn n body s).
Proof.
  intros Hn H0 Hstep.
  assert (Hall : forall m, 0 <= m -> m <= n -> I m (for_gn m body s)).
  { intros m Hm. pattern m. apply natlike_ind; [| |exact Hm].
    - intros _. exact H0.
    - intros m' Hm' IH Hle. unfold Z.succ. rewrite for_gn_snoc by lia.
      apply Hstep; [lia|]. apply IH. lia. }
  apply Hall; lia.
Qed.

(** A finite float is equal, for [==], only to itself. *)
Lemma feq_finite_eq v F s m e :
  v = S754_finite s m e -> feq v F = true -> F = v.
Proof.
  intros ->. unfold feq, SFeqb.
  destruct F as [s'|s'| |s' m' e']; cbn [SFcompare]; try discriminate.
  - destruct s; discriminate.
  - destruct s, s'; discriminate.
  - destruct s, s'; try discriminate;
      destruct (Z.compare_spec e e') as [->| |]; try discriminate;
      rewrite Pos.compare_cont_spec;
      destruct (Pos.compare_spec m m') as [->| |]; try discriminate;
      reflexivity.
Qed.

(** Rounding never lowers the exponent it is given. *)
Lemma shr_exp mrs e n : e <= (shr mrs e n).2.
Proof. destruct n; cbn; lia. Qed.

Lemma binary_round_aux_exp sx mx ex lx s m e :
  binary_round_aux prec emax sx mx ex lx = S754_finite s m e -> ex <= e.
Proof.
  unfold binary_round_aux, shr_fexp.
  match goal with |- context [shr ?r ex ?n] =>
    pose proof (shr_exp r ex n) as H1; destruct (shr r ex n) as [mrs' e'] end.
  match goal with |- context [shr ?r e' ?n] =>
    pose proof (shr_exp r e' n) as H2; destruct (shr r e' n) as [mrs'' e''] end.
  cbn [snd] in H1, H2.
  destruct (shr_m mrs''); try discriminate.
  destruct (Z.leb _ _); [|discriminate].
  intros [= _ _ <-]. lia.
Qed.

(** An integer converted to [float] is zero or has an exponent of at
    least -23: it is never a fraction below 1. *)
Lemma Z2F_exp n s m e : Z2F n = S754_finite s m e -> -23 <= e.
Proof.
  assert (Hr : forall sx p, binary_round prec emax sx p 0 = S754_finite s m e ->
                            -23 <= e).
  { intros sx p. unfold binary_round.
    destruct (shl_align p 0 _) as [mz ez] eqn:E. intros H.
    apply binary_round_aux_exp in H.
    unfold shl_align in E.
    pose proof (Pos2Z.is_pos (digits2_pos p)).
    destruct (fexp prec emax (Z.pos (digits2_pos p) + 0) - 0) eqn:D;
      injection E as <- <-; try lia.
    unfold fexp, SpecFloat.emin, prec, emax in *. lia. }
  unfold Z2F, binary_normalize. destruct n; [discriminate|apply Hr..].
Qed.

(** ** Rounding in binary32 *)

Lemma digits2_pos_iter p k :
  digits2_pos (Pos.iter xO p k) = (digits2_pos p + k)%positive.
Proof.
  induction k as [|k IH] using Pos.peano_ind.
  - cbn. lia.
  - rewrite Pos.iter_succ. cbn [digits2_pos]. rewrite IH. lia.
Qed.

Lemma iter_xO_value p k : Z.pos (Pos.iter xO p k) = Z.pos p * 2 ^ Z.pos k.
Proof.
  induction k as [|k IH] using Pos.peano_ind.
  - cbn [Pos.iter]. lia.
  - rewrite Pos.iter_succ, Pos2Z.inj_xO, IH, Pos2Z.inj_succ.
    rewrite Z.pow_succ_r by lia. lia.
Qed.

Lemma digits2_pos_lower p : 2 ^ (Z.pos (digits2_pos p) - 1) <= Z.pos p.
Proof.
  induction p as [p IH|p IH|]; cbn [digits2_pos]; [| |cbn; lia].
  - rewrite Pos2Z.inj_succ.
    replace (Z.succ (Z.pos (digits2_pos p)) - 1)
      with (Z.succ (Z.pos (digits2_pos p) - 1)) by lia.
    rewrite Z.pow_succ_r by lia. lia.
  - rewrite Pos2Z.inj_succ.
    replace (Z.succ (Z.pos (digits2_pos p)) - 1)
      with (Z.succ (Z.pos (digits2_pos p) - 1)) by lia.
    rewrite Z.pow_succ_r by lia. lia.
Qed.

Lemma digits2_pos_small p : Z.pos p < 2 ^ 24 -> Z.pos (digits2_pos p) <= 24.
Proof.
  intros Hp. pose proof (digits2_pos_lower p) as Hl.
  destruct (Z_le_gt_dec (Z.pos (digits2_pos p)) 24) as [|Hgt]; [done|].
  assert (2 ^ 24 <= 2 ^ (Z.pos (digits2_pos p) - 1))
    by (apply Z.pow_le_mono_r; lia).
  lia.
Qed.

Lemma digits2_pos_upper p : Z.pos p < 2 ^ Z.pos (digits2_pos p).
Proof.
  induction p as [p IH|p IH|]; cbn [digits2_pos]; [| |cbn; lia];
    rewrite Pos2Z.inj_succ, Z.pow_succ_r by lia; lia.
Qed.

(** The number of binary digits of a non-negative integer, by its bounds. *)
Lemma Zdigits2_bounds m :
  0 < m -> 2 ^ (Zdigits2 m - 1) <= m < 2 ^ Zdigits2 m /\ 0 < Zdigits2 m.
Proof.
  destruct m as [|p|p]; try lia. intros _. cbn [Zdigits2].
  split; [split; [apply digits2_pos_lower|apply digits2_pos_upper]|lia].
Qed.

Lemma Zdigits2_le m k : 0 <= m < 2 ^ k -> 0 <= k -> Zdigits2 m <= k.
Proof.
  intros [H0 Hm] Hk. destruct (Z.eq_dec m 0) as [->|]; [cbn; lia|].
  destruct (Zdigits2_bounds m) as [[Hl _] _]; [lia|].
  destruct (Z_le_gt_dec (Zdigits2 m) k); [done|].
  assert (2 ^ k <= 2 ^ (Zdigits2 m - 1)) by (apply Z.pow_le_mono_r; lia). lia.
Qed.

Lemma Zdigits2_ge m k : 2 ^ k <= m -> 0 <= k -> k + 1 <= Zdigits2 m.
Proof.
  intros Hm Hk. assert (0 < m) by (pose proof (Z.pow_pos_nonneg 2 k); lia).
  destruct (Zdigits2_bounds m) as [[_ Hu] ?]; [lia|].
  destruct (Z_le_gt_dec (k + 1) (Zdigits2 m)); [done|].
  assert (2 ^ Zdigits2 m <= 2 ^ k) by (apply Z.pow_le_mono_r; lia). lia.
Qed.

Lemma Zdigits2_nonneg m : 0 <= m -> 0 <= Zdigits2 m.
Proof. destruct m; cbn; lia. Qed.

(** One step of the right shift halves the mantissa. *)
Lemma shr_1_m mrs : 0 <= shr_m mrs -> shr_m (shr_1 mrs) = shr_m mrs / 2.
Proof.
  destruct mrs as [m r s]. cbn [shr_m]. intros Hm.
  destruct m as [|[p|p|]|p]; cbn [shr_1 shr_m]; try lia.
  - reflexivity.
  - apply (Z.div_unique_pos _ _ _ 1); lia.
  - apply (Z.div_unique_pos _ _ _ 0); lia.
  - reflexivity.
Qed.

Lemma iter_pos_shr_m p : forall mrs,
  0 <= shr_m mrs ->
  shr_m (SpecFloat.iter_pos shr_1 p mrs) = shr_m mrs / 2 ^ Z.pos p.
Proof.
  induction p as [p IH|p IH|]; intros mrs Hm; cbn [SpecFloat.iter_pos].
  - assert (H1 : 0 <= shr_m (shr_1 mrs))
      by (rewrite shr_1_m by done; apply Z.div_pos; lia).
    assert (H2 : 0 <= shr_m (SpecFloat.iter_pos shr_1 p (shr_1 mrs)))
      by (rewrite IH by done; apply Z.div_pos; [done|apply Z.pow_pos_nonneg; lia]).
    rewrite IH, IH, shr_1_m by done.
    assert (0 < 2 ^ Z.pos p) by (apply Z.pow_pos_nonneg; lia).
    rewrite !Z.div_div by lia.
    f_equal.
    replace (Z.pos p~1) with (1 + Z.pos p + Z.pos p) by lia.
    rewrite !Z.pow_add_r by lia. lia.
  - assert (H2 : 0 <= shr_m (SpecFloat.iter_pos shr_1 p mrs))
      by (rewrite IH by done; apply Z.div_pos; [done|apply Z.pow_pos_nonneg; lia]).
    rewrite IH, IH by done.
    assert (0 < 2 ^ Z.pos p) by (apply Z.pow_pos_nonneg; lia).
    rewrite !Z.div_div by lia.
    f_equal.
    replace (Z.pos p~0) with (Z.pos p + Z.pos p) by lia.
    rewrite !Z.pow_add_r by lia. lia.
  - rewrite shr_1_m by done. reflexivity.
Qed.

(** The mantissa after [shr]: the floor of the quotient by 2^n. *)
Lemma shr_spec mrs e n :
  0 <= shr_m mrs ->
  shr_m (shr mrs e n).1 = shr_m mrs / 2 ^ Z.max 0 n
  /\ (shr mrs e n).2 = e + Z.max 0 n.
Proof.
  intros Hm. destruct n as [|p|p]; cbn [shr fst snd].
  - rewrite Z.max_id. cbn. rewrite Z.div_1_r. lia.
  - rewrite iter_pos_shr_m by done. rewrite Z.max_r by lia. done.
  - rewrite Z.max_l by lia. cbn. rewrite Z.div_1_r. lia.
Qed.

Lemma shr_m_record_of_loc m l : shr_m (shr_record_of_loc m l) = m.
Proof. destruct l as [|[]]; reflexivity. Qed.

Lemma round_nearest_even_bounds m l :
  m <= round_nearest_even m l <= m + 1.
Proof.
  destruct l as [|[]]; cbn [round_nearest_even]; try lia.
  destruct (Z.even m); lia.
Qed.

Lemma fexp32 k : fexp prec emax k = Z.max (k - 24) (-149).
Proof. reflexivity. Qed.

(** [binary_round_aux] on a positive mantissa, as arithmetic: a first
    shift by [n1] digits, a rounding that adds at most one, and a second
    shift by [n2] digits. *)
Lemma binary_round_aux_spec s mz ez l :
  0 <= mz ->
  exists m1 : Z,
    let n1 := Z.max 0 (fexp prec emax (Zdigits2 mz + ez) - ez) in
    let e1 := ez + n1 in
    let n2 := Z.max 0 (fexp prec emax (Zdigits2 m1 + e1) - e1) in
    (mz / 2 ^ n1 <= m1 <= mz / 2 ^ n1 + 1)
    /\ (n1 = 0 -> l = loc_Exact -> m1 = mz)
    /\ binary_round_aux prec emax s mz ez l
       = match m1 / 2 ^ n2 with
         | 0 => S754_zero s
         | Z.pos m => if e1 + n2 <=? 104 then S754_finite s m (e1 + n2)
                      else S754_infinity s
         | Z.neg _ => S754_nan
         end.
Proof.
  intros Hmz. unfold binary_round_aux, shr_fexp.
  set (n := fexp prec emax (Zdigits2 mz + ez) - ez).
  pose proof (shr_spec (shr_record_of_loc mz l) ez n) as [Hm1 He1];
    [rewrite shr_m_record_of_loc; lia|].
  rewrite shr_m_record_of_loc in Hm1.
  assert (Hex : Z.max 0 n = 0 -> l = loc_Exact ->
                round_nearest_even (shr_m (shr (shr_record_of_loc mz l) ez n).1)
                  (loc_of_shr_record (shr (shr_record_of_loc mz l) ez n).1) = mz).
  { intros Hn ->. destruct n; cbn; try reflexivity. lia. }
  destruct (shr (shr_record_of_loc mz l) ez n) as [mrs' e'].
  cbn [fst snd] in Hm1, He1, Hex.
  set (m1 := round_nearest_even (shr_m mrs') (loc_of_shr_record mrs')) in *.
  pose proof (round_nearest_even_bounds (shr_m mrs') (loc_of_shr_record mrs'))
    as Hr. fold m1 in Hr.
  exists m1. cbv zeta. rewrite <- He1. rewrite <- Hm1.
  split; [lia|]. split; [exact Hex|].
  assert (H1 : 0 <= m1).
  { assert (0 <= shr_m mrs'); [|lia]. rewrite Hm1.
    apply Z.div_pos; [lia|]. apply Z.pow_pos_nonneg; lia. }
  set (n' := fexp prec emax (Zdigits2 m1 + e') - e').
  pose proof (shr_spec (shr_record_of_loc m1 loc_Exact) e' n') as [Hm2 He2];
    [rewrite shr_m_record_of_loc; lia|].
  rewrite shr_m_record_of_loc in Hm2.
  destruct (shr (shr_record_of_loc m1 loc_Exact) e' n') as [mrs'' e''].
  cbn [fst snd] in Hm2, He2. rewrite Hm2, He2. reflexivity.
Qed.

Lemma pow2_pos k : 0 <= k -> 0 < 2 ^ k.
Proof. intros. apply Z.pow_pos_nonneg; lia. Qed.

Lemma div_pow2_lt m a b :
  0 <= m < 2 ^ a -> 0 <= b -> a - b <= 24 -> 0 <= a -> m / 2 ^ b < 2 ^ 24.
Proof.
  intros [H0 Hm] Hb Hab Ha.
  pose proof (pow2_pos b Hb).
  apply Z.div_lt_upper_bound; [lia|].
  destruct (Z_le_gt_dec a b).
  - assert (2 ^ a <= 2 ^ b) by (apply Z.pow_le_mono_r; lia).
    pose proof (pow2_pos 24). lia.
  - rewrite <- Z.pow_add_r by lia.
    assert (2 ^ a <= 2 ^ (b + 24)) by (apply Z.pow_le_mono_r; lia). lia.
Qed.

Lemma div_pow2_pos m d n :
  2 ^ (d - 1) <= m -> 0 <= n < d -> 0 < m / 2 ^ n.
Proof.
  intros Hm Hn. pose proof (pow2_pos n ltac:(lia)).
  apply Z.div_str_pos. split; [lia|].
  assert (2 ^ n <= 2 ^ (d - 1)) by (apply Z.pow_le_mono_r; lia). lia.
Qed.

(** The result of a rounding is a zero, an infinity, or a float whose
    mantissa has at most 24 bits and whose exponent is in range. *)
Lemma binary_round_aux_cases s mz ez l :
  0 <= mz ->
  binary_round_aux prec emax s mz ez l = S754_zero s
  \/ binary_round_aux prec emax s mz ez l = S754_infinity s
  \/ exists m e, binary_round_aux prec emax s mz ez l = S754_finite s m e
                 /\ Z.pos m < 2 ^ 24 /\ -149 <= e <= 104.
Proof.
  intros Hmz.
  destruct (binary_round_aux_spec s mz ez l Hmz) as (m1 & Hm1 & _ & ->).
  cbv zeta in *.
  set (n1 := Z.max 0 (fexp prec emax (Zdigits2 mz + ez) - ez)) in *.
  set (e1 := ez + n1) in *.
  set (n2 := Z.max 0 (fexp prec emax (Zdigits2 m1 + e1) - e1)).
  assert (H1 : 0 <= m1).
  { pose proof (pow2_pos n1 ltac:(lia)).
    assert (0 <= mz / 2 ^ n1) by (apply Z.div_pos; lia). lia. }
  pose proof (pow2_pos n2 ltac:(lia)) as Hp2.
  assert (H2 : 0 <= m1 / 2 ^ n2) by (apply Z.div_pos; lia).
  destruct (m1 / 2 ^ n2) as [|m|m] eqn:E2; [by left| |lia].
  right. destruct (Z.leb_spec (e1 + n2) 104); [|by left].
  right. exists m, (e1 + n2). split; [done|].
  assert (Hpos : 0 < m1).
  { destruct (Z.eq_dec m1 0) as [->|]; [|lia]. rewrite Z.div_0_l in E2; lia. }
  destruct (Zdigits2_bounds m1 Hpos) as [[Hl Hu] Hd].
  unfold n2 in *. rewrite fexp32 in *. split; [|lia].
  rewrite <- E2. apply (div_pow2_lt m1 (Zdigits2 m1)); lia.
Qed.

(** A rounding does not give a zero when the value is at least 2^-149. *)
Lemma binary_round_aux_nonzero s mz ez l s' :
  0 < mz -> -149 < Zdigits2 mz + ez ->
  binary_round_aux prec emax s mz ez l <> S754_zero s'.
Proof.
  intros Hmz Hmag.
  destruct (binary_round_aux_spec s mz ez l (Z.lt_le_incl _ _ Hmz))
    as (m1 & Hm1 & _ & ->).
  cbv zeta in *.
  set (n1 := Z.max 0 (fexp prec emax (Zdigits2 mz + ez) - ez)) in *.
  set (e1 := ez + n1) in *.
  set (n2 := Z.max 0 (fexp prec emax (Zdigits2 m1 + e1) - e1)).
  destruct (Zdigits2_bounds mz Hmz) as [[Hl Hu] Hd].
  assert (Hn1 : 0 <= n1 < Zdigits2 mz) by (unfold n1; rewrite fexp32; lia).
  pose proof (pow2_pos n1 ltac:(lia)) as Hp1.
  assert (Hq : 2 ^ (Zdigits2 mz - 1 - n1) <= mz / 2 ^ n1).
  { apply Z.div_le_lower_bound; [lia|].
    rewrite <- Z.pow_add_r by lia.
    replace (n1 + (Zdigits2 mz - 1 - n1)) with (Zdigits2 mz - 1) by lia. done. }
  assert (Hge : Zdigits2 mz - n1 <= Zdigits2 m1).
  { pose proof (Zdigits2_ge m1 (Zdigits2 mz - 1 - n1)). lia. }
  assert (Hpos : 0 < m1).
  { pose proof (pow2_pos (Zdigits2 mz - 1 - n1)). lia. }
  destruct (Zdigits2_bounds m1 Hpos) as [[Hl1 Hu1] Hd1].
  assert (Hn2 : 0 <= n2 < Zdigits2 m1)
    by (unfold n2, e1; rewrite fexp32; lia).
  pose proof (div_pow2_pos m1 (Zdigits2 m1) n2 Hl1 Hn2) as H2.
  destruct (m1 / 2 ^ n2) as [|m|m]; [lia| |lia].
  destruct (_ <=? _); discriminate.
Qed.

(** A rounding does not overflow when the value is below 2^127. *)
Lemma binary_round_aux_finite s mz ez l s' :
  0 < mz -> Zdigits2 mz + ez <= 127 -> ez <= 104 ->
  binary_round_aux prec emax s mz ez l <> S754_infinity s'.
Proof.
  intros Hmz Hmag Hez.
  destruct (binary_round_aux_spec s mz ez l (Z.lt_le_incl _ _ Hmz))
    as (m1 & Hm1 & _ & ->).
  cbv zeta in *.
  set (n1 := Z.max 0 (fexp prec emax (Zdigits2 mz + ez) - ez)) in *.
  set (e1 := ez + n1) in *.
  set (n2 := Z.max 0 (fexp prec emax (Zdigits2 m1 + e1) - e1)).
  destruct (Zdigits2_bounds mz Hmz) as [[Hl Hu] Hd].
  pose proof (pow2_pos n1 ltac:(lia)) as Hp1.
  assert (H0 : 0 <= mz / 2 ^ n1) by (apply Z.div_pos; lia).
  assert (He1 : e1 <= 104) by (unfold e1, n1; rewrite fexp32; lia).
  assert (Hd1 : Zdigits2 m1 + e1 <= 128).
  { destruct (Z_le_gt_dec n1 (Zdigits2 mz)) as [Hle|Hgt].
    - assert (Hq : mz / 2 ^ n1 < 2 ^ (Zdigits2 mz - n1)).
      { apply Z.div_lt_upper_bound; [lia|].
        rewrite <- Z.pow_add_r by lia.
        replace (n1 + (Zdigits2 mz - n1)) with (Zdigits2 mz) by lia. done. }
      destruct (Z.eq_dec m1 (2 ^ (Zdigits2 mz - n1))) as [->|Hne].
      + destruct (Zdigits2_bounds (2 ^ (Zdigits2 mz - n1))) as [[_ Hu'] _];
          [apply pow2_pos; lia|].
        assert (Zdigits2 (2 ^ (Zdigits2 mz - n1)) <= Zdigits2 mz - n1 + 1).
        { apply Zdigits2_le; [|lia]. split; [apply Z.lt_le_incl, pow2_pos; lia|].
          rewrite Z.pow_add_r by lia.
          pose proof (pow2_pos (Zdigits2 mz - n1)). lia. }
        unfold e1. lia.
      + pose proof (Zdigits2_le m1 (Zdigits2 mz - n1)). unfold e1. lia.
    - assert (mz / 2 ^ n1 = 0).
      { apply Z.div_small. split; [lia|].
        assert (2 ^ Zdigits2 mz <= 2 ^ n1) by (apply Z.pow_le_mono_r; lia). lia. }
      pose proof (Zdigits2_le m1 1). lia. }
  assert (e1 + n2 <= 104) by (unfold n2; rewrite fexp32; lia).
  destruct (m1 / 2 ^ n2) as [|m|m]; try discriminate.
  destruct (Z.leb_spec (e1 + n2) 104); [discriminate|lia].
Qed.

Lemma shl_align_spec m e e' :
  exists k, 0 <= k /\ k = Z.max 0 (e - e')
    /\ Z.pos (shl_align m e e').1 = Z.pos m * 2 ^ k
    /\ (shl_align m e e').2 = e - k
    /\ Z.pos (digits2_pos (shl_align m e e').1) = Z.pos (digits2_pos m) + k.
Proof.
  unfold shl_align. destruct (e' - e) as [|d|d] eqn:E; cbn [fst snd].
  - exists 0. repeat split; lia.
  - exists 0. repeat split; lia.
  - exists (Z.pos d). rewrite iter_xO_value, digits2_pos_iter.
    repeat split; lia.
Qed.

(** Rounding an integer multiple of a power of two not below 2^-149:
    the result is not a zero. *)
Lemma binary_round_cases s m e :
  -149 <= e ->
  binary_round prec emax s m e = S754_infinity s
  \/ exists m' e', binary_round prec emax s m e = S754_finite s m' e'
                   /\ Z.pos m' < 2 ^ 24 /\ -149 <= e' <= 104.
Proof.
  intros He. unfold binary_round.
  destruct (shl_align_spec m e (fexp prec emax (Z.pos (digits2_pos m) + e)))
    as (k & Hk & Ek & Hm & Hez & Hd).
  destruct (shl_align m e _) as [mz ez]. cbn [fst snd] in *.
  destruct (binary_round_aux_cases s (Z.pos mz) ez loc_Exact) as [H|[H|H]];
    [lia| |by left|by right].
  exfalso. revert H. apply binary_round_aux_nonzero; [lia|].
  cbn [Zdigits2]. rewrite Hd, Hez.
  pose proof (Pos2Z.is_pos (digits2_pos m)). lia.
Qed.

(** Rounding a value below a float of binary32 does not overflow. *)
Lemma binary_round_below s M ez mx ex s' :
  -149 <= ez <= ex -> ex <= 104 -> Z.pos mx < 2 ^ 24 ->
  Z.pos M < Z.pos mx * 2 ^ (ex - ez) ->
  binary_round prec emax s M ez <> S754_infinity s'.
Proof.
  intros He Hex Hmx HM. unfold binary_round.
  destruct (shl_align_spec M ez (fexp prec emax (Z.pos (digits2_pos M) + ez)))
    as (k & Hk & Ek & Hm & Hez & Hd).
  destruct (shl_align M ez _) as [mz ez']. cbn [fst snd] in *.
  pose proof (digits2_pos_lower M) as HlM.
  pose proof (Pos2Z.is_pos (digits2_pos M)) as HdM.
  set (d := Z.pos (digits2_pos M)) in *.
  assert (Hmag : d + ez <= 24 + ex).
  { destruct (Z_le_gt_dec (d + ez) (24 + ex)); [done|exfalso].
    assert (2 ^ (24 + (ex - ez)) <= 2 ^ (d - 1))
      by (apply Z.pow_le_mono_r; lia).
    rewrite Z.pow_add_r in * by lia.
    pose proof (pow2_pos (ex - ez) ltac:(lia)). nia. }
  destruct (Z_le_gt_dec (d + ez) 127) as [Hs|Hb].
  - apply binary_round_aux_finite; [lia| |lia].
    cbn [Zdigits2]. lia.
  - (* the top binade *)
    assert (ex = 104) by lia. subst ex.
    assert (Ef : fexp prec emax (d + ez) = 104) by (rewrite fexp32; lia).
    rewrite Ef in Ek. assert (k = 0) as -> by lia. clear Ek.
    rewrite Z.pow_0_r, Z.mul_1_r in Hm. injection Hm as ->.
    replace ez' with ez in * by lia.
    destruct (binary_round_aux_spec s (Z.pos M) ez loc_Exact)
      as (m1 & Hm1 & Hex1 & ->); [lia|].
    cbv zeta in *. cbn [Zdigits2] in *. fold d in Hm1, Hex1 |- *.
    rewrite Ef in *.
    set (n1 := Z.max 0 (104 - ez)) in *.
    assert (Hn1 : n1 = 104 - ez) by lia.
    assert (Hm1' : 0 <= m1 <= Z.pos mx).
    { pose proof (pow2_pos n1 ltac:(lia)).
      assert (0 <= Z.pos M / 2 ^ n1) by (apply Z.div_pos; lia).
      split; [lia|].
      destruct (Z.eq_dec n1 0) as [E0|N0].
      - rewrite Hex1 by done. rewrite <- Hn1, E0 in HM. lia.
      - assert (Z.pos M / 2 ^ n1 < Z.pos mx); [|lia].
        apply Z.div_lt_upper_bound; [lia|]. rewrite Hn1. lia. }
    assert (Hd1 : Zdigits2 m1 <= 24) by (apply Zdigits2_le; lia).
    pose proof (Zdigits2_nonneg m1 ltac:(lia)).
    replace (ez + n1) with 104 by lia.
    assert (En2 : Z.max 0 (fexp prec emax (Zdigits2 m1 + 104) - 104) = 0)
      by (rewrite fexp32; lia).
    rewrite En2. cbn [Z.pow]. rewrite Z.div_1_r.
    destruct m1; discriminate.
Qed.

(** A product of two floats of the same sign that are numbers or
    infinities: never negative, never a NaN. *)
Lemma fmul_square l : l <> S754_nan -> square_like (fmul l l).
Proof.
  destruct l as [s|s| |s m e]; intros Hl; try done.
  - by destruct s.
  - by destruct s.
  - unfold fmul, SFmul. rewrite xorb_nilpotent.
    destruct (binary_round_aux_cases false (Z.pos (m * m)) (e + e) loc_Exact)
      as [->|[->|(m' & e' & -> & H)]]; [lia|done..].
Qed.

(** The product of a coefficient of the matrix, 0 or -1, and a number. *)
Lemma fmul_by_ARef a p :
  a = zero \/ a = fneg one -> is_number p -> fmul a p <> S754_nan.
Proof.
  intros [-> | ->] Hp; destruct p as [s|s| |s m e]; try done.
  change (fneg one) with (S754_finite true 8388608 (-23)).
  unfold fmul, SFmul.
  destruct (binary_round_aux_cases (xorb true s) (Z.pos (8388608 * m))
              (-23 + e) loc_Exact)
    as [->|[->|(m' & e' & -> & H)]]; [lia|done..].
Qed.

(** Subtracting a square from what is left of the diagonal. *)
Lemma fsub_remainder x y :
  remainder_like x -> square_like y -> remainder_like (fsub x y).
Proof.
  intros Hx Hy.
  destruct y as [[]|[]| |[] my ey]; try done;
    destruct x as [[]|[]| |sx mx ex]; try done.
  (* finite - finite *)
  - cbn [remainder_like square_like] in Hx, Hy.
    unfold fsub, SFsub.
    set (ez := Z.min ex ey).
    destruct (shl_align_spec mx ex ez) as (kx & Hkx & Ekx & Hmx & _ & _).
    destruct (shl_align_spec my ey ez) as (ky & Hky & Eky & Hmy & _ & _).
    set (X := (shl_align mx ex ez).1) in *.
    set (Y := (shl_align my ey ez).1) in *.
    cbn [cond_Zopp].
    assert (Hez : -149 <= ez) by (unfold ez; lia).
    destruct sx; cbn [cond_Zopp].
    + (* negative minus positive *)
      destruct (- Z.pos X - Z.pos Y) as [|M|M] eqn:EM; [lia|lia|].
      cbn [binary_normalize].
      destruct (binary_round_cases true M ez Hez) as [->|(m' & e' & -> & H)];
        done.
    + destruct (Z.pos X - Z.pos Y) as [|M|M] eqn:EM; cbn [binary_normalize].
      * done.
      * destruct (binary_round_cases false M ez Hez)
          as [E|(m' & e' & -> & H)]; [|done].
        exfalso. revert E.
        apply (binary_round_below false M ez mx ex);
          [unfold ez; lia|lia|lia|].
        replace kx with (ex - ez) in Hmx by (unfold ez in *; lia). lia.
      * destruct (binary_round_cases true M ez Hez) as [->|(m' & e' & -> & H)];
          done.
Qed.

(** The square root of a non-negative number is a non-negative number:
    it does not overflow. *)
Lemma fsqrt_radicand v : radicand v -> radicand (fsqrt v).
Proof.
  destruct v as [[]| | |[] m e]; try done. intros [Hm He].
  unfold fsqrt, SFsqrt, SFsqrt_core_binary.
  pose proof (digits2_pos_lower m) as Hl.
  pose proof (digits2_pos_upper m) as Hu.
  pose proof (Pos2Z.is_pos (digits2_pos m)) as Hd0.
  cbn [Zdigits2]. set (d := Z.pos (digits2_pos m)) in *.
  assert (Hd : d <= 24) by (by apply digits2_pos_small).
  rewrite !Z.div2_div.
  set (e' := Z.min (fexp prec emax ((d + e + 1) / 2)) (e / 2)).
  assert (He2 : 2 * (e / 2) <= e)
    by (pose proof (Z.mul_div_le e 2); lia).
  assert (Hh : 2 * ((d + e + 1) / 2) <= d + e + 1)
    by (pose proof (Z.mul_div_le (d + e + 1) 2); lia).
  assert (Hs : 0 <= e - 2 * e') by (unfold e'; lia).
  set (m' := match e - 2 * e' with
             | 0 => Z.pos m
             | Z.pos _ => Z.shiftl (Z.pos m) (e - 2 * e')
             | Z.neg _ => 0
             end).
  assert (Em' : m' = Z.pos m * 2 ^ (e - 2 * e')).
  { unfold m'. destruct (e - 2 * e') as [|p|p] eqn:E; [cbn; lia| |lia].
    rewrite Z.shiftl_mul_pow2 by lia. reflexivity. }
  clearbody m'.
  pose proof (pow2_pos (e - 2 * e') Hs) as Hp.
  assert (Hm'0 : 0 < m') by nia.
  pose proof (Z.sqrtrem_spec m' ltac:(lia)) as Hsq.
  destruct (Z.sqrtrem m') as [q r]. destruct Hsq as [Hq Hr].
  assert (Hq0 : 0 < q) by nia.
  set (l := if r =? 0 then loc_Exact
            else loc_Inexact (if r <=? q then Lt else Gt)).
  destruct (binary_round_aux_cases false q e' l ltac:(lia))
    as [->|[E|(m2 & e2 & -> & H2)]]; [done| |done].
  exfalso. revert E.
  destruct (Zdigits2_bounds q Hq0) as [[Hlq Huq] Hdq].
  apply binary_round_aux_finite; [done| |unfold e'; rewrite fexp32; lia].
  (* 2^(2 dq - 2) <= q^2 <= m' < 2^(d + s) *)
  assert (Hsq : 2 ^ (2 * (Zdigits2 q - 1)) <= q * q).
  { replace (2 * (Zdigits2 q - 1)) with ((Zdigits2 q - 1) + (Zdigits2 q - 1))
      by lia.
    rewrite Z.pow_add_r by lia. nia. }
  assert (Hm'u : m' < 2 ^ (d + (e - 2 * e'))).
  { rewrite Em', Z.pow_add_r by lia. nia. }
  assert (Hlt : 2 * (Zdigits2 q - 1) < d + (e - 2 * e')).
  { destruct (Z_lt_ge_dec (2 * (Zdigits2 q - 1)) (d + (e - 2 * e')));
      [done|exfalso].
    assert (2 ^ (d + (e - 2 * e')) <= 2 ^ (2 * (Zdigits2 q - 1)))
      by (apply Z.pow_le_mono_r; lia).
    lia. }
  lia.
Qed.

(** The reciprocal of a positive number of binary32 is positive: it does
    not underflow to zero. *)
Lemma fdiv_one_positive y :
  radicand y -> flt zero (fdiv one y) = true.
Proof.
  destruct y as [[]| | |[] my ey]; try done. intros [Hm He].
  change one with (S754_finite false 8388608 (-23)).
  unfold fdiv, SFdiv, SFdiv_core_binary. cbn [xorb].
  pose proof (digits2_pos_lower my) as Hl.
  pose proof (digits2_pos_upper my) as Hu.
  pose proof (Pos2Z.is_pos (digits2_pos my)) as Hd0.
  change (Zdigits2 8388608) with 24.
  cbn [Zdigits2]. set (d2 := Z.pos (digits2_pos my)) in *.
  assert (Hd : d2 <= 24) by (by apply digits2_pos_small).
  set (e' := Z.min (fexp prec emax (24 + -23 - (d2 + ey))) (-23 - ey)).
  set (s := -23 - ey - e').
  assert (Hs : d2 <= s + 21 /\ 0 <= s). { unfold s, e'; rewrite fexp32. clearbody d2. clear Hl Hu Hm. lia. }
  set (m' := match s with
             | 0 => 8388608
             | Z.pos _ => Z.shiftl 8388608 s
             | Z.neg _ => 0
             end).
  assert (Em' : m' = 2 ^ (23 + s)).
  { unfold m'. destruct s as [|p|p] eqn:E; [reflexivity| |lia].
    rewrite Z.shiftl_mul_pow2 by lia. rewrite Z.pow_add_r by lia. reflexivity. }
  clearbody m'.
  assert (Eq : (Z.div_eucl m' (Z.pos my)).1 = m' / Z.pos my) by reflexivity.
  destruct (Z.div_eucl m' (Z.pos my)) as [q r]. cbn [fst] in Eq.
  assert (Hq : 2 ^ (23 + s - d2) <= q).
  { rewrite Eq. apply Z.div_le_lower_bound; [lia|].
    assert (E : 2 ^ (23 + s) = 2 ^ d2 * 2 ^ (23 + s - d2))
      by (rewrite <- Z.pow_add_r by lia; f_equal; lia).
    rewrite Em', E.
    pose proof (pow2_pos (23 + s - d2) ltac:(lia)).
    apply Z.mul_le_mono_nonneg_r; lia. }
  assert (Hq0 : 0 < q) by (pose proof (pow2_pos (23 + s - d2) ltac:(lia)); lia).
  pose proof (Zdigits2_ge q (23 + s - d2) Hq ltac:(lia)) as Hdq.
  destruct (binary_round_aux_cases false q e' (new_location (Z.pos my) r)
              ltac:(lia))
    as [E|[->|(m2 & e2 & -> & H2)]]; [|done..].
  exfalso. revert E. apply binary_round_aux_nonzero; [done|].
  unfold s in *. lia.
Qed.

(** The value that [buildPreconditioner] stores for a positive finite
    diagonal is strictly positive. *)
Lemma stored_value_positive d s1 s2 s3 :
  radicand d -> d <> zero ->
  square_like s1 -> square_like s2 -> square_like s3 ->
  flt zero (fdiv one (fsqrt
    (let e := fsub (fsub (fsub d s1) s2) s3 in
     if flt e (fmul (lit 25 100) d) then d else e))) = true.
Proof.
  intros Hd Hd0 H1 H2 H3. cbv zeta.
  apply fdiv_one_positive, fsqrt_radicand.
  assert (He : remainder_like (fsub (fsub (fsub d s1) s2) s3)).
  { repeat apply fsub_remainder; try done.
    destruct d as [[]| | |[] m e]; done. }
  set (e := fsub (fsub (fsub d s1) s2) s3) in *. clearbody e.
  assert (Ht : square_like (fmul (lit 25 100) d)).
  { destruct d as [[]| | |[] m ed]; try done.
    change (lit 25 100) with (S754_finite false 8388608 (-25)).
    unfold fmul, SFmul. cbn [xorb].
    destruct (binary_round_aux_cases false (Z.pos (8388608 * m)) (-25 + ed)
                loc_Exact) as [->|[->|(m' & e' & -> & H)]]; [lia|done..]. }
  destruct (flt e (fmul (lit 25 100) d)) eqn:Hlt; [done|].
  destruct e as [[]|[]| |[] me ee]; try done;
    destruct (fmul (lit 25 100) d) as [[]|[]| |[] mt et]; try done.
Qed.

(** A quotient is a float of binary32, whatever its operands. *)
Lemma fdiv_sized a b : sized (fdiv a b).
Proof.
  destruct a as [sa|sa| |sa ma ea], b as [sb|sb| |sb mb eb]; try done.
  unfold fdiv, SFdiv, SFdiv_core_binary.
  set (e' := Z.min _ _). set (m' := match _ with 0 => _ | _ => _ end).
  assert (Hm' : 0 <= m').
  { unfold m'. destruct (ea - eb - e') eqn:E; try lia.
    rewrite Z.shiftl_mul_pow2 by lia.
    pose proof (pow2_pos (Z.pos p) ltac:(lia)). lia. }
  assert (Eq : (Z.div_eucl m' (Z.pos mb)).1 = m' / Z.pos mb) by reflexivity.
  destruct (Z.div_eucl m' (Z.pos mb)) as [q r]. cbn [fst] in Eq.
  assert (Hq : 0 <= q) by (rewrite Eq; apply Z.div_pos; lia).
  destruct (binary_round_aux_cases (xorb sa sb) q e'
              (new_location (Z.pos mb) r) Hq)
    as [->|[->|(m2 & e2 & -> & H2)]]; done.
Qed.

Lemma fsub_sized a b : sized a -> sized b -> sized (fsub a b).
Proof.
  destruct a as [sa|sa| |sa ma ea], b as [sb|sb| |sb mb eb]; try done;
    try (by destruct sa, sb).
  intros [_ Ha] [_ Hb]. unfold fsub, SFsub.
  assert (He : -149 <= Z.min ea eb) by lia.
  destruct (_ - _) as [|M|M]; cbn [binary_normalize]; [done|..].
  - destruct (binary_round_cases false M _ He) as [->|(m' & e' & -> & H)]; done.
  - destruct (binary_round_cases true M _ He) as [->|(m' & e' & -> & H)]; done.
Qed.

(** An [int] converts to a number. *)
Lemma Z2F_number n : INT_MIN <= n <= INT_MAX -> is_number (Z2F n).
Proof.
  unfold INT_MIN, INT_MAX. intros Hn. unfold Z2F, binary_normalize.
  assert (Hr : forall s p, Z.pos p < 2 ^ 32 ->
                 is_number (binary_round prec emax s p 0)).
  { intros s p Hp.
    destruct (binary_round_cases s p 0 ltac:(lia)) as [E|(m' & e' & -> & _)];
      [|done].
    exfalso. revert E. apply (binary_round_below s p 0 1 32); lia. }
  destruct n as [|p|p]; [done|apply Hr; lia|apply Hr; lia].
Qed.

(** With x = z the decomposition of the flat index reaches every cell. *)
Lemma cell_of_cover {G : geomtype} n y i j k :
  0 <= i < n -> 0 <= j < y -> 0 <= k < n ->
  0 <= k * (n * y) + j * n + i < n * y * n
  /\ cell_of n y n (k * (n * y) + j * n + i) = (i, j, k).
Proof.
  intros Hi Hj Hk.
  assert (Hjn : 0 <= j * n + i < n * y) by nia.
  assert (Hny : 0 < n * y) by nia.
  assert (Hk0 : 0 <= k * (n * y)) by nia.
  assert (Hk1 : (k + 1) * (n * y) <= n * (n * y))
    by (apply Z.mul_le_mono_nonneg_r; lia).
  split; [nia|].
  unfold cell_of.
  assert (R1 : Z.rem (k * (n * y) + j * n + i) (n * y) = j * n + i).
  { rewrite Z.rem_mod_nonneg by lia. symmetry.
    apply (Z.mod_unique_pos _ _ k); lia. }
  assert (Q1 : Z.quot (k * (n * y) + j * n + i) (n * y) = k).
  { rewrite Z.quot_div_nonneg by lia. symmetry.
    apply (Z.div_unique_pos _ _ _ (j * n + i)); lia. }
  assert (R2 : Z.rem (j * n + i) n = i).
  { rewrite Z.rem_mod_nonneg by lia. symmetry.
    apply (Z.mod_unique_pos _ _ j); lia. }
  assert (Q2 : Z.quot (j * n + i) n = j).
  { rewrite Z.quot_div_nonneg by lia. symmetry.
    apply (Z.div_unique_pos _ _ _ i); lia. }
  rewrite R1, Q1, R2, Q2. reflexivity.
Qed.

(** The decomposition of the flat index determines the index. *)
Lemma cell_of_inj {G : geomtype} x y z gn gn' :
  cell_of x y z gn = cell_of x y z gn' -> gn = gn'.
Proof.
  unfold cell_of. intros [= H1 H2 H3].
  rewrite (Z.quot_rem' gn (x * y)), (Z.quot_rem' gn' (x * y)), H3.
  f_equal.
  rewrite (Z.quot_rem' (Z.rem gn (x * y)) z),
          (Z.quot_rem' (Z.rem gn' (x * y)) z), H1, H2.
  reflexivity.
Qed.

Section Precond.
Context {G : geomtype}.

Lemma ADiag_sized h A0 L0 i j k dm subcell :
  sized (ADiag h A0 L0 i j k dm subcell).
Proof.
  unfold ADiag. destruct (dims_int dm) as [[x y] z].
  assert (H6 : sized (Z2F 6)) by (vm_compute; split; [done|split; discriminate]).
  destruct (negb _); [done|].
  apply fold_left_inv; [done|].
  intros d [[qi qj] qk] _ Hd.
  destruct (_ || _); [apply fsub_sized; [done|]|].
  - vm_compute. split; [done|split; discriminate].
  - destruct (_ && _); [|done]. apply fsub_sized; [done|apply fdiv_sized].
Qed.

Lemma ADiag_same_but pc h h' A0 L0 i j k dm subcell :
  same_but pc h h' -> subcell = 0 \/ L0 <> pc ->
  ADiag h' A0 L0 i j k dm subcell = ADiag h A0 L0 i j k dm subcell.
Proof.
  intros [Hi Hf] [->|HL].
  - unfold ADiag, iget. rewrite Hi.
    destruct (dims_int dm) as [[x y] z].
    unfold neighbours6. cbn [fold_left].
    change (negb (0 =? 0)) with false. rewrite !andb_false_r. reflexivity.
  - unfold ADiag, iget, fget, getCell. rewrite Hi, (Hf L0 HL). reflexivity.
Qed.

(** [PRef] returns a number: 0, or a stored value equal to the
    enumerator. *)
Lemma PRef_number h p i j k dm :
  is_number (Z2F FLUID) -> is_number (PRef h p i j k dm).
Proof.
  intros HF. unfold PRef. destruct (dims_int dm) as [[x y] z].
  destruct (outside x y z i j k); cbn [orb]; [done|].
  unfold fne. destruct (feq (fget h p i j k) (Z2F FLUID)) eqn:E; cbn [negb];
    [|done].
  destruct (fget h p i j k) as [s|s| |s m e]; try done.
  destruct (Z2F FLUID) as [s'|s'| |s' m' e']; try done.
  - destruct s; done.
  - destruct s; done.
Qed.

Lemma ARef_cases h A0 i j k qi qj qk dm :
  ARef h A0 i j k qi qj qk dm = zero \/ ARef h A0 i j k qi qj qk dm = fneg one.
Proof.
  unfold ARef. destruct (dims_int dm) as [[x y] z].
  repeat case_match; auto.
Qed.

Lemma square_of_refs h A0 pc i j k qi qj qk dm :
  is_number (Z2F FLUID) ->
  square_like (fmul (fmul (ARef h A0 i j k qi qj qk dm) (PRef h pc i j k dm))
                    (fmul (ARef h A0 i j k qi qj qk dm) (PRef h pc i j k dm))).
Proof.
  intros HF. apply fmul_square, fmul_by_ARef; [apply ARef_cases|].
  by apply PRef_number.
Qed.

(** With an infinite diagonal the stored value is 0 or a NaN. *)
Lemma stored_value_infinite s1 s2 s3 :
  square_like s1 -> square_like s2 -> square_like s3 ->
  flt zero (fdiv one (fsqrt
    (let d := S754_infinity false in
     let e := fsub (fsub (fsub d s1) s2) s3 in
     if flt e (fmul (lit 25 100) d) then d else e))) = false.
Proof.
  destruct s1 as [[]|[]| |[] m1 e1]; try done;
    destruct s2 as [[]|[]| |[] m2 e2]; try done;
    destruct s3 as [[]|[]| |[] m3 e3]; try done.
Qed.

Lemma body_alloc pc mgrid subcell x y z gn h :
  is_Some (floatgrids h !! pc) ->
  is_Some (floatgrids (buildPreconditioner_body pc mgrid subcell x y z gn h)
             !! pc).
Proof.
  intros Hs. unfold buildPreconditioner_body.
  destruct (cell_of x y z gn) as [[i j] k].
  repeat case_match; try done; cbn [fset floatgrids]; by apply setCell_is_Some.
Qed.

Lemma body_other_cells pc mgrid subcell x y z gn h i j k :
  cell_of x y z gn <> (i, j, k) ->
  fget (buildPreconditioner_body pc mgrid subcell x y z gn h) pc i j k
  = fget h pc i j k.
Proof.
  intros Hne. unfold buildPreconditioner_body.
  destruct (cell_of x y z gn) as [[i' j'] k'].
  repeat case_match; try done; unfold fget; cbn [fset floatgrids];
    by apply getCell_setCell_ne_cell.
Qed.

(** The value of the preconditioner at a cell that the loop visits is
    the one that the round of the cell leaves there; the round starts
    from a store that differs from the first one in the grid [pc] only,
    and in which the cell still holds its first value. *)
Lemma buildPreconditioner_at_cell (Q : float -> Prop) pc mgrid subcell h
    x y z gn i j k :
  dims_int (dimensions mgrid) = (x, y, z) ->
  0 <= gn < x * y * z ->
  cell_of x y z gn = (i, j, k) ->
  is_Some (floatgrids h !! pc) ->
  (forall h', same_but pc h h' -> is_Some (floatgrids h' !! pc) ->
     fget h' pc i j k = fget h pc i j k ->
     Q (fget (buildPreconditioner_body pc mgrid subcell x y z gn h') pc i j k)) ->
  Q (fget (buildPreconditioner pc mgrid subcell h) pc i j k).
Proof.
  intros Hdm Hgn Hc Hs HQ. unfold buildPreconditioner. rewrite Hdm.
  set (I := fun (m : Z) (h' : heap) =>
    same_but pc h h' /\ is_Some (floatgrids h' !! pc) /\
    (m <= gn -> fget h' pc i j k = fget h pc i j k) /\
    (gn < m -> Q (fget h' pc i j k))).
  assert (HI : I (x * y * z)
    (for_gn (x * y * z) (buildPreconditioner_body pc mgrid subcell x y z) h)).
  { apply for_gn_ind; [lia| |].
    - split; [apply same_but_refl|]. split; [done|]. split; [done|lia].
    - intros g h' Hg (Hsb & Ha & Hz & Hv).
      split.
      { eapply same_but_trans; [exact Hsb|].
        apply buildPreconditioner_body_same_but. }
      split; [by apply body_alloc|].
      destruct (decide (g = gn)) as [->|Hne].
      + split; [lia|]. intros _. apply HQ; [done|done|apply Hz; lia].
      + assert (Hcell : cell_of x y z g <> (i, j, k)).
        { rewrite <- Hc. intros E. by apply cell_of_inj in E. }
        rewrite body_other_cells by done.
        split; [intros; apply Hz; lia|intros; apply Hv; lia]. }
  destruct HI as (_ & _ & _ & Hv). apply Hv. lia.
Qed.

End Precond.

(** C4, amended. On a grid with X = Z whose cell count does not
    overflow [int], with an [int] for the enumerator FLUID and a
    preconditioner grid that is not the level set (or the ghost-fluid
    term off), after [buildPreconditioner] has run on a preconditioner
    grid initialised to 0 everywhere, at every FLUID cell of the domain,
    for every [subcell], every marker grid and every level set: the
    stored value is strictly positive when the matrix diagonal [ADiag]
    of the cell is positive and finite; the guard [diag>0] skips the
    cell, which keeps the value 0, when the diagonal is not positive;
    and the stored value is not positive (it is 0 or a NaN) when the
    diagonal is +∞. *)
Theorem buildPreconditioner_positive {G : geomtype} (h : heap) (pc : loc)
    (mgrid : macgrid) (subcell n y i j k : Z) :
  dims_int (dimensions mgrid) = (n, y, n) -> no_overflow n y n ->
  INT_MIN <= FLUID <= INT_MAX ->
  subcell = 0 \/ L mgrid <> pc ->
  is_Some (floatgrids h !! pc) ->
  (forall i j k, fget h pc i j k = zero) ->
  in_domain n y n i j k ->
  iget h (A mgrid) i j k = FLUID ->
  let diag := ADiag h (A mgrid) (L mgrid) i j k (dimensions mgrid) subcell in
  let v := fget (buildPreconditioner pc mgrid subcell h) pc i j k in
  (flt zero diag = true -> is_number diag -> flt zero v = true)
  /\ (flt zero diag = false -> v = zero)
  /\ (diag = S754_infinity false -> flt zero v = false).
Proof.
  intros Hdm _ HF HL Hs Hz (Hi & Hj & Hk) HA diag v.
  destruct (cell_of_cover n y i j k Hi Hj Hk) as [Hgn Hc].
  apply Z2F_number in HF.
  unfold v. clear v.
  pattern (fget (buildPreconditioner pc mgrid subcell h) pc i j k).
  apply (buildPreconditioner_at_cell _ pc mgrid subcell h n y n
           (k * (n * y) + j * n + i) i j k); try done.
  intros h' Hsb Hs' Hv.
  unfold buildPreconditioner_body. rewrite Hc.
  assert (EA : iget h' (A mgrid) i j k = FLUID)
    by (unfold iget; rewrite (proj1 Hsb); exact HA).
  rewrite EA, Z.eqb_refl. cbv zeta.
  rewrite (ADiag_same_but pc h h') by done. fold diag.
  destruct (flt zero diag) eqn:Hd.
  - unfold fget. cbn [fset floatgrids]. rewrite getCell_setCell_eq by done.
    split; [|split; [done|]].
    + intros _ Hnum. apply stored_value_positive; try apply square_of_refs;
        try done.
      * pose proof (ADiag_sized h (A mgrid) (L mgrid) i j k (dimensions mgrid)
                      subcell) as Hsz. fold diag in Hsz.
        destruct diag as [[]|[]| |[] md ed]; done.
      * intros E. rewrite E in Hd. done.
    + intros E. rewrite E. apply stored_value_infinite; by apply square_of_refs.
  - rewrite Hv, Hz. split; [done|]. split; [done|].
    intros E. rewrite E in Hd. done.
Qed.

Lemma buildPreconditioner_positive_witness :
  let G := geomtype_012 in
  let m := Examples.mg 2 1 2 in
  let h := Examples.surface in
  ADiag h (A m) (L m) 0 0 0 (dimensions m) 1
  = S754_finite false 13981013 (-22)
  /\ flt zero (fget (buildPreconditioner 7%positive m 1 h) 7%positive 0 0 0)
     = true.
Proof.
  intros G m h. split; [vm_compute; reflexivity|].
  destruct (buildPreconditioner_positive h 7%positive m 1 2 1 0 0 0)
    as (Hpos & _ & _).
  - vm_compute. reflexivity.
  - unfold no_overflow, INT_MIN, INT_MAX. lia.
  - unfold INT_MIN, INT_MAX. cbn. lia.
  - right. intros E. discriminate E.
  - vm_compute. eexists; reflexivity.
  - intros. reflexivity.
  - unfold in_domain. lia.
  - vm_compute. reflexivity.
  - apply Hpos; vm_compute; [reflexivity|exact I].
Defined.

(** ** [flipGrid] and [PRef] beyond the examples *)

(** On a grid with X = Z whose cell count does not overflow the loop of
    [flipGrid] visits every cell once, and every in-domain cell of an
    allocated grid is negated. *)
Lemma flipGrid_negates_when_x_is_z {G : geomtype} (g : loc) (dm : vec3)
    (h : heap) (n y i j k : Z) :
  dims_int dm = (n, y, n) -> no_overflow n y n ->
  is_Some (floatgrids h !! g) ->
  0 <= i < n -> 0 <= j < y -> 0 <= k < n ->
  fget (flipGrid g dm h) g i j k = fneg (fget h g i j k).
Proof.
  intros Hdm _ Hs Hi Hj Hk. unfold flipGrid. rewrite Hdm.
  destruct (cell_of_cover n y i j k Hi Hj Hk) as [Hgn Hc].
  set (N := n * y * n) in *.
  set (body := fun (gn : Z) (h0 : heap) =>
    let '(i0, j0, k0) := cell_of n y n gn in
    let flipped := fneg (fget h0 g i0 j0 k0) in fset h0 g i0 j0 k0 flipped).
  set (I := fun (m : Z) (h' : heap) =>
    is_Some (floatgrids h' !! g) /\
    forall gn' i j k, 0 <= gn' < N -> cell_of n y n gn' = (i, j, k) ->
      fget h' g i j k
      = if gn' <? m then fneg (fget h g i j k) else fget h g i j k).
  assert (HI : I N (for_gn N body h)).
  { apply for_gn_ind; [lia| |].
    - split; [done|]. intros gn' i' j' k' Hgn' _.
      destruct (Z.ltb_spec gn' 0); [lia|done].
    - intros m h' Hm [Ha Hv]. unfold body.
      destruct (cell_of n y n m) as [[i0 j0] k0] eqn:Ecm. cbv zeta.
      split; [cbn [fset floatgrids]; by apply setCell_is_Some|].
      intros gn' i' j' k' Hgn' Hc'.
      destruct (decide (gn' = m)) as [->|Hne].
      + assert (E : (i0, j0, k0) = (i', j', k')) by congruence.
        injection E as -> -> ->.
        unfold fget at 1. cbn [fset floatgrids].
        rewrite getCell_setCell_eq by done. fold (fget h' g i' j' k').
        rewrite (Hv m i' j' k') by done.
        destruct (Z.ltb_spec m m); [lia|].
        destruct (Z.ltb_spec m (m + 1)); [done|lia].
      + assert (Hcell : (i0, j0, k0) <> (i', j', k')).
        { intros E. apply Hne. apply (cell_of_inj n y n). congruence. }
        unfold fget at 1. cbn [fset floatgrids].
        rewrite getCell_setCell_ne_cell by done. fold (fget h' g i' j' k').
        rewrite (Hv gn' i' j' k') by done.
        destruct (Z.ltb_spec gn' m), (Z.ltb_spec gn' (m + 1)); try lia; done. }
  destruct HI as [_ Hv]. rewrite (Hv _ i j k Hgn Hc).
  destruct (Z.ltb_spec (k * (n * y) + j * n + i) N); [done|lia].
Qed.

(** Whatever the numbering of the enumeration, [PRef] returns 0 at a
    cell that stores 1/2: no integer converts to that float. *)
Lemma PRef_half_is_zero {G : geomtype} h p i j k dm :
  fget h p i j k = lit 1 2 -> PRef h p i j k dm = zero.
Proof.
  intros Hv. unfold PRef. destruct (dims_int dm) as [[x y] z].
  destruct (outside x y z i j k); cbn [orb]; [done|].
  unfold fne. destruct (feq (fget h p i j k) (Z2F FLUID)) eqn:E; cbn [negb]; [|done].
  exfalso. rewrite Hv in E.
  remember (lit 1 2) as w eqn:Hw. vm_compute in Hw.
  pose proof (feq_finite_eq _ _ _ _ _ Hw E) as HF.
  rewrite Hw in HF. apply Z2F_exp in HF. lia.
Qed.

(** ** Loops over the particle array *)

Lemma for_n_S {S} n (body : nat -> S -> S) s :
  for_n (Datatypes.S n) body s = body n (for_n n body s).
Proof. unfold for_n. rewrite seq_S, fold_left_app. reflexivity. Qed.

Lemma for_n_ext {S} n (body body' : nat -> S -> S) s :
  (forall i s, (i < n)%nat -> body i s = body' i s) ->
  for_n n body s = for_n n body' s.
Proof.
  induction n as [|n IH]; intros Hb; [done|].
  rewrite !for_n_S, IH; [apply Hb; lia|]. intros i s' Hi. apply Hb. lia.
Qed.

(** A loop that reads a list in index order is a fold over the list. *)
Lemma for_n_lookup_fold {S B} (F : B -> S -> S) (l : list B) s :
  for_n (length l) (fun j s => match l !! j with Some x => F x s | None => s end) s
  = fold_left (fun s x => F x s) l s.
Proof.
  induction l as [|x l IH] using rev_ind; [done|].
  rewrite length_app, Nat.add_comm. cbn [length Nat.add].
  rewrite for_n_S, fold_left_app. cbn [fold_left].
  rewrite lookup_app_r, Nat.sub_diag by lia. cbn [lookup list_lookup].
  f_equal. rewrite <- IH. apply for_n_ext. intros i s' Hi.
  by rewrite lookup_app_l.
Qed.

(** Altering the entries 0, ..., n-1 in turn. *)
Lemma for_n_alter_lookup {A} (f : A -> A) (l : list A) n k :
  for_n n (fun i ps => alter f i ps) l !! k
  = if decide (k < n)%nat then f <$> l !! k else l !! k.
Proof.
  induction n as [|n IH]; [by case_decide; [lia|]|].
  rewrite for_n_S. destruct (decide (k = n)) as [->|Hne].
  - rewrite list_lookup_alter_eq, IH. repeat case_decide; try lia. done.
  - rewrite list_lookup_alter_ne by done. rewrite IH.
    repeat case_decide; try lia; done.
Qed.

(** Successive alterations of one entry compose. *)
Lemma fold_alter_same {A B} (g : B -> A -> A) (fs : list B) (i : nat) (ps : list A) :
  fold_left (fun ps f => alter (g f) i ps) fs ps
  = alter (fun p => fold_left (fun p f => g f p) fs p) i ps.
Proof.
  revert ps. induction fs as [|f fs IH]; intros ps; cbn [fold_left].
  - symmetry. apply list_alter_id. done.
  - rewrite IH. rewrite list_alter_alter_eq. reflexivity.
Qed.

Lemma set_u_fold (fs : list vec3) (s : float) (p : Particle) :
  fold_left (fun p f => set_u (vadd (m_u p) (vscale f s)) p) fs p
  = set_u (fold_left (fun u f => vadd u (vscale f s)) fs (m_u p)) p.
Proof.
  revert p. induction fs as [|f fs IH]; intros p; cbn [fold_left].
  - by destruct p.
  - rewrite IH. by destruct p.
Qed.

(** C10, counterexample. An active external force need not change the
    velocity of a SOLID particle. Under gravity alone the solid particle
    [fast_solid], which moves at 2^30 along y, keeps its velocity bit for
    bit: the addition of stepsize · f is absorbed by the rounding. With
    gravity and its opposite both active, the solid particle [far_solid],
    at rest, is after the pass still at rest. *)
Lemma ApplyExternalForces_solid_velocity_unchanged :
  let G := geomtype_012 in
  (let scene := SimExamples.wall in
   let p := SimExamples.fast_solid in
   let sim := SimExamples.sim4 [p] in
   m_type p = SOLID
   /\ GetExternalForces = [mkvec3 zero (fneg (lit 98 10)) zero]
   /\ m_particles (ApplyExternalForces sim) !! 0%nat = Some p)
  /\ (let scene := SimExamples.tug in
      let p := SimExamples.far_solid in
      let sim := SimExamples.sim4 [p] in
      m_type p = SOLID
      /\ GetExternalForces = [mkvec3 zero (fneg (lit 98 10)) zero;
                              mkvec3 zero (lit 98 10) zero]
      /\ m_particles (ApplyExternalForces sim) !! 0%nat = Some p).
Proof. vm_compute. repeat split; reflexivity. Qed.

(** C10, amended. [ApplyExternalForces] adds [stepsize * f], for each
    external force [f] in turn, to the velocity of every particle of the
    array, whatever its type: nothing in the pass looks at [m_type], so a
    SOLID particle receives the same additions as a FLUID one. The
    velocity of the particle at every index becomes the sum
    ((u + stepsize · f1) + stepsize · f2) + ... in single precision, and
    nothing else of the particle changes. *)
Theorem ApplyExternalForces_every_particle {scene : Scene} (sim : FlipSim)
    (n : nat) (p : Particle) :
  m_particles sim !! n = Some p ->
  m_particles (ApplyExternalForces sim) !! n
  = Some (set_u (fold_left (fun u f => vadd u (vscale f (m_stepsize sim)))
                           GetExternalForces (m_u p)) p).
Proof.
  intros Hn. unfold ApplyExternalForces. cbn [m_particles with_particles].
  rewrite (for_n_ext _ _ (fun i ps =>
    alter (fun p => fold_left (fun p f =>
      set_u (vadd (m_u p) (vscale f (m_stepsize sim))) p) GetExternalForces p) i ps)).
  - rewrite for_n_alter_lookup, Hn.
    apply lookup_lt_Some in Hn. case_decide; [|lia].
    cbn [fmap option_fmap option_map]. by rewrite set_u_fold.
  - intros i ps _.
    rewrite (for_n_lookup_fold (fun f ps =>
      alter (fun p => set_u (vadd (m_u p) (vscale f (m_stepsize sim))) p) i ps)).
    apply fold_alter_same.
Qed.

Lemma ApplyExternalForces_every_particle_witness :
  let G := geomtype_012 in
  let scene := SimExamples.wall in
  let sim := SimExamples.sim4 [SimExamples.far_solid] in
  m_type SimExamples.far_solid = SOLID
  /\ m_u SimExamples.far_solid = SimExamples.origin3
  /\ m_u <$> m_particles (ApplyExternalForces sim) !! 0%nat
     = Some (mkvec3 zero (S754_finite true 10961115 (-25)) zero).
Proof.
  intros G scene sim. split; [reflexivity|]. split; [reflexivity|].
  rewrite (ApplyExternalForces_every_particle sim 0 SimExamples.far_solid);
    [vm_compute; reflexivity | reflexivity].
Defined.

(** ** Degenerate rays *)

(** The difference of two equal floats is a zero, or a NaN when they are
    not finite. *)
Lemma fsub_same_cases x y :
  same_float x y -> (exists s, fsub x y = S754_zero s) \/ fsub x y = S754_nan.
Proof.
  assert (Hd : forall x, (exists s, fsub x x = S754_zero s) \/ fsub x x = S754_nan).
  { intros [[]|[]| |s m e]; try (left; eexists; reflexivity); try (by right).
    left. exists false. unfold fsub, SFsub. rewrite Z.sub_diag. reflexivity. }
  intros [->|E]; [apply Hd|].
  destruct x as [sx|sx| |sx mx ex];
    [| | discriminate E
     | rewrite (feq_finite_eq _ y sx mx ex eq_refl E); apply Hd];
    destruct y as [sy|sy| |sy my ey], sx; try destruct sy;
    try discriminate E;
    first [ left; eexists; reflexivity | right; reflexivity ].
Qed.

Lemma normalize_null_nan (a b : vec3) :
  same_position a b -> vlength (normalize (vsub a b)) = S754_nan.
Proof.
  intros (Hx & Hy & Hz). unfold vsub.
  destruct (fsub_same_cases _ _ Hx) as [[[] ->] | ->],
           (fsub_same_cases _ _ Hy) as [[[] ->] | ->],
           (fsub_same_cases _ _ Hz) as [[[] ->] | ->]; vm_compute; reflexivity.
Qed.

Section Degenerate.
Context {G : geomtype} {scene : Scene}.

Lemma CheckParticleSolidConstraints_body_null sim p :
  same_position (m_p p) (m_pt p) ->
  CheckParticleSolidConstraints_body sim p = p.
Proof.
  intros Hp. unfold CheckParticleSolidConstraints_body.
  destruct (m_type p =? FLUID); [|done].
  cbv zeta. rewrite normalize_null_nan by done. reflexivity.
Qed.

Lemma AdjustParticlesStuckInSolids_raycast_null sim p :
  same_position (m_p p) (m_pt p) ->
  AdjustParticlesStuckInSolids_raycast sim p = p.
Proof.
  intros Hp. unfold AdjustParticlesStuckInSolids_raycast.
  cbv zeta. rewrite normalize_null_nan by done. reflexivity.
Qed.

Lemma CheckParticleSolidConstraints_lookup sim n p :
  m_particles sim !! n = Some p ->
  m_particles (CheckParticleSolidConstraints sim) !! n
  = Some (CheckParticleSolidConstraints_body sim p).
Proof.
  intros Hn. unfold CheckParticleSolidConstraints.
  cbn [m_particles with_particles].
  rewrite for_n_alter_lookup, Hn. apply lookup_lt_Some in Hn.
  case_decide; [done|lia].
Qed.

Lemma AdjustParticlesStuckInSolids_raycasts_null sim stuck ps n p :
  ps !! n = Some p -> same_position (m_p p) (m_pt p) ->
  AdjustParticlesStuckInSolids_raycasts sim stuck ps !! n = Some p.
Proof.
  intros Hn Hp. unfold AdjustParticlesStuckInSolids_raycasts. cbv zeta.
  rewrite (for_n_lookup_fold (fun m ps =>
    alter (AdjustParticlesStuckInSolids_raycast sim) m ps)).
  revert ps Hn. induction stuck as [|m stuck IH]; intros ps Hn; [done|].
  cbn [fold_left]. apply IH.
  destruct (decide (m = n)) as [->|Hne].
  - rewrite list_lookup_alter_eq, Hn. cbn [fmap option_fmap option_map].
    by rewrite AdjustParticlesStuckInSolids_raycast_null.
  - by rewrite list_lookup_alter_ne.
Qed.
End Degenerate.

(** C8. A fluid particle whose position equals its stored previous
    position (component by component, for [==] or bit for bit) has a NaN
    ray direction; [CheckParticleSolidConstraints] leaves it as it is
    (position, velocity and every other field), and so does the raycast
    loop of [AdjustParticlesStuckInSolids], whatever the list of stuck
    particles. *)
Theorem degenerate_ray_skipped {G : geomtype} {scene : Scene} (sim : FlipSim)
    (n : nat) (p : Particle) (stuck : list nat) (ps : list Particle) :
  m_particles sim !! n = Some p ->
  ps !! n = Some p ->
  m_type p = FLUID ->
  same_position (m_p p) (m_pt p) ->
  m_particles (CheckParticleSolidConstraints sim) !! n = Some p
  /\ AdjustParticlesStuckInSolids_raycasts sim stuck ps !! n = Some p.
Proof.
  intros Hn Hps _ Hp. split.
  - rewrite (CheckParticleSolidConstraints_lookup sim n p Hn).
    by rewrite CheckParticleSolidConstraints_body_null.
  - by apply AdjustParticlesStuckInSolids_raycasts_null.
Qed.

Lemma degenerate_ray_skipped_witness :
  let G := geomtype_012 in
  let scene := SimExamples.wall in
  let ps := [SimExamples.mover; SimExamples.sitter] in
  let sim := SimExamples.sim4 ps in
  m_particles (CheckParticleSolidConstraints sim) !! 1%nat
    = Some SimExamples.sitter
  /\ AdjustParticlesStuckInSolids_raycasts sim [1%nat; 0%nat; 1%nat] ps !! 1%nat
    = Some SimExamples.sitter.
Proof.
  intros G scene ps sim.
  apply (degenerate_ray_skipped sim 1 SimExamples.sitter);
    first [reflexivity | (repeat split; left; reflexivity)].
Defined.

(** ** The solid constraint *)


(** The same run with the stored previous velocity (2^64,0,0), whose
    squared length overflows: the new velocity is not a number in its
    third component and infinite in the others. With the stored previous
    velocity (2^-100,0,0), whose squared length underflows, the new
    velocity is zero. *)
Lemma reflected_speed_not_finite :
  let G := geomtype_012 in
  let scene := SimExamples.wall in
  m_u (CheckParticleSolidConstraints_body
         (SimExamples.sim4 [SimExamples.hasty]) SimExamples.hasty)
  = mkvec3 (S754_infinity false) (S754_infinity true) S754_nan
  /\ m_ut SimExamples.crawler
     = mkvec3 (S754_finite false 8388608 (-123)) zero zero
  /\ m_u (CheckParticleSolidConstraints_body
            (SimExamples.sim4 [SimExamples.crawler]) SimExamples.crawler)
     = mkvec3 (S754_zero false) (S754_zero true) (S754_zero true).
Proof. vm_compute. repeat split; reflexivity. Qed.



(** ** Advection *)

Lemma for_n_alter_map {A} (f : A -> A) (l : list A) :
  for_n (length l) (fun i ps => alter f i ps) l = f <$> l.
Proof.
  apply list_eq. intros k. rewrite for_n_alter_lookup, list_lookup_fmap.
  case_decide as Hk; [reflexivity|].
  rewrite (lookup_ge_None_2 l k) by lia. reflexivity.
Qed.

(** A loop whose round [i] writes only the entry [i] of a list. *)
Lemma for_n_local {A} (body : nat -> list A -> list A) m n (ps : list A) :
  (forall i ps k, k <> i -> body i ps !! k = ps !! k) ->
  for_n m body ps !! n
  = if decide (n < m)%nat then body n (for_n n body ps) !! n else ps !! n.
Proof.
  intros Hloc. induction m as [|m IH]; [by case_decide; [lia|]|].
  rewrite for_n_S. destruct (decide (n = m)) as [->|Hne].
  - by rewrite decide_True by lia.
  - rewrite Hloc by done. rewrite IH.
    destruct (decide (n < m)%nat), (decide (n < Datatypes.S m)%nat); try lia; done.
Qed.

Lemma flt_fle a b : flt a b = true -> fle a b = true.
Proof. unfold flt, fle, SFltb, SFleb. by destruct (SFcompare a b) as [[]|]. Qed.

Lemma SFcompare_refl x : x <> S754_nan -> SFcompare x x = Some Eq.
Proof.
  destruct x as [s|s| |s m e]; intros Hx; try done.
  - by destruct s.
  - cbn [SFcompare]. rewrite Z.compare_refl, Pos.compare_cont_refl.
    by destruct s.
Qed.

Lemma fle_refl_l a b : fle a b = true -> fle a a = true.
Proof.
  intros H. unfold fle, SFleb. rewrite SFcompare_refl; [done|].
  intros ->. discriminate.
Qed.
Lemma fle_refl_r a b : fle a b = true -> fle b b = true.
Proof.
  intros H. unfold fle, SFleb. rewrite SFcompare_refl; [done|].
  intros ->. unfold fle, SFleb in H. by destruct a.
Qed.

(** The clamp lands in the closed interval. *)
Lemma clamp_bounds lo hi x :
  fle lo hi = true ->
  fle lo (fmax lo (fmin hi x)) = true /\ fle (fmax lo (fmin hi x)) hi = true.
Proof.
  intros H. unfold fmax, fmin.
  destruct (flt x hi) eqn:E1.
  - destruct (flt lo x) eqn:E2.
    + split; by apply flt_fle.
    + split; [by apply (fle_refl_l lo hi)|done].
  - destruct (flt lo hi) eqn:E2.
    + split; [done|by apply (fle_refl_r lo hi)].
    + split; [by apply (fle_refl_l lo hi)|done].
Qed.

Section Advect.
Context {G : geomtype}.
Variable IV : vec3 -> MacGrid -> heap -> vec3.

Lemma stable_refl ps : stable ps ps.
Proof. split; [done|]. intros k a Ha. exists a. done. Qed.

Lemma stable_trans ps1 ps2 ps3 :
  stable ps1 ps2 -> stable ps2 ps3 -> stable ps1 ps3.
Proof.
  intros [Hl1 H1] [Hl2 H2]. split; [congruence|].
  intros k a Ha. destruct (H1 k a Ha) as (b & Hb & Hbt & Hbe).
  destruct (H2 k b Hb) as (c & Hc & Hct & Hce).
  exists c. split; [done|]. split; [congruence|].
  intros Hna. rewrite Hce by congruence. by apply Hbe.
Qed.

(** Replacing a FLUID particle by a particle of the same type. *)
Lemma stable_insert ps n a b :
  ps !! n = Some a -> m_type a = FLUID -> m_type b = FLUID ->
  stable ps (<[n := b]> ps).
Proof.
  intros Ha Hta Htb. split; [by rewrite length_insert|].
  intros k c Hc. destruct (decide (k = n)) as [->|Hne].
  - exists b. rewrite list_lookup_insert_eq by (by eapply lookup_lt_Some).
    assert (c = a) by congruence. subst c.
    split; [done|]. split; [congruence|]. intros; congruence.
  - exists c. by rewrite list_lookup_insert_ne.
Qed.

Lemma stable_alter ps n (f : Particle -> Particle) :
  (forall a, m_type (f a) = m_type a) ->
  (forall a, m_type a <> FLUID -> f a = a) ->
  stable ps (alter f n ps).
Proof.
  intros Hft Hfe. split; [by rewrite length_alter|].
  intros k c Hc. destruct (decide (k = n)) as [->|Hne].
  - exists (f c). rewrite list_lookup_alter_eq, Hc. auto.
  - exists c. by rewrite list_lookup_alter_ne.
Qed.

Lemma push_other sim maxd p0 p1 ps k :
  k <> p0 -> AdvectParticles_push sim maxd p0 p1 ps !! k = ps !! k.
Proof.
  intros Hk. unfold AdvectParticles_push.
  repeat case_match; try done; by rewrite list_lookup_insert_ne.
Qed.

Lemma push_stable sim maxd p0 p1 ps :
  (exists a, ps !! p0 = Some a /\ m_type a = FLUID) ->
  stable ps (AdvectParticles_push sim maxd p0 p1 ps)
  /\ exists a, AdvectParticles_push sim maxd p0 p1 ps !! p0 = Some a
               /\ m_type a = FLUID.
Proof.
  intros (a & Ha & Hta). unfold AdvectParticles_push. rewrite Ha.
  destruct (ps !! p1) as [np|]; [|split; [apply stable_refl|eauto]].
  destruct (m_type np =? SOLID); [|split; [apply stable_refl|eauto]].
  destruct (flt _ _); [|split; [apply stable_refl|eauto]].
  cbv zeta. split.
  - by apply (stable_insert ps p0 a).
  - eexists. rewrite list_lookup_insert_eq by (by eapply lookup_lt_Some).
    split; [done|]. done.
Qed.

Lemma pushes_other sim maxd p0 (nb : list nat) ps k :
  k <> p0 ->
  fold_left (fun ps np => AdvectParticles_push sim maxd p0 np ps) nb ps !! k
  = ps !! k.
Proof.
  intros Hk. revert ps. induction nb as [|np nb IH]; intros ps; [done|].
  cbn [fold_left]. rewrite IH. by apply push_other.
Qed.

Lemma pushes_stable sim maxd p0 (nb : list nat) ps :
  (exists a, ps !! p0 = Some a /\ m_type a = FLUID) ->
  stable ps (fold_left (fun ps np => AdvectParticles_push sim maxd p0 np ps) nb ps).
Proof.
  revert ps. induction nb as [|np nb IH]; intros ps Hp; [apply stable_refl|].
  cbn [fold_left]. destruct (push_stable sim maxd p0 np ps Hp) as [Hs Hp'].
  eapply stable_trans; [exact Hs|]. by apply IH.
Qed.

Lemma clamp_type maxd a : m_type (AdvectParticles_clamp maxd a) = m_type a.
Proof. unfold AdvectParticles_clamp. by destruct (m_type a =? FLUID). Qed.

Lemma clamp_not_fluid maxd a :
  m_type a <> FLUID -> AdvectParticles_clamp maxd a = a.
Proof.
  intros H. unfold AdvectParticles_clamp.
  destruct (Z.eqb_spec (m_type a) FLUID); [done|done].
Qed.

Lemma constrain_other sim pgrid x y z maxd p0 ps k :
  k <> p0 ->
  AdvectParticles_constrain sim pgrid x y z maxd p0 ps !! k = ps !! k.
Proof.
  intros Hk. unfold AdvectParticles_constrain. cbv zeta.
  destruct (alter (AdvectParticles_clamp maxd) p0 ps !! p0) as [p|];
    [|by rewrite list_lookup_alter_ne].
  destruct (m_type p =? FLUID); [|by rewrite list_lookup_alter_ne].
  rewrite (for_n_lookup_fold (fun np ps => AdvectParticles_push sim maxd p0 np ps)).
  rewrite pushes_other by done. by rewrite list_lookup_alter_ne.
Qed.

Lemma constrain_stable sim pgrid x y z maxd p0 ps :
  stable ps (AdvectParticles_constrain sim pgrid x y z maxd p0 ps).
Proof.
  unfold AdvectParticles_constrain. cbv zeta.
  assert (Hs : stable ps (alter (AdvectParticles_clamp maxd) p0 ps)).
  { apply stable_alter; [apply clamp_type|apply clamp_not_fluid]. }
  destruct (alter (AdvectParticles_clamp maxd) p0 ps !! p0) as [p|] eqn:Hp; [|done].
  destruct (Z.eqb_spec (m_type p) FLUID) as [Hf|]; [|done].
  rewrite (for_n_lookup_fold (fun np ps => AdvectParticles_push sim maxd p0 np ps)).
  eapply stable_trans; [exact Hs|]. apply pushes_stable. eauto.
Qed.

Lemma constrains_stable sim pgrid x y z maxd m ps :
  stable ps (for_n m (AdvectParticles_constrain sim pgrid x y z maxd) ps).
Proof.
  induction m as [|m IH]; [apply stable_refl|].
  rewrite for_n_S. eapply stable_trans; [exact IH|apply constrain_stable].
Qed.

Lemma move_stable sim ps : stable ps (AdvectParticles_move IV sim <$> ps).
Proof.
  split; [by rewrite length_fmap|].
  intros k a Ha. exists (AdvectParticles_move IV sim a).
  rewrite list_lookup_fmap, Ha. split; [done|].
  unfold AdvectParticles_move.
  destruct (Z.eqb_spec (m_type a) FLUID); [|done].
  split; [done|]. intros; congruence.
Qed.
End Advect.

Section AdvectMain.
Context {G : geomtype}.
Variable IV : vec3 -> MacGrid -> heap -> vec3.

Lemma pushes_none sim maxd p0 (nb : list nat) ps :
  (forall np, np ∈ nb -> AdvectParticles_push sim maxd p0 np ps = ps) ->
  fold_left (fun ps np => AdvectParticles_push sim maxd p0 np ps) nb ps = ps.
Proof.
  induction nb as [|np nb IH]; intros H; [done|].
  cbn [fold_left]. rewrite H by left. apply IH.
  intros np' Hnp'. apply H. by right.
Qed.

Lemma clamp_in_walls maxd v :
  fle (fdiv one maxd) (fsub one (fdiv one maxd)) = true ->
  in_walls (fdiv one maxd) (fsub one (fdiv one maxd)) (wall_clamp maxd v).
Proof.
  intros H. unfold in_walls, wall_clamp. cbn [vmax vmin vsplat vx vy vz].
  repeat split; by apply clamp_bounds.
Qed.

Lemma AdvectParticles_lookup_no_push (sim : FlipSim) (n : nat) (q0 : Particle) :
  let maxd := maxd_of (m_dimensions sim) in
  let qc := AdvectParticles_clamp maxd (AdvectParticles_move IV sim q0) in
  let pgrid := Sort maxd (AdvectParticles_move IV sim <$> m_particles sim) in
  let cell := AdvectParticles_cell (F2U (vx (m_dimensions sim)))
                (F2U (vy (m_dimensions sim))) (F2U (vz (m_dimensions sim)))
                maxd qc in
  m_particles sim !! n = Some q0 ->
  m_type q0 = FLUID ->
  (forall p1 np, p1 ∈ GetCellNeighbors pgrid cell (vsplat one) ->
     m_particles sim !! p1 = Some np -> m_type np = SOLID ->
     flt (vlength (vsub (m_p qc) (m_p np))) (solid_reach sim) = false) ->
  m_particles (AdvectParticles IV sim) !! n = Some qc.
Proof.
  intros maxd qc pgrid cell Hn Hf Hsolid.
  unfold AdvectParticles. cbn [m_particles with_particles with_pgrid].
  rewrite for_n_alter_map. fold maxd. fold pgrid.
  set (ps1 := AdvectParticles_move IV sim <$> m_particles sim).
  set (x := F2U (vx (m_dimensions sim))) in *.
  set (y := F2U (vy (m_dimensions sim))) in *.
  set (z := F2U (vz (m_dimensions sim))) in *.
  assert (Hlen : length ps1 = length (m_particles sim)).
  { unfold ps1. by rewrite length_fmap. }
  pose proof (lookup_lt_Some _ _ _ Hn) as Hlt.
  rewrite (for_n_local _ _ n) by (intros; by apply constrain_other).
  rewrite decide_True by lia.
  set (psn := for_n n (AdvectParticles_constrain sim pgrid x y z maxd) ps1).
  assert (Hpsn : psn !! n = Some (AdvectParticles_move IV sim q0)).
  { unfold psn. rewrite (for_n_local _ _ n) by (intros; by apply constrain_other).
    rewrite decide_False by lia. unfold ps1. by rewrite list_lookup_fmap, Hn. }
  assert (Hst : stable (m_particles sim) psn).
  { eapply stable_trans; [apply (move_stable IV)|apply constrains_stable]. }
  assert (Hq1 : m_type (AdvectParticles_move IV sim q0) = FLUID).
  { unfold AdvectParticles_move. by destruct (m_type q0 =? FLUID). }
  assert (Hqc : m_type qc = FLUID).
  { unfold qc. by rewrite clamp_type. }
  unfold AdvectParticles_constrain. cbv zeta.
  rewrite list_lookup_alter_eq, Hpsn. cbn [fmap option_fmap option_map].
  fold qc. rewrite Hqc, Z.eqb_refl. fold cell.
  rewrite (for_n_lookup_fold (fun np ps => AdvectParticles_push sim maxd n np ps)).
  rewrite pushes_none; [by rewrite list_lookup_alter_eq, Hpsn|].
  intros p1 Hp1. unfold AdvectParticles_push.
  rewrite list_lookup_alter_eq, Hpsn. cbn [fmap option_fmap option_map]. fold qc.
  destruct (decide (p1 = n)) as [->|Hne].
  - rewrite list_lookup_alter_eq, Hpsn. cbn [fmap option_fmap option_map]. fold qc.
    rewrite Hqc. destruct (Z.eqb_spec FLUID SOLID) as [E|]; [|done].
    by destruct FLUID_SOLID.
  - rewrite list_lookup_alter_ne by done.
    destruct (psn !! p1) as [np|] eqn:Hnp; [|done].
    destruct (Z.eqb_spec (m_type np) SOLID) as [Hs|]; [|done].
    destruct Hst as [Hl Hst].
    destruct (lookup_lt_is_Some_2 (m_particles sim) p1) as [a Ha].
    { rewrite <- Hl. by eapply lookup_lt_Some. }
    destruct (Hst p1 a Ha) as (b & Hb & Hbt & Hbe).
    assert (b = np) by congruence. subst b.
    assert (np = a).
    { apply Hbe. rewrite <- Hbt, Hs. intros E. by destruct FLUID_SOLID. }
    subst a. fold (solid_reach sim) in *. unfold solid_reach. fold maxd.
    pose proof (Hsolid p1 np Hp1 Ha Hs) as Hd. unfold solid_reach in Hd.
    fold maxd in Hd. by rewrite Hd.
Qed.
End AdvectMain.

(** C3, counterexample. A fluid particle sitting on the wall coordinate
    1/maxd = 1/4 with a solid particle 1/16 away, closer than the reach
    1.5·density/maxd = 3/16: after the clamp the particle is pushed along
    the solid particle's normal to x = 1/8, below 1/maxd. *)
Lemma AdvectParticles_pushed_out_of_walls :
  let G := geomtype_012 in
  let sim := SimExamples.sim4 [SimExamples.near_wall; SimExamples.pusher] in
  let r := fdiv one (maxd_of (m_dimensions sim)) in
  exists p', m_particles (AdvectParticles SimExamples.still sim) !! 0%nat = Some p'
    /\ m_type p' = FLUID
    /\ r = lit 1 4
    /\ fle r (fsub one r) = true
    /\ vx (m_p p') = lit 1 8
    /\ fle r (vx (m_p p')) = false.
Proof. eexists. vm_compute. repeat split; reflexivity. Qed.

(** C3, amended. After [AdvectParticles], a FLUID particle has every
    component of its position in the closed interval
    [1/maxd, 1 − 1/maxd] provided that 1/maxd ≤ 1 − 1/maxd and that no
    SOLID particle among the neighbours returned for its cell is closer to
    its clamped position than the reach 1.5·density/maxd; the position is
    then exactly the clamped position. *)
Theorem AdvectParticles_in_walls {G : geomtype}
    (InterpolateVelocity : vec3 -> MacGrid -> heap -> vec3)
    (sim : FlipSim) (n : nat) (q0 : Particle) :
  let maxd := maxd_of (m_dimensions sim) in
  let r := fdiv one maxd in
  let moved := AdvectParticles_move InterpolateVelocity sim q0 in
  let qc := AdvectParticles_clamp maxd moved in
  let pgrid :=
    Sort maxd (AdvectParticles_move InterpolateVelocity sim <$> m_particles sim) in
  let cell := AdvectParticles_cell (F2U (vx (m_dimensions sim)))
                (F2U (vy (m_dimensions sim))) (F2U (vz (m_dimensions sim)))
                maxd qc in
  m_particles sim !! n = Some q0 ->
  m_type q0 = FLUID ->
  fle r (fsub one r) = true ->
  (forall p1 np, p1 ∈ GetCellNeighbors pgrid cell (vsplat one) ->
     m_particles sim !! p1 = Some np -> m_type np = SOLID ->
     flt (vlength (vsub (m_p qc) (m_p np))) (solid_reach sim) = false) ->
  exists p', m_particles (AdvectParticles InterpolateVelocity sim) !! n = Some p'
    /\ m_type p' = FLUID
    /\ m_p p' = wall_clamp maxd (m_p moved)
    /\ in_walls r (fsub one r) (m_p p').
Proof.
  intros maxd r moved qc pgrid cell Hn Hf Hr Hsolid.
  exists qc. split.
  - by apply AdvectParticles_lookup_no_push.
  - assert (Hm : m_type moved = FLUID).
    { unfold moved, AdvectParticles_move. by destruct (m_type q0 =? FLUID). }
    unfold qc, AdvectParticles_clamp. rewrite Hm, Z.eqb_refl.
    cbn [set_p m_type m_p]. split; [done|]. split; [done|].
    by apply clamp_in_walls.
Qed.

Lemma AdvectParticles_in_walls_witness :
  let G := geomtype_012 in
  let sim := SimExamples.sim4 [SimExamples.near_wall; SimExamples.far_solid] in
  let r := fdiv one (maxd_of (m_dimensions sim)) in
  exists p', m_particles (AdvectParticles SimExamples.still sim) !! 0%nat = Some p'
    /\ m_type p' = FLUID
    /\ m_p p' = wall_clamp (maxd_of (m_dimensions sim))
                  (m_p (AdvectParticles_move SimExamples.still sim SimExamples.near_wall))
    /\ in_walls r (fsub one r) (m_p p').
Proof.
  intros G sim r.
  apply (AdvectParticles_in_walls SimExamples.still sim 0 SimExamples.near_wall);
    [reflexivity | reflexivity | vm_compute; reflexivity |].
  intros p1 np _ Hl Hs.
  destruct p1 as [|[|p1]]; cbn in Hl; [| |discriminate].
  - injection Hl as <-. vm_compute in Hs. discriminate.
  - injection Hl as <-. vm_compute. reflexivity.
Defined.

(** ** Velocity extrapolation: lists of writes *)

Lemma getCell_None {T} `{Inhabited T} (h : gmap loc (Grid T)) l i j k :
  h !! l = None -> getCell h l i j k = inhabitant.
Proof. intros Hl. unfold getCell. by rewrite Hl. Qed.

Lemma setCell_lookup_None {T} (h : gmap loc (Grid T)) l l' i j k (v : T) :
  h !! l' = None -> setCell h l i j k v !! l' = None.
Proof.
  intros Hl. destruct (decide (l = l')) as [->|Hne].
  - rewrite setCell_lookup_eq, Hl. done.
  - by rewrite setCell_lookup_ne.
Qed.

Lemma getCell_setCell_other {T} `{Inhabited T} (h : gmap loc (Grid T))
    l i j k l' i' j' k' (v : T) :
  ~ (l = l' /\ (i, j, k) = (i', j', k')) ->
  getCell (setCell h l i j k v) l' i' j' k' = getCell h l' i' j' k'.
Proof.
  intros Hne. destruct (decide (l = l')) as [->|Hl].
  - apply getCell_setCell_ne_cell. intros E. by apply Hne.
  - by apply getCell_setCell_ne_loc.
Qed.

Lemma applyW_cons l i j k v ws fg :
  applyW ((l, (i, j, k), v) :: ws) fg = applyW ws (setCell fg l i j k v).
Proof. reflexivity. Qed.

Lemma applyW_app ws1 ws2 fg :
  applyW (ws1 ++ ws2) fg = applyW ws2 (applyW ws1 fg).
Proof. unfold applyW. by rewrite fold_left_app. Qed.

Lemma applyW_lookup_None ws fg l :
  fg !! l = None -> applyW ws fg !! l = None.
Proof.
  revert fg. induction ws as [|[[l' [[i j] k]] v] ws IH]; intros fg Hl; [done|].
  rewrite applyW_cons. apply IH. by apply setCell_lookup_None.
Qed.

Lemma applyW_is_Some ws fg l :
  is_Some (fg !! l) -> is_Some (applyW ws fg !! l).
Proof.
  revert fg. induction ws as [|[[l' [[i j] k]] v] ws IH]; intros fg Hl; [done|].
  rewrite applyW_cons. apply IH. by apply setCell_is_Some.
Qed.

(** What a cell holds after a list of writes. *)
Lemma getCell_applyW ws fg l i j k :
  is_Some (fg !! l) ->
  getCell (applyW ws fg) l i j k
  = default (getCell fg l i j k) (last_write ws l (i, j, k)).
Proof.
  revert fg. induction ws as [|[[l' [[i' j'] k']] v] ws IH]; intros fg Hl; [done|].
  rewrite applyW_cons, IH by (by apply setCell_is_Some).
  cbn [last_write]. destruct (last_write ws l (i, j, k)) as [v'|]; [done|].
  case_decide as E; cbn [default].
  - destruct E as [-> E]. injection E as -> -> ->. by apply getCell_setCell_eq.
  - apply getCell_setCell_other. intros [-> E']. apply E. by rewrite E'.
Qed.

(** Applying the same writes a second time changes nothing. *)
Lemma applyW_twice ws fg l i j k :
  getCell (applyW ws (applyW ws fg)) l i j k = getCell (applyW ws fg) l i j k.
Proof.
  destruct (fg !! l) as [g|] eqn:Hl.
  - rewrite getCell_applyW by (apply applyW_is_Some; by rewrite Hl).
    rewrite getCell_applyW by (by rewrite Hl).
    by destruct (last_write ws l (i, j, k)).
  - rewrite !getCell_None; [done|by apply applyW_lookup_None|].
    apply applyW_lookup_None. by apply applyW_lookup_None.
Qed.

Section Determined.
Variable M : loc -> coord -> Prop.
Variable f0 : gmap loc (Grid float).

Lemma agree_refl : agree M f0 f0.
Proof. by intros l i j k _. Qed.

Lemma agree_applyW ws fg :
  Forall (fun '(l, c, _) => ~ M l c) ws ->
  agree M f0 fg -> agree M f0 (applyW ws fg).
Proof.
  revert fg. induction ws as [|[[l' [[i' j'] k']] v] ws IH]; intros fg Hws Ha; [done|].
  apply Forall_cons in Hws as [Hw Hws]. rewrite applyW_cons.
  apply IH; [done|]. intros l i j k Hm.
  rewrite getCell_setCell_other; [by apply Ha|].
  intros [-> E]. rewrite E in Hw. by apply Hw.
Qed.

Lemma determined_id : determined M f0 (fun fg => fg).
Proof. exists []. split; [constructor|done]. Qed.

Lemma determined_comp T1 T2 :
  determined M f0 T1 -> determined M f0 T2 ->
  determined M f0 (fun fg => T2 (T1 fg)).
Proof.
  intros (ws1 & Ho1 & H1) (ws2 & Ho2 & H2). exists (ws1 ++ ws2).
  split; [by apply Forall_app|].
  intros fg Ha. rewrite applyW_app, H1 by done.
  apply H2. by apply agree_applyW.
Qed.

Lemma determined_fold {B} (F : B -> gmap loc (Grid float) -> gmap loc (Grid float))
    (l : list B) :
  (forall x, x ∈ l -> determined M f0 (F x)) ->
  determined M f0 (fun fg => fold_left (fun fg x => F x fg) l fg).
Proof.
  induction l as [|x l IH]; intros HF; [apply determined_id|].
  cbn [fold_left].
  apply (determined_comp (F x) (fun fg => fold_left (fun fg x => F x fg) l fg)).
  - apply HF. left.
  - apply IH. intros y Hy. apply HF. by right.
Qed.

Lemma determined_for_gn n (body : Z -> gmap loc (Grid float) -> gmap loc (Grid float)) :
  (forall i, 0 <= i < n -> determined M f0 (body i)) ->
  determined M f0 (for_gn n body).
Proof.
  intros Hb. unfold for_gn. apply (determined_fold body).
  intros i Hi. apply Hb. apply elem_of_seqZ in Hi. lia.
Qed.

(** A determined pass run twice gives what it gives when run once. *)
Lemma determined_idem T l i j k :
  determined M f0 T ->
  getCell (T (T f0)) l i j k = getCell (T f0) l i j k.
Proof.
  intros (ws & Ho & HT).
  rewrite (HT f0) by apply agree_refl.
  rewrite HT by (apply agree_applyW; [done|apply agree_refl]).
  apply applyW_twice.
Qed.
End Determined.

(** ** The extrapolation pass *)

Lemma fold_left_ext_all {A B} (f g : A -> B -> A) (l : list B) a :
  (forall a x, f a x = g a x) -> fold_left f l a = fold_left g l a.
Proof.
  intros H. revert a. induction l as [|x l IH]; intros a; [done|].
  cbn [fold_left]. by rewrite H, IH.
Qed.

Section ExtrapolatePass.
Context {G : geomtype}.
Variables (ig : gmap loc (Grid Z)) (mgrid : MacGrid) (x y z : Z).
Variables (mark wallmark : Z -> loc).
Hypothesis distinct_fields : NoDup [m_u_x mgrid; m_u_y mgrid; m_u_z mgrid].

Lemma u_of_inj n n' :
  0 <= n < 3 -> 0 <= n' < 3 -> u_of mgrid n = u_of mgrid n' -> n = n'.
Proof.
  intros Hn Hn'. unfold u_of, sel3.
  apply NoDup_cons in distinct_fields as [Hx Hyz].
  apply NoDup_cons in Hyz as [Hy _].
  rewrite !not_elem_of_cons in Hx. rewrite not_elem_of_cons in Hy.
  destruct Hx as (Hxy & Hxz & _), Hy as (Hyz & _).
  assert (Hc : n = 0 \/ n = 1 \/ n = 2) by lia.
  assert (Hc' : n' = 0 \/ n' = 1 \/ n' = 2) by lia.
  destruct Hc as [->|[->| ->]], Hc' as [->|[->| ->]]; cbn; congruence.
Qed.

Lemma gather_agree f0 fg i j k n :
  0 <= n < 3 ->
  agree (marked ig mgrid mark) f0 fg ->
  ExtrapolateVelocity_gather ig mgrid x y z mark i j k n fg
  = ExtrapolateVelocity_gather ig mgrid x y z mark i j k n f0.
Proof.
  intros Hn Ha. unfold ExtrapolateVelocity_gather.
  apply fold_left_ext_all. intros [wsum sum] q.
  destruct (face_in_range x y z n q); [|done].
  destruct (Z.eqb_spec (getCell ig (mark n) (F2Z (vx q)) (F2Z (vy q)) (F2Z (vz q))) 0)
    as [E|E]; [done|].
  cbn [negb]. rewrite <- (Ha (u_of mgrid n)); [done|].
  exists n. done.
Qed.

Lemma face_determined f0 i j k n :
  0 <= n < 3 ->
  determined (marked ig mgrid mark) f0
    (ExtrapolateVelocity_face ig mgrid x y z mark wallmark i j k n).
Proof.
  intros Hn. unfold ExtrapolateVelocity_face.
  destruct (negb (n =? 0) && _); [apply determined_id|].
  destruct (negb (n =? 1) && _); [apply determined_id|].
  destruct (negb (n =? 2) && _); [apply determined_id|].
  destruct (Z.eqb_spec (getCell ig (mark n) i j k) 0) as [Hm|];
    [|apply determined_id].
  destruct (negb (getCell ig (wallmark n) i j k =? 0)); [|apply determined_id].
  cbn [andb].
  destruct (ExtrapolateVelocity_gather ig mgrid x y z mark i j k n f0)
    as [wsum sum] eqn:Hg.
  destruct (negb (wsum =? 0)) eqn:Hw.
  - exists [(u_of mgrid n, (i, j, k), fdiv sum (Z2F wsum))]. split.
    + constructor; [|constructor].
      intros (n' & Hn' & Hu & Hmk). cbn in Hmk.
      apply u_of_inj in Hu; [|done..]. subst n'. by apply Hmk.
    + intros fg Ha. rewrite (gather_agree f0 fg) by done.
      rewrite Hg, Hw. reflexivity.
  - exists []. split; [constructor|].
    intros fg Ha. rewrite (gather_agree f0 fg) by done.
    rewrite Hg, Hw. reflexivity.
Qed.

Lemma pass_determined f0 :
  determined (marked ig mgrid mark) f0
    (ExtrapolateVelocity_pass ig mgrid x y z mark wallmark).
Proof.
  unfold ExtrapolateVelocity_pass.
  apply determined_for_gn. intros i _.
  apply determined_for_gn. intros j _.
  apply determined_for_gn. intros k _.
  apply determined_for_gn. intros n Hn.
  by apply face_determined.
Qed.

Lemma pass_idempotent f0 l i j k :
  getCell (ExtrapolateVelocity_pass ig mgrid x y z mark wallmark
             (ExtrapolateVelocity_pass ig mgrid x y z mark wallmark f0)) l i j k
  = getCell (ExtrapolateVelocity_pass ig mgrid x y z mark wallmark f0) l i j k.
Proof.
  apply (determined_idem (marked ig mgrid mark) f0), pass_determined.
Qed.
End ExtrapolatePass.

(** ** The temporary grids of the extrapolation *)

Lemma for_gn_3 {S} (body : Z -> S -> S) s :
  for_gn 3 body s = body 2 (body 1 (body 0 s)).
Proof. reflexivity. Qed.

Section ExtrapolateMarks.
Context {G : geomtype}.

Lemma marks_frame A0 x y z (mark wallmark : Z -> loc) ig l :
  (forall n, l <> mark n) -> (forall n, l <> wallmark n) ->
  ExtrapolateVelocity_marks A0 x y z mark wallmark ig !! l = ig !! l.
Proof.
  intros Hm Hw. unfold ExtrapolateVelocity_marks. cbv zeta.
  repeat (apply (for_gn_inv (fun ig' => ig' !! l = ig !! l)); [|intros ? ? _ ?]);
    try done;
    rewrite !setCell_lookup_ne by (apply not_eq_sym; first [apply Hm | apply Hw]);
    done.
Qed.

(** Once the six temporary grids are deleted the int grids are what
    they were before the pass. *)
Lemma marks_restored A0 x y z ig0 :
  let '(mark, wallmark, ig1) := ExtrapolateVelocity_alloc ig0 in
  ExtrapolateVelocity_delete mark wallmark
    (ExtrapolateVelocity_marks A0 x y z mark wallmark ig1) = ig0.
Proof.
  unfold ExtrapolateVelocity_alloc, new_grid. cbv zeta beta iota.
  set (e := mkGrid 0 ∅).
  set (m0 := fresh (dom ig0)). set (g1 := <[m0 := e]> ig0).
  set (w0 := fresh (dom g1)). set (g2 := <[w0 := e]> g1).
  set (m1 := fresh (dom g2)). set (g3 := <[m1 := e]> g2).
  set (w1 := fresh (dom g3)). set (g4 := <[w1 := e]> g3).
  set (m2 := fresh (dom g4)). set (g5 := <[m2 := e]> g4).
  set (w2 := fresh (dom g5)). set (g6 := <[w2 := e]> g5).
  assert (F0 : ig0 !! m0 = None) by apply not_elem_of_dom, is_fresh.
  assert (F1 : g1 !! w0 = None) by apply not_elem_of_dom, is_fresh.
  assert (F2 : g2 !! m1 = None) by apply not_elem_of_dom, is_fresh.
  assert (F3 : g3 !! w1 = None) by apply not_elem_of_dom, is_fresh.
  assert (F4 : g4 !! m2 = None) by apply not_elem_of_dom, is_fresh.
  assert (F5 : g5 !! w2 = None) by apply not_elem_of_dom, is_fresh.
  unfold g5 in F5. unfold g4 in F5, F4. unfold g3 in F5, F4, F3.
  unfold g2 in F5, F4, F3, F2. unfold g1 in F5, F4, F3, F2, F1.
  repeat match goal with
         | H : <[_ := _]> _ !! _ = None |- _ =>
             apply lookup_insert_None in H; destruct H
         end.
  unfold ExtrapolateVelocity_delete. rewrite for_gn_3.
  change (sel3 m0 m1 m2 0) with m0. change (sel3 m0 m1 m2 1) with m1.
  change (sel3 m0 m1 m2 2) with m2. change (sel3 w0 w1 w2 0) with w0.
  change (sel3 w0 w1 w2 1) with w1. change (sel3 w0 w1 w2 2) with w2.
  apply map_eq. intros l. rewrite !lookup_delete.
  repeat case_decide; subst; try done.
  rewrite marks_frame.
  - unfold g6, g5, g4, g3, g2, g1. by rewrite !lookup_insert_ne.
  - intros n. unfold sel3. repeat case_match; congruence.
  - intros n. unfold sel3. repeat case_match; congruence.
Qed.
End ExtrapolateMarks.

(** C6. [ExtrapolateVelocity] is idempotent: with the three face fields
    held in three distinct grids, running it twice in succession leaves in
    every cell of every float grid, in particular of [u_x], [u_y] and
    [u_z], exactly the value that one run leaves. The markers are not
    written by the pass, so they are the same for both runs. *)
Theorem ExtrapolateVelocity_idempotent {G : geomtype} (sim : FlipSim)
    (l : loc) (i j k : Z) :
  NoDup [m_u_x (m_mgrid sim); m_u_y (m_mgrid sim); m_u_z (m_mgrid sim)] ->
  fget (grids (ExtrapolateVelocity (ExtrapolateVelocity sim))) l i j k
  = fget (grids (ExtrapolateVelocity sim)) l i j k.
Proof.
  intros Hnd. unfold ExtrapolateVelocity at 1 3.
  set (x := F2U (vx (m_dimensions sim))).
  set (y := F2U (vy (m_dimensions sim))).
  set (z := F2U (vz (m_dimensions sim))).
  pose proof (marks_restored (m_A (m_mgrid sim)) x y z (intgrids (grids sim))) as Hr.
  unfold ExtrapolateVelocity. fold x y z.
  destruct (ExtrapolateVelocity_alloc (intgrids (grids sim)))
    as [[mark wallmark] ig1] eqn:Halloc.
  cbn [grids with_grids m_dimensions m_mgrid intgrids floatgrids].
  fold x y z. rewrite Hr, Halloc.
  cbn [grids with_grids m_dimensions m_mgrid intgrids floatgrids].
  unfold fget. cbn [floatgrids].
  by apply pass_idempotent.
Qed.

Lemma ExtrapolateVelocity_idempotent_witness :
  let G := geomtype_012 in
  let sim := SimExamples.solid_run in
  fget (grids (ExtrapolateVelocity (ExtrapolateVelocity sim))) 4%positive 2 0 0
  = fget (grids (ExtrapolateVelocity sim)) 4%positive 2 0 0
  /\ fget (grids (ExtrapolateVelocity sim)) 4%positive 2 0 0 = Z2F 3.
Proof.
  intros G sim. split; [|vm_compute; reflexivity].
  apply (ExtrapolateVelocity_idempotent sim 4%positive 2 0 0).
  apply (bool_decide_unpack _). vm_compute. exact I.
Defined.

(** * Properties of the other passes *)

(** ** Nested loops over a box of cells *)

Lemma fold_left_bind {A B C} (f : A -> C -> A) (g : B -> list C) (l : list B) a :
  fold_left f (l ≫= g) a = fold_left (fun a x => fold_left f (g x) a) l a.
Proof.
  revert a. induction l as [|x l IH]; intros a; [done|].
  rewrite bind_cons, fold_left_app. cbn [fold_left]. apply IH.
Qed.

Lemma for_gn_box {S} (F : Z -> Z -> Z -> S -> S) a b c s :
  for_gn a (fun i s => for_gn b (fun j s => for_gn c (fun k s => F i j k s) s) s) s
  = fold_left (fun s '(i, j, k) => F i j k s) (box a b c) s.
Proof.
  unfold for_gn, box. rewrite fold_left_bind.
  apply fold_left_ext_all. intros s' i.
  rewrite fold_left_bind. apply fold_left_ext_all. intros s'' j.
  rewrite fold_left_bind. apply fold_left_ext_all. intros s''' k.
  reflexivity.
Qed.

Lemma elem_of_box a b c i j k :
  (i, j, k) ∈ box a b c <-> 0 <= i < a /\ 0 <= j < b /\ 0 <= k < c.
Proof.
  unfold box. rewrite list_elem_of_bind. split.
  - intros (i' & H & Hi). apply list_elem_of_bind in H as (j' & H & Hj).
    apply list_elem_of_bind in H as (k' & H & Hk).
    apply list_elem_of_singleton in H. injection H as -> -> ->.
    apply elem_of_seqZ in Hi, Hj, Hk. lia.
  - intros (Hi & Hj & Hk). exists i. split; [|apply elem_of_seqZ; lia].
    apply list_elem_of_bind. exists j. split; [|apply elem_of_seqZ; lia].
    apply list_elem_of_bind. exists k. split; [|apply elem_of_seqZ; lia].
    apply list_elem_of_singleton. reflexivity.
Qed.

Lemma NoDup_box a b c : NoDup (box a b c).
Proof.
  unfold box. apply NoDup_bind; [| |apply NoDup_seqZ].
  - intros i i' [[a' b'] c'] _ _ H H'.
    apply list_elem_of_bind in H as (? & H & _).
    apply list_elem_of_bind in H as (? & H & _).
    apply list_elem_of_singleton in H.
    apply list_elem_of_bind in H' as (? & H' & _).
    apply list_elem_of_bind in H' as (? & H' & _).
    apply list_elem_of_singleton in H'. congruence.
  - intros i _. apply NoDup_bind; [| |apply NoDup_seqZ].
    + intros j j' [[a' b'] c'] _ _ H H'.
      apply list_elem_of_bind in H as (? & H & _).
      apply list_elem_of_singleton in H.
      apply list_elem_of_bind in H' as (? & H' & _).
      apply list_elem_of_singleton in H'. congruence.
    + intros j _. apply NoDup_bind; [| |apply NoDup_seqZ].
      * intros k k' [[a' b'] c'] _ _ H H'.
        apply list_elem_of_singleton in H, H'. congruence.
      * intros k _. apply NoDup_singleton.
Qed.


Lemma cellwise_spec t val cs h :
  NoDup cs ->
  is_Some (floatgrids h !! t) ->
  (forall c h', c ∈ cs -> same_but t h h' ->
     fget h' t c.1.1 c.1.2 c.2 = fget h t c.1.1 c.1.2 c.2 ->
     val c h' = val c h) ->
  same_but t h (cellwise t val cs h) /\
  is_Some (floatgrids (cellwise t val cs h) !! t) /\
  forall i j k,
    fget (cellwise t val cs h) t i j k
    = if decide ((i, j, k) ∈ cs)
      then default (fget h t i j k) (val (i, j, k) h)
      else fget h t i j k.
Proof.
  induction cs as [|c cs IH] using rev_ind; intros Hnd Hs Hval.
  - split; [apply same_but_refl|]. split; [done|]. intros i j k.
    rewrite decide_False; [done|]. apply not_elem_of_nil.
  - apply NoDup_app in Hnd as (Hnd & Hdis & _).
    destruct IH as (Hsb & Hs1 & Hget); [done|done| |].
    { intros c' h' Hc'. apply Hval. apply elem_of_app. by left. }
    unfold cellwise in *. rewrite fold_left_app. cbn [fold_left].
    set (h1 := fold_left _ cs h) in *.
    assert (Hc : c ∉ cs).
    { intros Hin. apply (Hdis c Hin). by left. }
    assert (Hv : val c h1 = val c h).
    { apply Hval; [apply elem_of_app; right; by left|done|].
      destruct c as [[i j] k]. rewrite Hget. by rewrite decide_False. }
    rewrite Hv. destruct (val c h) as [v|] eqn:Ev.
    + split; [|split].
      * eapply same_but_trans; [exact Hsb|]. apply fset_same_but.
      * by apply setCell_is_Some.
      * intros i j k. destruct (decide ((i, j, k) = c)) as [<-|Hne].
        -- cbn [fst snd]. unfold fget, fset. cbn [floatgrids].
           rewrite getCell_setCell_eq by done.
           rewrite decide_True by (apply elem_of_app; right; by left).
           by rewrite Ev.
        -- unfold fget, fset in *. cbn [floatgrids].
           rewrite getCell_setCell_ne_cell
             by (intros E; apply Hne; destruct c as [[? ?] ?]; cbn in E; by subst).
           rewrite Hget. destruct (decide ((i, j, k) ∈ cs)) as [Hin|Hin].
           ++ by rewrite decide_True by (apply elem_of_app; by left).
           ++ rewrite decide_False; [done|].
              intros [?|H%list_elem_of_singleton]%elem_of_app; [done|].
              by apply Hne.
    + split; [done|]. split; [done|]. intros i j k. rewrite Hget.
      destruct (decide ((i, j, k) ∈ cs)) as [Hin|Hin].
      * by rewrite decide_True by (apply elem_of_app; by left).
      * destruct (decide ((i, j, k) = c)) as [<-|Hne].
        -- rewrite decide_True by (apply elem_of_app; right; by left).
           by rewrite Ev.
        -- rewrite decide_False; [done|].
           intros [?|H%list_elem_of_singleton]%elem_of_app; [done|].
           by apply Hne.
Qed.

Lemma fget_same_but t h h' l i j k :
  same_but t h h' -> l <> t -> fget h' l i j k = fget h l i j k.
Proof.
  intros [_ H] Hl. unfold fget, getCell. by rewrite H.
Qed.

Lemma same_but_is_Some t h h' l :
  same_but t h h' -> l <> t ->
  is_Some (floatgrids h !! l) -> is_Some (floatgrids h' !! l).
Proof. intros [_ H] Hl. by rewrite H. Qed.

Lemma box_loop_spec t (W : Z -> Z -> Z -> heap -> option float)
    (F : Z -> Z -> Z -> heap -> heap) a b c h :
  (forall i j k s, F i j k s = match W i j k s with
                               | Some v => fset s t i j k v
                               | None => s
                               end) ->
  is_Some (floatgrids h !! t) ->
  (forall i j k h', 0 <= i < a -> 0 <= j < b -> 0 <= k < c ->
     same_but t h h' -> fget h' t i j k = fget h t i j k ->
     W i j k h' = W i j k h) ->
  let h' := for_gn a (fun i s => for_gn b (fun j s =>
              for_gn c (fun k s => F i j k s) s) s) h in
  same_but t h h' /\ is_Some (floatgrids h' !! t) /\
  forall i j k,
    fget h' t i j k
    = if decide (0 <= i < a /\ 0 <= j < b /\ 0 <= k < c)
      then default (fget h t i j k) (W i j k h)
      else fget h t i j k.
Proof.
  intros HF Hs Hloc h'.
  assert (E : h' = cellwise t (fun c => W c.1.1 c.1.2 c.2) (box a b c) h).
  { unfold h'. rewrite for_gn_box. unfold cellwise.
    apply fold_left_ext_all. intros s [[i j] k]. apply HF. }
  rewrite E.
  destruct (cellwise_spec t (fun c => W c.1.1 c.1.2 c.2) (box a b c) h)
    as (Hsb & Hs' & Hget); [apply NoDup_box|done| |].
  { intros [[i j] k] h'' Hin. apply elem_of_box in Hin. cbn [fst snd].
    apply Hloc; lia. }
  split; [done|]. split; [done|]. intros i j k. rewrite Hget.
  destruct (decide ((i, j, k) ∈ box a b c)) as [Hin|Hin].
  - rewrite decide_True by (by apply elem_of_box). done.
  - rewrite decide_False; [done|]. intros H. apply Hin. by apply elem_of_box.
Qed.

Lemma same_outside_refl ts h : same_outside ts h h.
Proof. by split. Qed.

Lemma same_outside_trans ts h1 h2 h3 :
  same_outside ts h1 h2 -> same_outside ts h2 h3 -> same_outside ts h1 h3.
Proof.
  intros [I1 F1] [I2 F2]. split; [congruence|].
  intros l Hl. by rewrite F2, F1.
Qed.

Lemma same_but_outside t ts h h' :
  t ∈ ts -> same_but t h h' -> same_outside ts h h'.
Proof.
  intros Ht [I F]. split; [done|]. intros l Hl. apply F. intros ->. done.
Qed.

Lemma face_loops_spec (t : Z -> loc)
    (W : Z -> Z -> Z -> Z -> heap -> option float)
    (F : Z -> Z -> Z -> Z -> heap -> heap) x y z h :
  (forall n i j k s, 0 <= n < 3 ->
     F n i j k s = match W n i j k s with
                   | Some v => fset s (t n) i j k v
                   | None => s
                   end) ->
  (forall n n', 0 <= n < 3 -> 0 <= n' < 3 -> t n = t n' -> n = n') ->
  (forall n, 0 <= n < 3 -> is_Some (floatgrids h !! t n)) ->
  (forall n i j k h', 0 <= n < 3 -> is_face x y z n i j k ->
     same_outside [t 0; t 1; t 2] h h' ->
     fget h' (t n) i j k = fget h (t n) i j k ->
     W n i j k h' = W n i j k h) ->
  same_outside [t 0; t 1; t 2] h (face_loops x y z F h) /\
  (forall n, 0 <= n < 3 ->
     is_Some (floatgrids (face_loops x y z F h) !! t n)) /\
  forall n i j k, 0 <= n < 3 ->
    fget (face_loops x y z F h) (t n) i j k
    = if decide (is_face x y z n i j k)
      then default (fget h (t n) i j k) (W n i j k h)
      else fget h (t n) i j k.
Proof.
  intros HF Hinj Hs Hloc. unfold face_loops. cbv zeta.
  assert (T01 : t 0 <> t 1) by (intros E; apply Hinj in E; lia).
  assert (T02 : t 0 <> t 2) by (intros E; apply Hinj in E; lia).
  assert (T12 : t 1 <> t 2) by (intros E; apply Hinj in E; lia).
  assert (In0 : t 0 ∈ [t 0; t 1; t 2]) by (by left).
  assert (In1 : t 1 ∈ [t 0; t 1; t 2]) by (by right; left).
  assert (In2 : t 2 ∈ [t 0; t 1; t 2]) by (by right; right; left).
  (* x faces *)
  destruct (box_loop_spec (t 0) (W 0) (F 0) (wrap32 (x + 1)) y z h)
    as (B1 & S1 & G1); [intros; apply HF; lia|apply Hs; lia| |].
  { intros i j k h' Hi Hj Hk Hsb Hg. apply Hloc; [lia| |by apply (same_but_outside (t 0))|done].
    unfold is_face, sel3. cbn. lia. }
  set (h1 := for_gn (wrap32 (x + 1)) _ h) in *.
  (* y faces *)
  assert (W1 : forall i j k, is_face x y z 1 i j k -> W 1 i j k h1 = W 1 i j k h).
  { intros i j k Hf. apply Hloc; [lia|done|by apply (same_but_outside (t 0))|].
    by apply (fget_same_but (t 0)); [|apply not_eq_sym]. }
  destruct (box_loop_spec (t 1) (W 1) (F 1) x (wrap32 (y + 1)) z h1)
    as (B2 & S2 & G2); [intros; apply HF; lia| | |].
  { eapply same_but_is_Some; [exact B1|by apply not_eq_sym|]. apply Hs; lia. }
  { intros i j k h' Hi Hj Hk Hsb Hg.
    assert (Hf : is_face x y z 1 i j k) by (unfold is_face, sel3; cbn; lia).
    rewrite W1 by done. apply Hloc; [lia|done| |].
    - eapply same_outside_trans;
        [by apply (same_but_outside (t 0))|by apply (same_but_outside (t 1))].
    - rewrite Hg. by apply (fget_same_but (t 0)); [|apply not_eq_sym]. }
  set (h2 := for_gn x _ h1) in *.
  (* z faces *)
  assert (O2 : same_outside [t 0; t 1; t 2] h h2).
  { eapply same_outside_trans;
      [by apply (same_but_outside (t 0))|by apply (same_but_outside (t 1))]. }
  assert (W2 : forall i j k, is_face x y z 2 i j k -> W 2 i j k h2 = W 2 i j k h).
  { intros i j k Hf. apply Hloc; [lia|done|done|].
    rewrite (fget_same_but (t 1) h1 h2) by (done || by apply not_eq_sym).
    by apply (fget_same_but (t 0)); [|apply not_eq_sym]. }
  destruct (box_loop_spec (t 2) (W 2) (F 2) x y (wrap32 (z + 1)) h2)
    as (B3 & S3 & G3); [intros; apply HF; lia| | |].
  { eapply same_but_is_Some; [exact B2|by apply not_eq_sym|].
    eapply same_but_is_Some; [exact B1|by apply not_eq_sym|]. apply Hs; lia. }
  { intros i j k h' Hi Hj Hk Hsb Hg.
    assert (Hf : is_face x y z 2 i j k) by (unfold is_face, sel3; cbn; lia).
    rewrite W2 by done. apply Hloc; [lia|done| |].
    - eapply same_outside_trans; [exact O2|]. by apply (same_but_outside (t 2)).
    - rewrite Hg.
      rewrite (fget_same_but (t 1) h1 h2) by (done || by apply not_eq_sym).
      by apply (fget_same_but (t 0)); [|apply not_eq_sym]. }
  set (h3 := for_gn x _ h2) in *.
  split; [|split].
  - eapply same_outside_trans; [exact O2|]. by apply (same_but_outside (t 2)).
  - intros n Hn.
    assert (n = 0 \/ n = 1 \/ n = 2) as [->|[->| ->]] by lia.
    + eapply same_but_is_Some; [exact B3|done|].
      eapply same_but_is_Some; [exact B2|done|done].
    + eapply same_but_is_Some; [exact B3|done|done].
    + done.
  - intros n i j k Hn.
    assert (n = 0 \/ n = 1 \/ n = 2) as [->|[->| ->]] by lia.
    + rewrite (fget_same_but (t 2) h2 h3), (fget_same_but (t 1) h1 h2) by done.
      rewrite G1. unfold is_face, sel3. cbn.
      destruct (decide (0 <= i < wrap32 (x + 1) /\ 0 <= j < y /\ 0 <= k < z)),
               (decide (0 <= i < wrap32 (x + 1) /\ 0 <= j < y /\ 0 <= k < z));
        done.
    + rewrite (fget_same_but (t 2) h2 h3) by done.
      rewrite G2. rewrite (fget_same_but (t 0) h h1) by (done || by apply not_eq_sym).
      unfold is_face at 1. unfold sel3. cbn.
      destruct (decide (0 <= i < x /\ 0 <= j < wrap32 (y + 1) /\ 0 <= k < z)) as [Hf|];
        [|done].
      rewrite W1; [done|]. unfold is_face, sel3; cbn; lia.
    + rewrite G3.
      rewrite (fget_same_but (t 1) h1 h2) by (done || by apply not_eq_sym).
      rewrite (fget_same_but (t 0) h h1) by (done || by apply not_eq_sym).
      unfold is_face at 1. unfold sel3. cbn.
      destruct (decide (0 <= i < x /\ 0 <= j < y /\ 0 <= k < wrap32 (z + 1))) as [Hf|];
        [|done].
      rewrite W2; [done|]. unfold is_face, sel3; cbn; lia.
Qed.

(** ** The previous grid: [StorePreviousGrid], [SubtractPreviousGrid] *)

Lemma fget_same_outside ts h h' l i j k :
  same_outside ts h h' -> l ∉ ts -> fget h' l i j k = fget h l i j k.
Proof. intros [_ H] Hl. unfold fget, getCell. by rewrite H. Qed.

Lemma three_cases n : 0 <= n < 3 -> n = 0 \/ n = 1 \/ n = 2.
Proof. lia. Qed.

Lemma fsub_self v :
  (is_number v -> fsub v v = zero) /\ (~ is_number v -> fsub v v = S754_nan).
Proof.
  destruct v as [[]|[]| |s m e]; cbn [is_number]; split; intros H;
    try reflexivity; try (exfalso; by apply H); try (exfalso; exact H).
  unfold fsub, SFsub. rewrite Z.sub_diag. reflexivity.
Qed.

Section PreviousGrid.
Variables (sim : FlipSim) (rest : FlipSimRest).
Hypothesis distinct : NoDup (face_fields sim rest).

Lemma prev_inj n n' :
  0 <= n < 3 -> 0 <= n' < 3 ->
  u_of (m_mgrid_previous rest) n = u_of (m_mgrid_previous rest) n' -> n = n'.
Proof.
  apply u_of_inj. unfold face_fields in distinct.
  change [m_u_x (m_mgrid_previous rest); m_u_y (m_mgrid_previous rest);
          m_u_z (m_mgrid_previous rest);
          m_u_x (m_mgrid sim); m_u_y (m_mgrid sim); m_u_z (m_mgrid sim)]
    with ([m_u_x (m_mgrid_previous rest); m_u_y (m_mgrid_previous rest);
           m_u_z (m_mgrid_previous rest)]
          ++ [m_u_x (m_mgrid sim); m_u_y (m_mgrid sim); m_u_z (m_mgrid sim)])
    in distinct.
  by apply NoDup_app in distinct as [? _].
Qed.

Lemma cur_not_prev n :
  0 <= n < 3 ->
  u_of (m_mgrid sim) n
  ∉ [u_of (m_mgrid_previous rest) 0; u_of (m_mgrid_previous rest) 1;
     u_of (m_mgrid_previous rest) 2].
Proof.
  intros Hn Hin. unfold face_fields in distinct.
  change [m_u_x (m_mgrid_previous rest); m_u_y (m_mgrid_previous rest);
          m_u_z (m_mgrid_previous rest);
          m_u_x (m_mgrid sim); m_u_y (m_mgrid sim); m_u_z (m_mgrid sim)]
    with ([m_u_x (m_mgrid_previous rest); m_u_y (m_mgrid_previous rest);
           m_u_z (m_mgrid_previous rest)]
          ++ [m_u_x (m_mgrid sim); m_u_y (m_mgrid sim); m_u_z (m_mgrid sim)])
    in distinct.
  apply NoDup_app in distinct as (_ & Hd & _).
  apply (Hd _ Hin).
  destruct (three_cases n Hn) as [->|[->| ->]];
    [by left|by right; left|by right; right; left].
Qed.

Lemma StorePreviousGrid_grids :
  let h := grids sim in
  let h' := grids (StorePreviousGrid sim rest) in
  let prev := m_mgrid_previous rest in
  (forall n, 0 <= n < 3 -> is_Some (floatgrids h !! u_of prev n)) ->
  same_outside [u_of prev 0; u_of prev 1; u_of prev 2] h h' /\
  (forall n, 0 <= n < 3 -> is_Some (floatgrids h' !! u_of prev n)) /\
  forall n i j k, 0 <= n < 3 ->
    fget h' (u_of prev n) i j k
    = if decide (sim_face sim n i j k)
      then fget h (u_of (m_mgrid sim) n) i j k
      else fget h (u_of prev n) i j k.
Proof.
  intros h h' prev Hs.
  pose (W := fun (n i j k : Z) (s : heap) =>
               Some (fget s (u_of (m_mgrid sim) n) i j k)).
  pose (F := fun (n i j k : Z) (s : heap) =>
               fset s (u_of prev n) i j k (fget s (u_of (m_mgrid sim) n) i j k)).
  destruct (face_loops_spec (u_of prev) W F
              (F2U (vx (m_dimensions sim))) (F2U (vy (m_dimensions sim)))
              (F2U (vz (m_dimensions sim))) h) as (O & S & Gt);
    [done|apply prev_inj|done| |].
  { intros n i j k s' Hn Hf Ho Hg. unfold W. f_equal.
    apply (fget_same_outside _ _ _ _ _ _ _ Ho). by apply cur_not_prev. }
  change (face_loops _ _ _ F h) with h' in *.
  split; [done|]. split; [done|]. intros n i j k Hn. rewrite Gt by done.
  unfold sim_face. by destruct (decide _).
Qed.

Lemma SubtractPreviousGrid_grids :
  let h := grids sim in
  let h' := grids (SubtractPreviousGrid sim rest) in
  let prev := m_mgrid_previous rest in
  (forall n, 0 <= n < 3 -> is_Some (floatgrids h !! u_of prev n)) ->
  same_outside [u_of prev 0; u_of prev 1; u_of prev 2] h h' /\
  forall n i j k, 0 <= n < 3 ->
    fget h' (u_of prev n) i j k
    = if decide (sim_face sim n i j k)
      then fsub (fget h (u_of (m_mgrid sim) n) i j k)
                (fget h (u_of prev n) i j k)
      else fget h (u_of prev n) i j k.
Proof.
  intros h h' prev Hs.
  pose (W := fun (n i j k : Z) (s : heap) =>
               Some (fsub (fget s (u_of (m_mgrid sim) n) i j k)
                          (fget s (u_of prev n) i j k))).
  pose (F := fun (n i j k : Z) (s : heap) =>
               fset s (u_of prev n) i j k
                    (fsub (fget s (u_of (m_mgrid sim) n) i j k)
                          (fget s (u_of prev n) i j k))).
  destruct (face_loops_spec (u_of prev) W F
              (F2U (vx (m_dimensions sim))) (F2U (vy (m_dimensions sim)))
              (F2U (vz (m_dimensions sim))) h) as (O & S & Gt);
    [done|apply prev_inj|done| |].
  { intros n i j k s' Hn Hf Ho Hg. unfold W. f_equal. rewrite Hg. f_equal.
    apply (fget_same_outside _ _ _ _ _ _ _ Ho). by apply cur_not_prev. }
  change (face_loops _ _ _ F h) with h' in *.
  split; [done|]. intros n i j k Hn. rewrite Gt by done.
  unfold sim_face. by destruct (decide _).
Qed.

End PreviousGrid.

(** X1. [StorePreviousGrid] copies the grid: when the six face fields of
    [m_mgrid] and [m_mgrid_previous] are distinct grids and those of
    [m_mgrid_previous] are allocated, every face of every field of
    [m_mgrid_previous] holds afterwards what the same face of [m_mgrid]
    holds, and no grid other than the three fields of [m_mgrid_previous]
    is changed. *)
Theorem StorePreviousGrid_copies (sim : FlipSim) (rest : FlipSimRest)
    (n i j k : Z) :
  let prev := m_mgrid_previous rest in
  NoDup (face_fields sim rest) ->
  (forall m, 0 <= m < 3 -> is_Some (floatgrids (grids sim) !! u_of prev m)) ->
  0 <= n < 3 -> sim_face sim n i j k ->
  fget (grids (StorePreviousGrid sim rest)) (u_of prev n) i j k
  = fget (grids sim) (u_of (m_mgrid sim) n) i j k
  /\ same_outside [m_u_x prev; m_u_y prev; m_u_z prev]
                  (grids sim) (grids (StorePreviousGrid sim rest)).
Proof.
  intros prev Hnd Hs Hn Hf.
  destruct (StorePreviousGrid_grids sim rest Hnd Hs) as (O & _ & Gt).
  split; [|exact O]. rewrite Gt by done. by rewrite decide_True.
Qed.

Lemma StorePreviousGrid_copies_witness :
  let sim := GridExamples.flow in
  let rest := GridExamples.rest789 in
  (fget (grids (StorePreviousGrid sim rest)) 7%positive 1 0 0
   = fget (grids sim) 4%positive 1 0 0
   /\ same_outside [7%positive; 8%positive; 9%positive]
                   (grids sim) (grids (StorePreviousGrid sim rest)))
  /\ fget (grids sim) 4%positive 1 0 0 = Z2F 2.
Proof.
  intros sim rest. split; [|vm_compute; reflexivity].
  apply (StorePreviousGrid_copies sim rest 0 1 0 0).
  - apply (bool_decide_unpack _). vm_compute. exact I.
  - intros m Hm. destruct (three_cases m Hm) as [->|[->| ->]];
      vm_compute; eexists; reflexivity.
  - lia.
  - vm_compute. intuition congruence.
Defined.

(** X2. [SubtractPreviousGrid] turns [m_mgrid_previous] into the change
    of velocity: with the six face fields distinct and those of
    [m_mgrid_previous] allocated, every face of [m_mgrid_previous] ends
    up holding the value of [m_mgrid] at that face minus the value it
    held, and [m_mgrid] itself is not changed. *)
Theorem SubtractPreviousGrid_difference (sim : FlipSim) (rest : FlipSimRest)
    (n i j k : Z) :
  let prev := m_mgrid_previous rest in
  NoDup (face_fields sim rest) ->
  (forall m, 0 <= m < 3 -> is_Some (floatgrids (grids sim) !! u_of prev m)) ->
  0 <= n < 3 -> sim_face sim n i j k ->
  fget (grids (SubtractPreviousGrid sim rest)) (u_of prev n) i j k
  = fsub (fget (grids sim) (u_of (m_mgrid sim) n) i j k)
         (fget (grids sim) (u_of prev n) i j k)
  /\ same_outside [m_u_x prev; m_u_y prev; m_u_z prev]
                  (grids sim) (grids (SubtractPreviousGrid sim rest)).
Proof.
  intros prev Hnd Hs Hn Hf.
  destruct (SubtractPreviousGrid_grids sim rest Hnd Hs) as (O & Gt).
  split; [|exact O]. rewrite Gt by done. by rewrite decide_True.
Qed.

Lemma SubtractPreviousGrid_difference_witness :
  let sim := GridExamples.flow in
  let rest := GridExamples.rest789 in
  (fget (grids (SubtractPreviousGrid sim rest)) 7%positive 2 0 0
   = fsub (fget (grids sim) 4%positive 2 0 0) (fget (grids sim) 7%positive 2 0 0)
   /\ same_outside [7%positive; 8%positive; 9%positive]
                   (grids sim) (grids (SubtractPreviousGrid sim rest)))
  /\ fget (grids (SubtractPreviousGrid sim rest)) 7%positive 2 0 0 = one.
Proof.
  intros sim rest. split; [|vm_compute; reflexivity].
  apply (SubtractPreviousGrid_difference sim rest 0 2 0 0).
  - apply (bool_decide_unpack _). vm_compute. exact I.
  - intros m Hm. destruct (three_cases m Hm) as [->|[->| ->]];
      vm_compute; eexists; reflexivity.
  - lia.
  - vm_compute. intuition congruence.
Defined.

(** X3. Storing the grid and subtracting it at once gives the zero
    field: after [StorePreviousGrid] followed by [SubtractPreviousGrid],
    a face of [m_mgrid_previous] holds +0 where the velocity of [m_mgrid]
    is a number, and NaN where it is an infinity or a NaN. *)
Theorem SubtractPreviousGrid_after_store (sim : FlipSim) (rest : FlipSimRest)
    (n i j k : Z) :
  let prev := m_mgrid_previous rest in
  let v := fget (grids sim) (u_of (m_mgrid sim) n) i j k in
  let d := fget (grids (SubtractPreviousGrid (StorePreviousGrid sim rest) rest))
                (u_of prev n) i j k in
  NoDup (face_fields sim rest) ->
  (forall m, 0 <= m < 3 -> is_Some (floatgrids (grids sim) !! u_of prev m)) ->
  0 <= n < 3 -> sim_face sim n i j k ->
  (is_number v -> d = zero) /\ (~ is_number v -> d = S754_nan).
Proof.
  intros prev v d Hnd Hs Hn Hf.
  destruct (StorePreviousGrid_grids sim rest Hnd Hs) as (O & S' & Gt).
  destruct (SubtractPreviousGrid_grids (StorePreviousGrid sim rest) rest Hnd S')
    as (_ & Gt').
  assert (E : d = fsub v v).
  { unfold d. rewrite Gt' by done.
    rewrite decide_True by exact Hf.
    rewrite Gt by done. rewrite decide_True by exact Hf.
    f_equal. apply (fget_same_outside _ _ _ _ _ _ _ O).
    by apply cur_not_prev. }
  rewrite E. apply fsub_self.
Qed.

Lemma SubtractPreviousGrid_after_store_witness :
  let sim := GridExamples.flow in
  let rest := GridExamples.rest789 in
  let d := fget (grids (SubtractPreviousGrid (StorePreviousGrid sim rest) rest))
                7%positive 2 0 0 in
  ((is_number (Z2F 2) -> d = zero) /\ (~ is_number (Z2F 2) -> d = S754_nan))
  /\ is_number (Z2F 2).
Proof.
  intros sim rest d. split; [|exact I].
  apply (SubtractPreviousGrid_after_store sim rest 0 2 0 0).
  - apply (bool_decide_unpack _). vm_compute. exact I.
  - intros m Hm. destruct (three_cases m Hm) as [->|[->| ->]];
      vm_compute; eexists; reflexivity.
  - lia.
  - vm_compute. intuition congruence.
Defined.

(** ** The divergence loop of [Project] *)

Lemma F2U_range f : 0 <= F2U f < 2 ^ 32.
Proof.
  unfold F2U. destruct (trunc f); [|lia]. unfold wrap32.
  apply Z.mod_pos_bound. lia.
Qed.

Lemma wrap32_small n : 0 <= n < 2 ^ 32 -> wrap32 n = n.
Proof. intros H. unfold wrap32. by apply Z.mod_small. Qed.

Lemma Project_divergence_grids sim rest :
  let h := grids sim in
  let h' := grids (Project_divergence sim rest) in
  let D := m_D (m_mgrid_cells rest) in
  let g := m_mgrid sim in
  is_Some (floatgrids h !! D) ->
  D ∉ [m_u_x g; m_u_y g; m_u_z g] ->
  same_but D h h' /\
  forall i j k,
    fget h' D i j k
    = if decide (sim_cell sim i j k)
      then cell_divergence h g (fdiv one (maxd_of (m_dimensions sim))) i j k
      else fget h D i j k.
Proof.
  intros h h' D g Hs Hd.
  assert (Hx : D <> m_u_x g) by (intros E; apply Hd; rewrite E; by left).
  assert (Hy : D <> m_u_y g) by (intros E; apply Hd; rewrite E; by right; left).
  assert (Hz : D <> m_u_z g)
    by (intros E; apply Hd; rewrite E; by right; right; left).
  set (x := F2U (vx (m_dimensions sim))).
  set (y := F2U (vy (m_dimensions sim))).
  set (z := F2U (vz (m_dimensions sim))).
  set (hw := fdiv one (maxd_of (m_dimensions sim))).
  pose (V := fun (i j k : Z) (s : heap) =>
    fdiv (fsub (fadd (fsub (fadd (fsub
           (fget s (m_u_x g) (wrap32 (i + 1)) j k)
           (fget s (m_u_x g) i j k))
           (fget s (m_u_y g) i (wrap32 (j + 1)) k))
           (fget s (m_u_y g) i j k))
           (fget s (m_u_z g) i j (wrap32 (k + 1))))
           (fget s (m_u_z g) i j k)) hw).
  destruct (box_loop_spec D (fun i j k s => Some (V i j k s))
              (fun i j k s => fset s D i j k (V i j k s)) x y z h)
    as (B & _ & Gt); [done|done| |].
  { intros i j k s' _ _ _ Hsb _. unfold V. f_equal.
    by rewrite !(fget_same_but D h s') by (done || by apply not_eq_sym). }
  change (for_gn x _ h) with h' in *.
  split; [done|]. intros i j k. rewrite Gt. unfold sim_cell. fold x y z.
  destruct (decide (0 <= i < x /\ 0 <= j < y /\ 0 <= k < z)) as [Hc|]; [|done].
  cbn [default]. unfold V, cell_divergence.
  pose proof (F2U_range (vx (m_dimensions sim))).
  pose proof (F2U_range (vy (m_dimensions sim))).
  pose proof (F2U_range (vz (m_dimensions sim))).
  rewrite !wrap32_small by (unfold x, y, z in Hc; lia). reflexivity.
Qed.

(** X4. The divergence loop of [Project] stores in every cell of [m_D]
    the sum of the differences of the velocities on the opposite faces
    of the cell, divided by the cell width; it reads the velocities as
    they were when it started and changes no other grid. *)
Theorem Project_divergence_value (sim : FlipSim) (rest : FlipSimRest)
    (i j k : Z) :
  let D := m_D (m_mgrid_cells rest) in
  let g := m_mgrid sim in
  is_Some (floatgrids (grids sim) !! D) ->
  D ∉ [m_u_x g; m_u_y g; m_u_z g] ->
  sim_cell sim i j k ->
  fget (grids (Project_divergence sim rest)) D i j k
  = cell_divergence (grids sim) g (fdiv one (maxd_of (m_dimensions sim))) i j k
  /\ same_but D (grids sim) (grids (Project_divergence sim rest)).
Proof.
  intros D g Hs Hd Hc.
  destruct (Project_divergence_grids sim rest Hs Hd) as (B & Gt).
  split; [|done]. rewrite Gt. by rewrite decide_True.
Qed.

Lemma Project_divergence_value_witness :
  let sim := GridExamples.flow in
  let rest := GridExamples.rest789 in
  (fget (grids (Project_divergence sim rest)) 3%positive 0 0 0
   = cell_divergence (grids sim) (m_mgrid sim)
       (fdiv one (maxd_of (m_dimensions sim))) 0 0 0
   /\ same_but 3%positive (grids sim) (grids (Project_divergence sim rest)))
  /\ fget (grids (Project_divergence sim rest)) 3%positive 0 0 0 = Z2F 4.
Proof.
  intros sim rest. split; [|vm_compute; reflexivity].
  apply (Project_divergence_value sim rest 0 0 0).
  - vm_compute. eexists; reflexivity.
  - apply (bool_decide_unpack _). vm_compute. exact I.
  - vm_compute. intuition congruence.
Defined.

Lemma fadd_zero_fsub c : is_number c -> fsub (fadd zero c) c = zero.
Proof.
  destruct c as [[]|[]| |s m e]; intros H; try (exfalso; exact H);
    try reflexivity.
  change (fadd zero (S754_finite s m e)) with (S754_finite s m e).
  by apply fsub_self.
Qed.

Lemma fdiv_zero_usable h : usable_width h -> is_zero (fdiv zero h).
Proof. by destruct h as [[]|[]| |[] m e]. Qed.

(** X5. A cell whose opposite faces carry the same velocity has no
    divergence: when, along each axis, the two faces of the cell hold
    the same number, and the cell width is neither zero nor NaN, the
    divergence loop of [Project] stores a zero in the cell. *)
Theorem Project_divergence_free (sim : FlipSim) (rest : FlipSimRest)
    (i j k : Z) :
  let D := m_D (m_mgrid_cells rest) in
  let g := m_mgrid sim in
  let h := grids sim in
  is_Some (floatgrids h !! D) ->
  D ∉ [m_u_x g; m_u_y g; m_u_z g] ->
  sim_cell sim i j k ->
  usable_width (fdiv one (maxd_of (m_dimensions sim))) ->
  is_number (fget h (m_u_x g) i j k) ->
  is_number (fget h (m_u_y g) i j k) ->
  is_number (fget h (m_u_z g) i j k) ->
  fget h (m_u_x g) (i + 1) j k = fget h (m_u_x g) i j k ->
  fget h (m_u_y g) i (j + 1) k = fget h (m_u_y g) i j k ->
  fget h (m_u_z g) i j (k + 1) = fget h (m_u_z g) i j k ->
  is_zero (fget (grids (Project_divergence sim rest)) D i j k).
Proof.
  intros D g h Hs Hd Hc Hw Nx Ny Nz Ex Ey Ez.
  destruct (Project_divergence_grids sim rest Hs Hd) as (_ & Gt).
  rewrite Gt, decide_True by done. unfold cell_divergence.
  fold g h. rewrite Ex, Ey, Ez.
  rewrite (proj1 (fsub_self _) Nx).
  rewrite (fadd_zero_fsub _ Ny), (fadd_zero_fsub _ Nz).
  by apply fdiv_zero_usable.
Qed.

Lemma Project_divergence_free_witness :
  let sim := GridExamples.flow in
  let rest := GridExamples.rest789 in
  is_zero (fget (grids (Project_divergence sim rest)) 3%positive 1 0 0)
  /\ fget (grids sim) 4%positive 2 0 0 = Z2F 2.
Proof.
  intros sim rest. split; [|vm_compute; reflexivity].
  apply (Project_divergence_free sim rest 1 0 0).
  - vm_compute. eexists; reflexivity.
  - apply (bool_decide_unpack _). vm_compute. exact I.
  - vm_compute. intuition congruence.
  - vm_compute. exact I.
  - vm_compute. exact I.
  - vm_compute. exact I.
  - vm_compute. exact I.
  - vm_compute. reflexivity.
  - vm_compute. reflexivity.
  - vm_compute. reflexivity.
Defined.

(** ** [SubtractPressureGradient] *)

Lemma fsub_zero_r x : fsub x zero = x.
Proof. by destruct x as [[]|[]| |s m e]. Qed.

Lemma fdiv_zero_positive h : flt zero h = true -> fdiv zero h = zero.
Proof. by destruct h as [[]|[]| |[] m e]. Qed.

Section PressureGradient.
Variables (sim : FlipSim) (rest : FlipSimRest).

Let g := m_mgrid sim.
Let cells := m_mgrid_cells rest.
Let hw := fdiv one (maxd_of (m_dimensions sim)).
Let x := F2U (vx (m_dimensions sim)).
Let y := F2U (vy (m_dimensions sim)).
Let z := F2U (vz (m_dimensions sim)).

Hypothesis distinct :
  NoDup [m_u_x g; m_u_y g; m_u_z g; m_P cells; m_L cells].
Hypothesis allocated :
  forall n, 0 <= n < 3 -> is_Some (floatgrids (grids sim) !! u_of g n).

Lemma SubtractPressureGradient_grids :
  let h := grids sim in
  let h' := grids (SubtractPressureGradient sim rest) in
  same_outside [u_of g 0; u_of g 1; u_of g 2] h h' /\
  forall n i j k, 0 <= n < 3 ->
    fget h' (u_of g n) i j k
    = if decide (interior_face sim n i j k)
      then SubtractPressureGradient_value cells (m_subcell rest) hw (u_of g n)
             i j k (cell_behind n i j k).1.1 (cell_behind n i j k).1.2
             (cell_behind n i j k).2 h
      else fget h (u_of g n) i j k.
Proof.
  intros h h'.
  pose (bi := fun n i => sel3 (wrap32 (i - 1)) i i n).
  pose (bj := fun n j => sel3 j (wrap32 (j - 1)) j n).
  pose (bk := fun n k => sel3 k k (wrap32 (k - 1)) n).
  pose (inner := fun n i j k =>
    (0 <? sel3 i j k n) && (sel3 i j k n <? sel3 x y z n)).
  pose (W := fun (n i j k : Z) (s : heap) =>
    if inner n i j k
    then Some (SubtractPressureGradient_value cells (m_subcell rest) hw
                 (u_of g n) i j k (bi n i) (bj n j) (bk n k) s)
    else None).
  pose (F := fun (n i j k : Z) (s : heap) =>
    if inner n i j k
    then SubtractPressureGradient_face cells (m_subcell rest) hw
           (u_of g n) i j k (bi n i) (bj n j) (bk n k) s
    else s).
  assert (HP : (m_P cells ∉ [u_of g 0; u_of g 1; u_of g 2]) /\
               (m_L cells ∉ [u_of g 0; u_of g 1; u_of g 2])).
  { change [m_u_x g; m_u_y g; m_u_z g; m_P cells; m_L cells]
      with ([m_u_x g; m_u_y g; m_u_z g] ++ [m_P cells; m_L cells]) in distinct.
    apply NoDup_app in distinct as (_ & Hd & _).
    split; intros Hin; apply (Hd _ Hin); [by left|by right; left]. }
  destruct HP as [HP HL].
  destruct (face_loops_spec (u_of g) W F x y z h) as (O & _ & Gt).
  { intros n i j k s Hn. unfold F, W. by destruct (inner n i j k). }
  { apply u_of_inj.
    change [m_u_x g; m_u_y g; m_u_z g; m_P cells; m_L cells]
      with ([m_u_x g; m_u_y g; m_u_z g] ++ [m_P cells; m_L cells]) in distinct.
    by apply NoDup_app in distinct as [? _]. }
  { exact allocated. }
  { intros n i j k s' Hn Hf Ho Hg. unfold W.
    destruct (inner n i j k); [|done]. f_equal.
    unfold SubtractPressureGradient_value. cbv zeta.
    rewrite Hg.
    by rewrite !(fget_same_outside _ _ _ (m_P cells) _ _ _ Ho),
               !(fget_same_outside _ _ _ (m_L cells) _ _ _ Ho). }
  change (face_loops x y z F h) with h' in *.
  split; [done|]. intros n i j k Hn. rewrite Gt by done.
  unfold interior_face, sim_face. fold x y z.
  destruct (decide (is_face x y z n i j k)) as [Hf|Hf];
    [|rewrite decide_False by tauto; done].
  unfold W, inner.
  destruct (0 <? sel3 i j k n) eqn:E1;
    [|rewrite decide_False by (apply Z.ltb_ge in E1; lia); done].
  destruct (sel3 i j k n <? sel3 x y z n) eqn:E2;
    [|rewrite decide_False by (apply Z.ltb_ge in E2; lia); done].
  apply Z.ltb_lt in E1, E2. rewrite decide_True by (split; [done|lia]).
  cbn [andb default].
  pose proof (F2U_range (vx (m_dimensions sim))).
  pose proof (F2U_range (vy (m_dimensions sim))).
  pose proof (F2U_range (vz (m_dimensions sim))).
  destruct (three_cases n Hn) as [->|[->| ->]];
    unfold bi, bj, bk, cell_behind, sel3 in *; cbn in E1, E2 |- *;
    rewrite wrap32_small by (unfold x, y, z in *; lia); reflexivity.
Qed.

(** X6. [SubtractPressureGradient] never writes a face on the boundary
    of the domain: a face that does not lie strictly inside the grid
    along its own axis keeps its velocity, and no grid other than the
    three face fields is changed. *)
Theorem SubtractPressureGradient_boundary (n i j k : Z) :
  0 <= n < 3 -> ~ interior_face sim n i j k ->
  fget (grids (SubtractPressureGradient sim rest)) (u_of g n) i j k
  = fget (grids sim) (u_of g n) i j k
  /\ same_outside [m_u_x g; m_u_y g; m_u_z g]
                  (grids sim) (grids (SubtractPressureGradient sim rest)).
Proof.
  intros Hn Hb. destruct SubtractPressureGradient_grids as (O & Gt).
  split; [|exact O]. rewrite Gt by done. by rewrite decide_False.
Qed.

(** X7. Away from the liquid surface [SubtractPressureGradient]
    subtracts the pressure difference across the face: on a face
    strictly inside the grid, when the sub-cell treatment is off or the
    level set does not change sign across the face, the velocity
    becomes the old velocity minus (P(front) - P(behind)) / h, with the
    pressures as the store held them. *)
Theorem SubtractPressureGradient_gradient (n i j k bi bj bk : Z) :
  let h := grids sim in
  cell_behind n i j k = (bi, bj, bk) ->
  0 <= n < 3 -> interior_face sim n i j k ->
  m_subcell rest = 0 \/
    flt (fmul (fget h (m_L cells) i j k) (fget h (m_L cells) bi bj bk)) zero
    = false ->
  fget (grids (SubtractPressureGradient sim rest)) (u_of g n) i j k
  = fsub (fget h (u_of g n) i j k)
         (fdiv (fsub (fget h (m_P cells) i j k) (fget h (m_P cells) bi bj bk))
               hw).
Proof.
  intros h Eb Hn Hf Hi. destruct SubtractPressureGradient_grids as (_ & Gt).
  rewrite Gt, decide_True by done. rewrite Eb. cbn [fst snd].
  unfold SubtractPressureGradient_value. cbv zeta. fold h.
  destruct Hi as [-> | ->]; [reflexivity|].
  by rewrite andb_false_r.
Qed.

(** X8. A pressure that is the same on both sides of a face does not
    change its velocity: when the two cells across a face hold the same
    pressure, a number, the level set does not change sign across the
    face (or the sub-cell treatment is off), and the cell width is
    positive, [SubtractPressureGradient] leaves the velocity of the face
    exactly as it was. *)
Theorem SubtractPressureGradient_uniform (n i j k bi bj bk : Z) :
  let h := grids sim in
  cell_behind n i j k = (bi, bj, bk) ->
  0 <= n < 3 ->
  m_subcell rest = 0 \/
    flt (fmul (fget h (m_L cells) i j k) (fget h (m_L cells) bi bj bk)) zero
    = false ->
  is_number (fget h (m_P cells) i j k) ->
  fget h (m_P cells) bi bj bk = fget h (m_P cells) i j k ->
  flt zero hw = true ->
  fget (grids (SubtractPressureGradient sim rest)) (u_of g n) i j k
  = fget h (u_of g n) i j k.
Proof.
  intros h Eb Hn Hi Hp He Hw. destruct SubtractPressureGradient_grids as (_ & Gt).
  rewrite Gt by done. destruct (decide _); [|done].
  rewrite Eb. cbn [fst snd].
  unfold SubtractPressureGradient_value. cbv zeta. fold h.
  assert (E : fdiv (fsub (fget h (m_P cells) i j k)
                         (fget h (m_P cells) bi bj bk)) hw = zero).
  { rewrite He, (proj1 (fsub_self _) Hp). by apply fdiv_zero_positive. }
  destruct Hi as [-> | ->]; [|rewrite andb_false_r];
    cbn [negb andb Z.eqb]; rewrite E; apply fsub_zero_r.
Qed.

End PressureGradient.

Lemma SubtractPressureGradient_boundary_witness :
  let sim := GridExamples.flow in
  let rest := GridExamples.rest789 in
  (fget (grids (SubtractPressureGradient sim rest)) 4%positive 0 0 0
   = fget (grids sim) 4%positive 0 0 0
   /\ same_outside [4%positive; 5%positive; 6%positive]
                   (grids sim) (grids (SubtractPressureGradient sim rest)))
  /\ fget (grids sim) 4%positive 0 0 0 = one.
Proof.
  intros sim rest. split; [|vm_compute; reflexivity].
  apply (SubtractPressureGradient_boundary sim rest) with (n := 0).
  - apply (bool_decide_unpack _). vm_compute. exact I.
  - intros m Hm. destruct (three_cases m Hm) as [->|[->| ->]];
      vm_compute; eexists; reflexivity.
  - lia.
  - vm_compute. intuition congruence.
Defined.

Lemma SubtractPressureGradient_gradient_witness :
  let sim := GridExamples.flow in
  let rest := GridExamples.rest789 in
  fget (grids (SubtractPressureGradient sim rest)) 4%positive 1 0 0
  = fsub (Z2F 2) (fdiv (fsub (Z2F 9) (Z2F 7)) (lit 1 4))
  /\ fget (grids (SubtractPressureGradient sim rest)) 4%positive 1 0 0
     = fneg (Z2F 6).
Proof.
  intros sim rest. split; [|vm_compute; reflexivity].
  apply (SubtractPressureGradient_gradient sim rest)
    with (n := 0) (i := 1) (j := 0) (k := 0) (bi := 0) (bj := 0) (bk := 0).
  - apply (bool_decide_unpack _). vm_compute. exact I.
  - intros m Hm. destruct (three_cases m Hm) as [->|[->| ->]];
      vm_compute; eexists; reflexivity.
  - reflexivity.
  - lia.
  - vm_compute. intuition congruence.
  - right. vm_compute. reflexivity.
Defined.

Lemma SubtractPressureGradient_uniform_witness :
  let sim := GridExamples.flow in
  let rest := GridExamples.rest789 in
  fget (grids (SubtractPressureGradient sim rest)) 4%positive 2 0 0
  = fget (grids sim) 4%positive 2 0 0
  /\ fget (grids sim) 2%positive 2 0 0 = Z2F 9.
Proof.
  intros sim rest. split; [|vm_compute; reflexivity].
  apply (SubtractPressureGradient_uniform sim rest)
    with (n := 0) (i := 2) (j := 0) (k := 0) (bi := 1) (bj := 0) (bk := 0).
  - apply (bool_decide_unpack _). vm_compute. exact I.
  - intros m Hm. destruct (three_cases m Hm) as [->|[->| ->]];
      vm_compute; eexists; reflexivity.
  - reflexivity.
  - lia.
  - right. vm_compute. reflexivity.
  - vm_compute. exact I.
  - vm_compute. reflexivity.
  - vm_compute. reflexivity.
Defined.

(** ** The loops of the solver on a grid with X = Z *)

Section SolverLoops.
Context {G : geomtype}.

Lemma cell_of_range n y gn :
  0 <= gn < n * y * n -> 0 < n -> 0 < y ->
  let '(i, j, k) := cell_of n y n gn in in_domain n y n i j k.
Proof.
  intros Hgn Hn Hy. unfold cell_of, in_domain.
  assert (Hny : 0 < n * y) by nia.
  rewrite (Z.rem_mod_nonneg gn (n * y)) by lia.
  pose proof (Z.mod_pos_bound gn (n * y) Hny) as Hr.
  rewrite (Z.rem_mod_nonneg (gn mod (n * y)) n) by lia.
  rewrite (Z.quot_div_nonneg (gn mod (n * y)) n) by lia.
  rewrite (Z.quot_div_nonneg gn (n * y)) by lia.
  pose proof (Z.mod_pos_bound (gn mod (n * y)) n Hn).
  assert (0 <= gn mod (n * y) / n) by (apply Z.div_pos; lia).
  assert (gn mod (n * y) / n < y) by (apply Z.div_lt_upper_bound; lia).
  assert (0 <= gn / (n * y)) by (apply Z.div_pos; lia).
  assert (gn / (n * y) < n) by (apply Z.div_lt_upper_bound; lia).
  lia.
Qed.

Lemma cells_cube n y i j k :
  0 <= n ->
  (i, j, k) ∈ cell_of n y n <$> seqZ 0 (n * y * n) <-> in_domain n y n i j k.
Proof.
  intros Hn. rewrite list_elem_of_fmap. split.
  - intros (gn & E & Hgn). apply elem_of_seqZ in Hgn.
    assert (0 < n).
    { destruct (decide (n = 0)) as [->|]; [|lia]. rewrite Z.mul_0_r in Hgn. lia. }
    assert (0 < y).
    { destruct (Z_lt_le_dec 0 y) as [|Hy]; [done|].
      assert (n * y <= 0) by nia. assert (n * y * n <= 0) by nia. lia. }
    pose proof (cell_of_range n y gn) as Hr. rewrite <- E in Hr.
    apply Hr; lia.
  - intros (Hi & Hj & Hk).
    destruct (cell_of_cover n y i j k Hi Hj Hk) as [Hgn Hc].
    eexists. split; [symmetry; exact Hc|]. apply elem_of_seqZ. lia.
Qed.

Lemma NoDup_cells x y z N : NoDup (cell_of x y z <$> seqZ 0 N).
Proof.
  apply NoDup_fmap_2; [|apply NoDup_seqZ].
  intros gn gn'. apply cell_of_inj.
Qed.

Lemma cube_loop_spec t (W : Z -> Z -> Z -> heap -> option float)
    (F : Z -> heap -> heap) n y h :
  0 <= n ->
  (forall gn s, F gn s = let '(i, j, k) := cell_of n y n gn in
                         match W i j k s with
                         | Some v => fset s t i j k v
                         | None => s
                         end) ->
  is_Some (floatgrids h !! t) ->
  (forall i j k h', in_domain n y n i j k ->
     same_but t h h' -> fget h' t i j k = fget h t i j k ->
     W i j k h' = W i j k h) ->
  same_but t h (for_gn (n * y * n) F h) /\
  forall i j k,
    fget (for_gn (n * y * n) F h) t i j k
    = if decide (in_domain n y n i j k)
      then default (fget h t i j k) (W i j k h)
      else fget h t i j k.
Proof.
  intros Hn HF Hs Hloc.
  assert (E : for_gn (n * y * n) F h
              = cellwise t (fun c => W c.1.1 c.1.2 c.2)
                         (cell_of n y n <$> seqZ 0 (n * y * n)) h).
  { unfold for_gn, cellwise.
    generalize (seqZ 0 (n * y * n)). intros l. clear Hs Hloc. revert h.
    induction l as [|gn l IH]; intros h0; [done|].
    cbn [fmap list_fmap fold_left]. rewrite <- IH. f_equal.
    rewrite HF. by destruct (cell_of n y n gn) as [[i j] k]. }
  rewrite E.
  destruct (cellwise_spec t (fun c => W c.1.1 c.1.2 c.2)
              (cell_of n y n <$> seqZ 0 (n * y * n)) h)
    as (Hsb & _ & Hget); [apply NoDup_cells|done| |].
  { intros [[i j] k] h' Hin. apply cells_cube in Hin; [|done]. cbn [fst snd].
    by apply Hloc. }
  split; [done|]. intros i j k. rewrite Hget.
  destruct (decide ((i, j, k) ∈ cell_of n y n <$> seqZ 0 (n * y * n)))
    as [Hin|Hin].
  - rewrite decide_True by (by apply cells_cube). done.
  - rewrite decide_False; [done|]. intros H. apply Hin. by apply cells_cube.
Qed.

(** X9. On a grid with X = Z whose cell count does not overflow [int],
    [flipGrid] does what its comment says for the cells of the domain,
    and nothing else: every cell of the domain of an allocated grid is
    negated, every other cell of the grid keeps its value, and no other
    grid is changed. *)
Theorem flipGrid_cube (g : loc) (dm : vec3) (h : heap) (n y i j k : Z) :
  dims_int dm = (n, y, n) -> no_overflow n y n -> 0 <= n ->
  is_Some (floatgrids h !! g) ->
  fget (flipGrid g dm h) g i j k
  = (if decide (in_domain n y n i j k)
     then fneg (fget h g i j k) else fget h g i j k)
  /\ same_but g h (flipGrid g dm h).
Proof.
  intros Hdm _ Hn Hs. split; [|apply flipGrid_same_but].
  unfold flipGrid. rewrite Hdm.
  destruct (cube_loop_spec g (fun i j k s => Some (fneg (fget s g i j k)))
              (fun gn s => let '(i, j, k) := cell_of n y n gn in
                           let flipped := fneg (fget s g i j k) in
                           fset s g i j k flipped) n y h)
    as (_ & Gt); [done| |done| |].
  { intros gn s. by destruct (cell_of n y n gn) as [[? ?] ?]. }
  { intros i' j' k' h' _ _ Hg. by rewrite Hg. }
  rewrite Gt. by destruct (decide _).
Qed.

Lemma op_cells (A0 X Y target : loc) (alpha : float) (dm : vec3)
    (h : heap) (n y i j k : Z) :
  dims_int dm = (n, y, n) -> no_overflow n y n ->
  is_Some (floatgrids h !! target) ->
  in_domain n y n i j k ->
  fget (op A0 X Y target alpha dm h) target i j k
  = (if iget h A0 i j k =? FLUID
     then fadd (fget h X i j k) (fmul alpha (fget h Y i j k))
     else zero).
Proof.
  intros Hdm _ Hs Hd.
  unfold op. rewrite Hdm.
  pose (W := fun (i j k : Z) (s : heap) =>
    Some (if iget s A0 i j k =? FLUID
          then fadd (fget s X i j k) (fmul alpha (fget s Y i j k))
          else zero)).
  destruct (cube_loop_spec target W
              (fun gn s => let '(i, j, k) := cell_of n y n gn in
                 if iget s A0 i j k =? FLUID then
                   let targetval :=
                     fadd (fget s X i j k) (fmul alpha (fget s Y i j k)) in
                   fset s target i j k targetval
                 else fset s target i j k zero) n y h)
    as (_ & Gt); [unfold in_domain in Hd; lia| |done| |].
  { intros gn s. destruct (cell_of n y n gn) as [[i' j'] k']. unfold W.
    by destruct (iget s A0 i' j' k' =? FLUID). }
  { intros i' j' k' h' _ Hsb Hg. unfold W. f_equal.
    assert (EX : fget h' X i' j' k' = fget h X i' j' k').
    { destruct (decide (X = target)) as [->|Hne];
        [done|by apply (fget_same_but target)]. }
    assert (EY : fget h' Y i' j' k' = fget h Y i' j' k').
    { destruct (decide (Y = target)) as [->|Hne];
        [done|by apply (fget_same_but target)]. }
    unfold iget. destruct Hsb as [-> _]. by rewrite EX, EY. }
  rewrite Gt. by rewrite decide_True.
Qed.

(** X10. [op] computes target = X + alpha·Y cell by cell, also when the
    target is one of its operands: on a grid with X = Z whose cell count
    does not overflow [int], every FLUID
    cell of the domain of an allocated target ends up with X + alpha·Y
    of the values that the cell held before the call, every other cell
    of the domain with 0, and no other grid is changed. *)
Theorem op_cube (A0 X Y target : loc) (alpha : float) (dm : vec3)
    (h : heap) (n y i j k : Z) :
  dims_int dm = (n, y, n) -> no_overflow n y n ->
  is_Some (floatgrids h !! target) ->
  in_domain n y n i j k ->
  fget (op A0 X Y target alpha dm h) target i j k
  = (if iget h A0 i j k =? FLUID
     then fadd (fget h X i j k) (fmul alpha (fget h Y i j k))
     else zero)
  /\ same_but target h (op A0 X Y target alpha dm h).
Proof.
  intros Hdm Hno Hs Hd. split; [|apply op_same_but].
  by apply (op_cells A0 X Y target alpha dm h n y).
Qed.

Lemma xRef_same_but t h h' A0 L0 X f p dm subcell :
  same_but t h h' -> X <> t -> L0 <> t ->
  xRef h' A0 L0 X f p dm subcell = xRef h A0 L0 X f p dm subcell.
Proof.
  intros Hsb HX HL. unfold xRef. destruct (dims_int dm) as [[x y] z].
  cbv zeta. unfold iget. destruct Hsb as [Hi Hf]. rewrite Hi.
  unfold fget, getCell. by rewrite !(Hf X HX), !(Hf L0 HL).
Qed.

Lemma computeAx_cells (A0 L0 X target : loc) (dm : vec3) (subcell : Z)
    (h : heap) (n y i j k : Z) :
  dims_int dm = (n, y, n) -> no_overflow n y n ->
  is_Some (floatgrids h !! target) ->
  X <> target -> L0 <> target ->
  in_domain n y n i j k ->
  fget (computeAx A0 L0 X target dm subcell h) target i j k
  = (if iget h A0 i j k =? FLUID
     then Ax_at h A0 L0 X dm subcell i j k
     else zero).
Proof.
  intros Hdm _ Hs HX HL Hd.
  unfold computeAx, Ax_at. rewrite Hdm.
  set (hh := fdiv one (fmul (Z2F (Z.max (Z.max n y) n))
                            (Z2F (Z.max (Z.max n y) n)))).
  pose (V := fun (i j k : Z) (s : heap) =>
    let c := vec3i i j k in
    let xr p := xRef s A0 L0 X c p dm subcell in
    fdiv (fsub (fsub (fsub (fsub (fsub (fsub
           (fmul (Z2F 6) (fget s X i j k))
           (xr (vec3i (i + 1) j k)))
           (xr (vec3i (i - 1) j k)))
           (xr (vec3i i (j + 1) k)))
           (xr (vec3i i (j - 1) k)))
           (xr (vec3i i j (k + 1))))
           (xr (vec3i i j (k - 1)))) hh).
  pose (W := fun (i j k : Z) (s : heap) =>
    Some (if iget s A0 i j k =? FLUID then V i j k s else zero)).
  destruct (cube_loop_spec target W
              (fun gn s => let '(i, j, k) := cell_of n y n gn in
                 if iget s A0 i j k =? FLUID
                 then fset s target i j k (V i j k s)
                 else fset s target i j k zero) n y h)
    as (_ & Gt); [unfold in_domain in Hd; lia| |done| |].
  { intros gn s. destruct (cell_of n y n gn) as [[i' j'] k']. unfold W.
    by destruct (iget s A0 i' j' k' =? FLUID). }
  { intros i' j' k' h' _ Hsb Hg. unfold W, V. cbv zeta. f_equal.
    rewrite !(xRef_same_but target h h') by done.
    rewrite (fget_same_but target h h' X) by done.
    unfold iget. destruct Hsb as [-> _]. reflexivity. }
  change (for_gn (n * y * n) _ h)
    with (for_gn (n * y * n) (fun gn s => let '(i, j, k) := cell_of n y n gn in
            if iget s A0 i j k =? FLUID
            then fset s target i j k (V i j k s)
            else fset s target i j k zero) h).
  rewrite Gt. by rewrite decide_True.
Qed.

(** X11. [computeAx] applies the stencil to [X] as it was before the
    call: on a grid with X = Z whose cell count does not overflow [int],
    when the target is allocated and is neither [X] nor [L], every FLUID
    cell of the domain of the target
    ends up with the stencil value computed from the store the call
    started with, every other cell of the domain with 0, and no other
    grid is changed. *)
Theorem computeAx_cube (A0 L0 X target : loc) (dm : vec3) (subcell : Z)
    (h : heap) (n y i j k : Z) :
  dims_int dm = (n, y, n) -> no_overflow n y n ->
  is_Some (floatgrids h !! target) ->
  X <> target -> L0 <> target ->
  in_domain n y n i j k ->
  fget (computeAx A0 L0 X target dm subcell h) target i j k
  = (if iget h A0 i j k =? FLUID
     then Ax_at h A0 L0 X dm subcell i j k
     else zero)
  /\ same_but target h (computeAx A0 L0 X target dm subcell h).
Proof.
  intros Hdm Hno Hs HX HL Hd. split; [|apply computeAx_same_but].
  by apply (computeAx_cells A0 L0 X target dm subcell h n y).
Qed.

End SolverLoops.

Lemma flipGrid_cube_witness :
  let G := geomtype_012 in
  let h := Examples.uniform_store 2 FLUID (fneg one) in
  (fget (flipGrid 3%positive (vec3i 2 2 2) h) 3%positive 1 1 1
   = (if decide (in_domain 2 2 2 1 1 1)
      then fneg (fget h 3%positive 1 1 1) else fget h 3%positive 1 1 1)
   /\ same_but 3%positive h (flipGrid 3%positive (vec3i 2 2 2) h))
  /\ fget (flipGrid 3%positive (vec3i 2 2 2) h) 3%positive 1 1 1 = one.
Proof.
  intros G h. split; [|vm_compute; reflexivity].
  apply (flipGrid_cube 3%positive (vec3i 2 2 2) h 2 2 1 1 1).
  - vm_compute. reflexivity.
  - unfold no_overflow, INT_MIN, INT_MAX. lia.
  - lia.
  - vm_compute. eexists; reflexivity.
Defined.

Lemma op_cube_witness :
  let G := geomtype_012 in
  let h := Examples.uniform_store 2 FLUID (fneg one) in
  (fget (op 1%positive 3%positive 3%positive 3%positive (Z2F 2)
            (vec3i 2 2 2) h) 3%positive 1 0 1
   = (if iget h 1%positive 1 0 1 =? FLUID
      then fadd (fget h 3%positive 1 0 1)
                (fmul (Z2F 2) (fget h 3%positive 1 0 1))
      else zero)
   /\ same_but 3%positive h
        (op 1%positive 3%positive 3%positive 3%positive (Z2F 2)
            (vec3i 2 2 2) h))
  /\ fget (op 1%positive 3%positive 3%positive 3%positive (Z2F 2)
              (vec3i 2 2 2) h) 3%positive 1 0 1 = fneg (Z2F 3).
Proof.
  intros G h. split; [|vm_compute; reflexivity].
  apply (op_cube 1%positive 3%positive 3%positive 3%positive (Z2F 2)
                 (vec3i 2 2 2) h 2 2 1 0 1).
  - vm_compute. reflexivity.
  - unfold no_overflow, INT_MIN, INT_MAX. lia.
  - vm_compute. eexists; reflexivity.
  - unfold in_domain. lia.
Defined.

Lemma computeAx_cube_witness :
  let G := geomtype_012 in
  let h := SolverExamples.bump in
  (fget (computeAx 1%positive 1%positive 3%positive 7%positive
                   (vec3i 2 2 2) 1 h) 7%positive 0 0 0
   = (if iget h 1%positive 0 0 0 =? FLUID
      then Ax_at h 1%positive 1%positive 3%positive (vec3i 2 2 2) 1 0 0 0
      else zero)
   /\ same_but 7%positive h
        (computeAx 1%positive 1%positive 3%positive 7%positive
                   (vec3i 2 2 2) 1 h))
  /\ fget (computeAx 1%positive 1%positive 3%positive 7%positive
                     (vec3i 2 2 2) 1 h) 7%positive 0 0 0 = Z2F 12.
Proof.
  intros G h. split; [|vm_compute; reflexivity].
  apply (computeAx_cube 1%positive 1%positive 3%positive 7%positive
                        (vec3i 2 2 2) 1 h 2 2 0 0 0).
  - vm_compute. reflexivity.
  - unfold no_overflow, INT_MIN, INT_MAX. lia.
  - vm_compute. eexists; reflexivity.
  - intros E; discriminate E.
  - intros E; discriminate E.
  - unfold in_domain. lia.
Defined.

Lemma fneg_involutive v : fneg (fneg v) = v.
Proof. destruct v as [s|s| |s m e]; cbn; by rewrite ?negb_involutive. Qed.

Section Flip.
Context {G : geomtype}.

(** Negating the cells [cs] of [g] in turn negates a cell as many times
    as it occurs in [cs]: in the end it is negated or not, whatever the
    store. *)
Lemma flip_fold (g : loc) (cs : list coord) (i j k : Z) :
  exists b : bool, forall h, is_Some (floatgrids h !! g) ->
    fget (fold_left (fun s c => fset s g c.1.1 c.1.2 c.2
                                  (fneg (fget s g c.1.1 c.1.2 c.2))) cs h)
         g i j k
    = if b then fneg (fget h g i j k) else fget h g i j k.
Proof.
  induction cs as [|[[i' j'] k'] cs [b IH]]; [by exists false|].
  destruct (decide ((i', j', k') = (i, j, k))) as [E|Hne].
  - injection E as -> -> ->. exists (negb b). intros h Hs.
    cbn [fold_left fst snd]. rewrite IH by (by apply setCell_is_Some).
    unfold fget at 1 3, fset. cbn [floatgrids].
    rewrite getCell_setCell_eq by done.
    destruct b; cbn [negb]; [by rewrite fneg_involutive|done].
  - exists b. intros h Hs.
    cbn [fold_left fst snd]. rewrite IH by (by apply setCell_is_Some).
    unfold fget at 1 3, fset. cbn [floatgrids].
    by rewrite getCell_setCell_ne_cell.
Qed.

Lemma flipGrid_fold g dm h :
  flipGrid g dm h
  = let '(x, y, z) := dims_int dm in
    fold_left (fun s c => fset s g c.1.1 c.1.2 c.2
                               (fneg (fget s g c.1.1 c.1.2 c.2)))
              (cell_of x y z <$> seqZ 0 (x * y * z)) h.
Proof.
  unfold flipGrid. destruct (dims_int dm) as [[x y] z]. unfold for_gn.
  generalize (seqZ 0 (x * y * z)). intros l. revert h.
  induction l as [|gn l IH]; intros h; [done|].
  cbn [fmap list_fmap fold_left]. rewrite <- IH. reflexivity.
Qed.

Lemma flipGrid_is_Some g dm h l :
  is_Some (floatgrids (flipGrid g dm h) !! l) <-> is_Some (floatgrids h !! l).
Proof.
  unfold flipGrid. destruct (dims_int dm) as [[x y] z].
  apply (for_gn_inv (fun h' => is_Some (floatgrids h' !! l)
                               <-> is_Some (floatgrids h !! l))); [done|].
  intros gn s _ Hs. destruct (cell_of x y z gn) as [[i j] k].
  rewrite <- Hs. apply setCell_is_Some.
Qed.

(** X12. [flipGrid] undoes itself, whatever the dimensions: after two
    calls in succession every cell of every float grid reads what it
    read before, also where the loop visits a cell more than once or
    misses it. *)
Theorem flipGrid_involutive (g : loc) (dm : vec3) (h : heap)
    (l : loc) (i j k : Z) :
  fget (flipGrid g dm (flipGrid g dm h)) l i j k = fget h l i j k.
Proof.
  destruct (decide (l = g)) as [->|Hne].
  - destruct (floatgrids h !! g) as [gr|] eqn:Eg.
    + assert (Hs : is_Some (floatgrids h !! g)) by (by rewrite Eg).
      assert (Hs1 : is_Some (floatgrids (flipGrid g dm h) !! g))
        by (by apply flipGrid_is_Some).
      rewrite (flipGrid_fold g dm (flipGrid g dm h)).
      rewrite (flipGrid_fold g dm h) in Hs1 |- *.
      destruct (dims_int dm) as [[x y] z].
      destruct (flip_fold g (cell_of x y z <$> seqZ 0 (x * y * z)) i j k)
        as [b Hb].
      rewrite Hb by done. rewrite Hb by done.
      destruct b; [apply fneg_involutive|done].
    + assert (N2 : ~ is_Some (floatgrids (flipGrid g dm (flipGrid g dm h)) !! g)).
      { rewrite !flipGrid_is_Some. rewrite Eg. by intros [? ?]. }
      unfold fget, getCell. rewrite Eg.
      destruct (floatgrids (flipGrid g dm (flipGrid g dm h)) !! g); [|done].
      exfalso. apply N2. eauto.
  - rewrite (fget_same_but g (flipGrid g dm h)) by (apply flipGrid_same_but || done).
    by apply (fget_same_but g h); [apply flipGrid_same_but|].
Qed.

End Flip.

(** ** The helpers of the preconditioner *)

Section Helpers.
Context {G : geomtype}.

(** X13. The matrix that [ARef] reads off the markers is symmetric: the
    entry for the pair of cells (p, q) is the entry for (q, p), and it
    is -1 exactly when both cells are in the domain and FLUID (0
    otherwise). *)
Theorem ARef_symmetric (h : heap) (A0 : loc) (i j k qi qj qk : Z)
    (dm : vec3) (x y z : Z) :
  dims_int dm = (x, y, z) ->
  ARef h A0 i j k qi qj qk dm = ARef h A0 qi qj qk i j k dm
  /\ (ARef h A0 i j k qi qj qk dm = fneg one <->
      fluid_cell h A0 x y z i j k /\ fluid_cell h A0 x y z qi qj qk)
  /\ (ARef h A0 i j k qi qj qk dm = zero <->
      ~ (fluid_cell h A0 x y z i j k /\ fluid_cell h A0 x y z qi qj qk)).
Proof.
  intros Hdm. unfold ARef, fluid_cell. rewrite Hdm.
  destruct (outside x y z i j k), (outside x y z qi qj qk);
    destruct (Z.eqb_spec (iget h A0 i j k) FLUID),
             (Z.eqb_spec (iget h A0 qi qj qk) FLUID);
    cbn [orb negb]; (split; [reflexivity|]); split; split;
    first [ tauto | discriminate | intros [[? ?] [? ?]]; congruence
          | intros _ [[? ?] [? ?]]; congruence
          | intros H; exfalso; apply H; tauto | idtac ].
Qed.

Lemma ADiag_step (h : heap) (A0 L0 : loc) (x y z subcell i j k : Z)
    (q : coord) (d : float) :
  subcell = 0 \/ (outside x y z q.1.1 q.1.2 q.2 = true
                  \/ iget h A0 q.1.1 q.1.2 q.2 <> AIR) ->
  (let '(qi, qj, qk) := q in
   if outside x y z qi qj qk || (iget h A0 qi qj qk =? SOLID)
   then fsub d one
   else if (iget h A0 qi qj qk =? AIR) && negb (subcell =? 0)
   then fsub d (fdiv (fget h L0 qi qj qk) (fmin eps6 (fget h L0 i j k)))
   else d)
  = if is_wall h A0 x y z q then fsub d one else d.
Proof.
  destruct q as [[qi qj] qk]. unfold is_wall. cbn [fst snd].
  intros Hc. destruct (outside x y z qi qj qk) eqn:Eo; [done|].
  cbn [orb]. destruct (iget h A0 qi qj qk =? SOLID); [done|].
  destruct Hc as [-> | [Hc|Hc]]; [by rewrite andb_false_r|done|].
  by destruct (Z.eqb_spec (iget h A0 qi qj qk) AIR).
Qed.

Lemma count_steps (c1 c2 c3 c4 c5 c6 : bool) :
  let step (c : bool) (d : float) := if c then fsub d one else d in
  step c6 (step c5 (step c4 (step c3 (step c2 (step c1 (Z2F 6))))))
  = Z2F (6 - (((((0 + b2z c1) + b2z c2) + b2z c3) + b2z c4) + b2z c5
              + b2z c6)).
Proof. by destruct c1, c2, c3, c4, c5, c6; vm_compute. Qed.

(** X14. Where no ghost-fluid term applies, the diagonal that [ADiag]
    returns for a FLUID cell is the number of its six neighbours that
    are neither outside the domain nor SOLID: 6 minus the number of
    walls, as an exact float. No ghost-fluid term applies when [subcell]
    is 0 or no neighbour inside the domain is AIR. *)
Theorem ADiag_counts_walls (h : heap) (A0 L0 : loc) (i j k : Z) (dm : vec3)
    (subcell x y z : Z) :
  dims_int dm = (x, y, z) ->
  iget h A0 i j k = FLUID ->
  subcell = 0 \/
    Forall (fun q => outside x y z q.1.1 q.1.2 q.2 = true
                     \/ iget h A0 q.1.1 q.1.2 q.2 <> AIR)
           (neighbours6 i j k) ->
  ADiag h A0 L0 i j k dm subcell
  = Z2F (6 - wall_count h A0 x y z i j k).
Proof.
  intros Hdm Hf Hc. unfold ADiag, wall_count. rewrite Hdm, Hf, Z.eqb_refl.
  cbn [negb]. unfold neighbours6. cbn [fold_left].
  assert (Hq : forall q, q ∈ neighbours6 i j k ->
             subcell = 0 \/ (outside x y z q.1.1 q.1.2 q.2 = true
                             \/ iget h A0 q.1.1 q.1.2 q.2 <> AIR)).
  { intros q Hin. destruct Hc as [Hc|Hc]; [by left|right].
    by apply (proj1 (Forall_forall _ _) Hc). }
  unfold neighbours6 in Hq.
  rewrite (ADiag_step h A0 L0 x y z subcell i j k (i - 1, j, k))
    by (apply Hq; repeat (first [by left | right])).
  rewrite (ADiag_step h A0 L0 x y z subcell i j k (i + 1, j, k))
    by (apply Hq; repeat (first [by left | right])).
  rewrite (ADiag_step h A0 L0 x y z subcell i j k (i, j - 1, k))
    by (apply Hq; repeat (first [by left | right])).
  rewrite (ADiag_step h A0 L0 x y z subcell i j k (i, j + 1, k))
    by (apply Hq; repeat (first [by left | right])).
  rewrite (ADiag_step h A0 L0 x y z subcell i j k (i, j, k - 1))
    by (apply Hq; repeat (first [by left | right])).
  rewrite (ADiag_step h A0 L0 x y z subcell i j k (i, j, k + 1))
    by (apply Hq; repeat (first [by left | right])).
  apply (count_steps (is_wall h A0 x y z (i - 1, j, k))
                     (is_wall h A0 x y z (i + 1, j, k))
                     (is_wall h A0 x y z (i, j - 1, k))
                     (is_wall h A0 x y z (i, j + 1, k))
                     (is_wall h A0 x y z (i, j, k - 1))
                     (is_wall h A0 x y z (i, j, k + 1))).
Qed.

(** X15. [buildPreconditioner] writes FLUID cells only: whatever the
    dimensions, a cell of the preconditioner whose marker is not FLUID
    reads after the call what it read before, and no grid other than
    the preconditioner is changed. *)
Theorem buildPreconditioner_skips_non_fluid (pc : loc) (mgrid : macgrid)
    (subcell : Z) (h : heap) (i j k : Z) :
  iget h (A mgrid) i j k <> FLUID ->
  fget (buildPreconditioner pc mgrid subcell h) pc i j k = fget h pc i j k
  /\ same_but pc h (buildPreconditioner pc mgrid subcell h).
Proof.
  intros Hn. split; [|apply buildPreconditioner_same_but].
  unfold buildPreconditioner.
  cut (intgrids (let '(x, y, z) := dims_int (dimensions mgrid) in
         for_gn (x * y * z) (buildPreconditioner_body pc mgrid subcell x y z) h)
       = intgrids h /\
       fget (let '(x, y, z) := dims_int (dimensions mgrid) in
         for_gn (x * y * z) (buildPreconditioner_body pc mgrid subcell x y z) h)
         pc i j k = fget h pc i j k); [tauto|].
  destruct (dims_int (dimensions mgrid)) as [[x y] z].
  apply (for_gn_inv (fun h' => intgrids h' = intgrids h /\
                               fget h' pc i j k = fget h pc i j k));
    [done|].
  intros gn s _ [Hi IH].
  pose proof (buildPreconditioner_body_same_but pc mgrid subcell x y z gn s)
    as [Hi' _].
  split; [congruence|]. rewrite <- IH.
  unfold buildPreconditioner_body in *.
  destruct (cell_of x y z gn) as [[i' j'] k'].
  destruct (Z.eqb_spec (iget s (A mgrid) i' j' k') FLUID) as [Ef|]; [|done].
  cbv zeta. destruct (flt zero _); [|done].
  unfold fget, fset. cbn [floatgrids].
  apply getCell_setCell_ne_cell. intros [= -> -> ->].
  apply Hn. unfold iget in *. congruence.
Qed.

End Helpers.

Lemma ARef_symmetric_witness :
  let G := geomtype_012 in
  let h := Examples.uniform_store 2 FLUID zero in
  ARef h 1%positive 0 0 0 1 0 0 (vec3i 2 2 2)
  = ARef h 1%positive 1 0 0 0 0 0 (vec3i 2 2 2)
  /\ (ARef h 1%positive 0 0 0 1 0 0 (vec3i 2 2 2) = fneg one <->
      fluid_cell h 1%positive 2 2 2 0 0 0 /\ fluid_cell h 1%positive 2 2 2 1 0 0)
  /\ (ARef h 1%positive 0 0 0 1 0 0 (vec3i 2 2 2) = zero <->
      ~ (fluid_cell h 1%positive 2 2 2 0 0 0
         /\ fluid_cell h 1%positive 2 2 2 1 0 0)).
Proof.
  intros G h. apply (ARef_symmetric h 1%positive 0 0 0 1 0 0 (vec3i 2 2 2) 2 2 2).
  vm_compute. reflexivity.
Defined.

Lemma ADiag_counts_walls_witness :
  let G := geomtype_012 in
  let h := Examples.uniform_store 2 FLUID zero in
  ADiag h 1%positive 1%positive 0 0 0 (vec3i 2 2 2) 0
  = Z2F (6 - wall_count h 1%positive 2 2 2 0 0 0)
  /\ wall_count h 1%positive 2 2 2 0 0 0 = 3.
Proof.
  intros G h. split; [|vm_compute; reflexivity].
  apply (ADiag_counts_walls h 1%positive 1%positive 0 0 0 (vec3i 2 2 2) 0 2 2 2).
  - vm_compute. reflexivity.
  - vm_compute. reflexivity.
  - left. reflexivity.
Defined.

Lemma buildPreconditioner_skips_non_fluid_witness :
  let G := geomtype_012 in
  let h := Examples.pocket in
  let m := Examples.mg 3 3 3 in
  (fget (buildPreconditioner 7%positive m 0 h) 7%positive 0 1 1
   = fget h 7%positive 0 1 1
   /\ same_but 7%positive h (buildPreconditioner 7%positive m 0 h))
  /\ iget h (A m) 0 1 1 = SOLID.
Proof.
  intros G h m. split; [|vm_compute; reflexivity].
  apply (buildPreconditioner_skips_non_fluid 7%positive m 0 h 0 1 1).
  vm_compute. intros E; discriminate E.
Defined.

(** ** What [solve] and [solveConjugateGradient] leave behind *)

Local Set Warnings "-clear-no-such-hyp".

Lemma fget_kept h h' l i j k :
  kept h h' -> is_Some (floatgrids h !! l) ->
  fget h' l i j k = fget h l i j k.
Proof. intros [_ K] Hl. unfold fget, getCell. by rewrite K. Qed.

Lemma same_but_dom g h h' :
  same_but g h h' ->
  (is_Some (floatgrids h' !! g) <-> is_Some (floatgrids h !! g)) ->
  dom (floatgrids h') = dom (floatgrids h).
Proof.
  intros [_ Hf] Hg. apply set_eq. intros l. rewrite !elem_of_dom.
  destruct (decide (l = g)) as [->|Hne]; [done|]. by rewrite Hf.
Qed.

Lemma for_gn_fset_is_Some (F : Z -> heap -> heap) n h l :
  (forall gn s, is_Some (floatgrids (F gn s) !! l)
                <-> is_Some (floatgrids s !! l)) ->
  is_Some (floatgrids (for_gn n F h) !! l) <-> is_Some (floatgrids h !! l).
Proof.
  intros HF.
  apply (for_gn_inv (fun h' => is_Some (floatgrids h' !! l)
                               <-> is_Some (floatgrids h !! l))); [done|].
  intros gn s _ Hs. by rewrite HF.
Qed.

Section SolveAfter.
Context {G : geomtype}.

Lemma buildPreconditioner_is_Some pc mgrid subcell h l :
  is_Some (floatgrids (buildPreconditioner pc mgrid subcell h) !! l)
  <-> is_Some (floatgrids h !! l).
Proof.
  unfold buildPreconditioner.
  destruct (dims_int (dimensions mgrid)) as [[x y] z].
  apply for_gn_fset_is_Some. intros gn s. unfold buildPreconditioner_body.
  destruct (cell_of x y z gn) as [[i j] k].
  repeat case_match; try done; apply setCell_is_Some.
Qed.

Lemma op_is_Some A0 X Y target alpha dm h l :
  is_Some (floatgrids (op A0 X Y target alpha dm h) !! l)
  <-> is_Some (floatgrids h !! l).
Proof.
  unfold op. destruct (dims_int dm) as [[x y] z].
  apply for_gn_fset_is_Some. intros gn s.
  destruct (cell_of x y z gn) as [[i j] k].
  case_match; apply setCell_is_Some.
Qed.

Lemma computeAx_is_Some A0 L0 X target dm subcell h l :
  is_Some (floatgrids (computeAx A0 L0 X target dm subcell h) !! l)
  <-> is_Some (floatgrids h !! l).
Proof.
  unfold computeAx. destruct (dims_int dm) as [[x y] z].
  apply for_gn_fset_is_Some. intros gn s.
  destruct (cell_of x y z gn) as [[i j] k].
  case_match; apply setCell_is_Some.
Qed.

Lemma new_floatgrid_dom bg h :
  dom (floatgrids (new_floatgrid bg h).2)
  = {[ (new_floatgrid bg h).1 ]} ∪ dom (floatgrids h).
Proof.
  unfold new_floatgrid, new_grid. cbn. apply dom_insert_L.
Qed.

(** X16. [solve] leaves the three work grids of the conjugate-gradient
    routine behind: the grids [r], [z] and [s] that
    [solveConjugateGradient] allocates are three distinct new grids,
    and after [solve] the float store holds exactly the grids it held
    before and these three; the preconditioner is gone. *)
Theorem solve_leaves_work_grids (mgrid : macgrid) (subcell : Z) (h : heap) :
  let '(r, z, s) := (solve_trace mgrid subcell h).1 in
  NoDup [r; z; s]
  /\ (forall l, l ∈ [r; z; s] -> floatgrids h !! l = None)
  /\ dom (floatgrids (solve mgrid subcell h))
     = {[ r ]} ∪ {[ z ]} ∪ {[ s ]} ∪ dom (floatgrids h).
Proof.
  unfold solve, solve_trace, solveConjugateGradient.
  set (h1 := flipGrid (D mgrid) (dimensions mgrid) h).
  assert (D1 : dom (floatgrids h1) = dom (floatgrids h)).
  { apply (same_but_dom (D mgrid)); [apply flipGrid_same_but|].
    apply flipGrid_is_Some. }
  pose proof (new_floatgrid_dom zero h1) as Dp.
  pose proof (new_floatgrid_fresh zero h1) as Fp.
  destruct (new_floatgrid zero h1) as [pc h2]. cbn [fst snd] in Dp, Fp.
  set (h3 := buildPreconditioner pc mgrid subcell h2).
  assert (D3 : dom (floatgrids h3) = dom (floatgrids h2)).
  { apply (same_but_dom pc); [apply buildPreconditioner_same_but|].
    apply buildPreconditioner_is_Some. }
  pose proof (new_floatgrid_dom zero h3) as Dr.
  pose proof (new_floatgrid_fresh zero h3) as Fr.
  destruct (new_floatgrid zero h3) as [r h4]. cbn [fst snd] in Dr, Fr.
  pose proof (new_floatgrid_dom zero h4) as Dz.
  pose proof (new_floatgrid_fresh zero h4) as Fz.
  destruct (new_floatgrid zero h4) as [z h5]. cbn [fst snd] in Dz, Fz.
  pose proof (new_floatgrid_dom zero h5) as Ds.
  pose proof (new_floatgrid_fresh zero h5) as Fs.
  destruct (new_floatgrid zero h5) as [s h6]. cbn [fst snd] in Ds, Fs.
  set (h7 := computeAx (A mgrid) (L mgrid) (P mgrid) z (dimensions mgrid)
                       subcell h6).
  assert (D7 : dom (floatgrids h7) = dom (floatgrids h6)).
  { apply (same_but_dom z); [apply computeAx_same_but|].
    apply computeAx_is_Some. }
  set (h8 := op (A mgrid) (D mgrid) z r (fneg one) (dimensions mgrid) h7).
  assert (D8 : dom (floatgrids h8) = dom (floatgrids h7)).
  { apply (same_but_dom r); [apply op_same_but|]. apply op_is_Some. }
  cbn [fst snd delete_floatgrid floatgrids].
  apply not_elem_of_dom in Fp, Fr, Fz, Fs.
  rewrite D3, Dp in Fr. rewrite Dr, D3, Dp in Fz.
  rewrite Dz, Dr, D3, Dp in Fs.
  rewrite D1 in Fp, Fr, Fz, Fs.
  split; [|split].
  - apply NoDup_cons. split; [set_solver|].
    apply NoDup_cons. split; [set_solver|].
    apply NoDup_cons. split; [set_solver|]. apply NoDup_nil_2.
  - intros l Hl. apply not_elem_of_dom. set_solver.
  - rewrite dom_delete_L, D8, D7, Ds, Dz, Dr, D3, Dp, D1. set_solver.
Qed.

(** X17. On a grid with X = Z whose cell count does not overflow [int],
    [solve] hands back the divergence negated: every cell of the domain
    of [D] holds after [solve] the negation of what it held before (the
    listing never restores the sign). *)
Theorem solve_negates_divergence (mgrid : macgrid) (subcell : Z) (h : heap)
    (n y i j k : Z) :
  dims_int (dimensions mgrid) = (n, y, n) -> no_overflow n y n ->
  is_Some (floatgrids h !! D mgrid) ->
  in_domain n y n i j k ->
  fget (solve mgrid subcell h) (D mgrid) i j k
  = fneg (fget h (D mgrid) i j k).
Proof.
  intros Hdm Hno Hs (Hi & Hj & Hk).
  rewrite <- (flipGrid_negates_when_x_is_z (D mgrid) (dimensions mgrid) h
                n y i j k Hdm Hno Hs Hi Hj Hk).
  unfold solve, solve_trace.
  set (h1 := flipGrid (D mgrid) (dimensions mgrid) h).
  assert (Hs1 : is_Some (floatgrids h1 !! D mgrid))
    by (by apply flipGrid_is_Some).
  pose proof (new_floatgrid_kept zero h1) as K2.
  pose proof (new_floatgrid_fresh zero h1) as F2.
  destruct (new_floatgrid zero h1) as [pc h2]. cbn [fst snd] in K2, F2.
  assert (Hpc : D mgrid <> pc).
  { intros E. rewrite <- E in F2. rewrite F2 in Hs1. by destruct Hs1. }
  pose proof (buildPreconditioner_same_but pc mgrid subcell h2) as B3.
  set (h3 := buildPreconditioner pc mgrid subcell h2) in *.
  pose proof (solveConjugateGradient_kept mgrid pc subcell h3) as K4.
  destruct (solveConjugateGradient mgrid pc subcell h3) as [rzs h4].
  cbn [fst snd] in *.
  unfold fget, getCell, delete_floatgrid. cbn [floatgrids].
  rewrite lookup_delete_ne by (by apply not_eq_sym).
  destruct K4 as [_ K4]. destruct B3 as [_ B3]. destruct K2 as [_ K2].
  rewrite K4, B3, K2; try done.
  rewrite B3, K2 by done. done.
Qed.

Lemma new_floatgrid_is_Some bg h :
  is_Some (floatgrids (new_floatgrid bg h).2 !! (new_floatgrid bg h).1).
Proof.
  unfold new_floatgrid, new_grid. cbn. rewrite lookup_insert_eq. eauto.
Qed.

Lemma kept_is_Some h h' l :
  kept h h' -> is_Some (floatgrids h !! l) -> is_Some (floatgrids h' !! l).
Proof. intros [_ K] Hl. by rewrite K. Qed.

Lemma xRef_kept h h' A0 L0 X f p dm subcell :
  kept h h' -> is_Some (floatgrids h !! X) -> is_Some (floatgrids h !! L0) ->
  xRef h' A0 L0 X f p dm subcell = xRef h A0 L0 X f p dm subcell.
Proof.
  intros [Hi Hf] HX HL. unfold xRef. destruct (dims_int dm) as [[x y] z].
  cbv zeta. unfold iget. rewrite Hi.
  unfold fget, getCell. by rewrite !(Hf X HX), !(Hf L0 HL).
Qed.

Lemma Ax_at_kept h h' A0 L0 X dm subcell i j k :
  kept h h' -> is_Some (floatgrids h !! X) -> is_Some (floatgrids h !! L0) ->
  Ax_at h' A0 L0 X dm subcell i j k = Ax_at h A0 L0 X dm subcell i j k.
Proof.
  intros K HX HL. unfold Ax_at. destruct (dims_int dm) as [[x y] z].
  cbv zeta. rewrite !(xRef_kept h h') by done.
  by rewrite (fget_kept h h' X).
Qed.

(** X18. [solveConjugateGradient] leaves the residual b - A·x in [r]:
    on a grid with X = Z whose cell count does not overflow [int], with
    the pressure, the level set and the divergence allocated, every FLUID
    cell of the domain of the new grid
    [r] holds D + (-1)·(A·P), the stencil being applied to the pressure
    of the store the call started with, and every other cell of the
    domain holds 0. *)
Theorem solveConjugateGradient_residual (mgrid : macgrid) (pc : loc)
    (subcell : Z) (h : heap) (n y i j k : Z) :
  dims_int (dimensions mgrid) = (n, y, n) -> no_overflow n y n ->
  is_Some (floatgrids h !! P mgrid) ->
  is_Some (floatgrids h !! L mgrid) ->
  is_Some (floatgrids h !! D mgrid) ->
  in_domain n y n i j k ->
  let '(r, _, _, h') := solveConjugateGradient mgrid pc subcell h in
  fget h' r i j k
  = if iget h (A mgrid) i j k =? FLUID
    then fadd (fget h (D mgrid) i j k)
              (fmul (fneg one)
                    (Ax_at h (A mgrid) (L mgrid) (P mgrid) (dimensions mgrid)
                           subcell i j k))
    else zero.
Proof.
  intros Hdm Hno HP HL HD Hd. unfold solveConjugateGradient.
  pose proof (new_floatgrid_kept zero h) as K1.
  pose proof (new_floatgrid_is_Some zero h) as S1.
  destruct (new_floatgrid zero h) as [r h1]. cbn [fst snd] in K1, S1.
  pose proof (new_floatgrid_kept zero h1) as K2.
  pose proof (new_floatgrid_fresh zero h1) as F2.
  pose proof (new_floatgrid_is_Some zero h1) as S2.
  destruct (new_floatgrid zero h1) as [z h2]. cbn [fst snd] in K2, F2, S2.
  pose proof (new_floatgrid_kept zero h2) as K3.
  destruct (new_floatgrid zero h2) as [s h3]. cbn [fst snd] in K3.
  assert (K : kept h h3).
  { eapply kept_trans; [|exact K3]. eapply kept_trans; eauto. }
  assert (Hne : forall l, is_Some (floatgrids h1 !! l) -> l <> z).
  { intros l Hl ->. rewrite F2 in Hl. by destruct Hl. }
  assert (Pz : P mgrid <> z) by (by apply Hne, (kept_is_Some h)).
  assert (Lz : L mgrid <> z) by (by apply Hne, (kept_is_Some h)).
  assert (Dz : D mgrid <> z) by (by apply Hne, (kept_is_Some h)).
  assert (rz : r <> z) by (by apply Hne).
  assert (Sz : is_Some (floatgrids h3 !! z)) by (by apply (kept_is_Some h2)).
  assert (Sr : is_Some (floatgrids h3 !! r)).
  { apply (kept_is_Some h2); [done|]. by apply (kept_is_Some h1). }
  pose proof (computeAx_cells (A mgrid) (L mgrid) (P mgrid) z
                (dimensions mgrid) subcell h3 n y i j k Hdm Hno Sz Pz Lz Hd)
    as Ez.
  pose proof (computeAx_same_but (A mgrid) (L mgrid) (P mgrid) z
                (dimensions mgrid) subcell h3) as Bz.
  set (h7 := computeAx (A mgrid) (L mgrid) (P mgrid) z (dimensions mgrid)
                       subcell h3) in *.
  assert (Sr7 : is_Some (floatgrids h7 !! r))
    by (by apply (same_but_is_Some z h3)).
  pose proof (op_cells (A mgrid) (D mgrid) z r (fneg one) (dimensions mgrid)
                h7 n y i j k Hdm Hno Sr7 Hd) as Er.
  rewrite Er, Ez.
  assert (Ei : forall a b c, iget h7 (A mgrid) a b c = iget h (A mgrid) a b c).
  { intros a b c. unfold iget. destruct Bz as [-> _]. by destruct K as [-> _]. }
  assert (Ei3 : iget h3 (A mgrid) i j k = iget h (A mgrid) i j k).
  { unfold iget. by destruct K as [-> _]. }
  rewrite Ei, Ei3.
  destruct (iget h (A mgrid) i j k =? FLUID); [|done].
  rewrite (fget_same_but z h3 h7) by done.
  rewrite (fget_kept h h3) by done.
  by rewrite (Ax_at_kept h h3).
Qed.

End SolveAfter.

Lemma solve_negates_divergence_witness :
  let G := geomtype_012 in
  let m := Examples.mg 2 2 2 in
  let h := Examples.uniform_store 2 FLUID (fneg one) in
  fget (solve m 1 h) (D m) 1 1 0 = fneg (fget h (D m) 1 1 0)
  /\ fget (solve m 1 h) (D m) 1 1 0 = one.
Proof.
  intros G m h. split; [|vm_compute; reflexivity].
  apply (solve_negates_divergence m 1 h 2 2 1 1 0).
  - vm_compute. reflexivity.
  - unfold no_overflow, INT_MIN, INT_MAX. lia.
  - vm_compute. eexists; reflexivity.
  - unfold in_domain. lia.
Defined.

Lemma solveConjugateGradient_residual_witness :
  let G := geomtype_012 in
  let m := Examples.mg 2 2 2 in
  let h := Examples.uniform_store 2 FLUID one in
  (let '(r, _, _, h') := solveConjugateGradient m 7%positive 1 h in
   fget h' r 1 0 1
   = (if iget h (A m) 1 0 1 =? FLUID
      then fadd (fget h (D m) 1 0 1)
                (fmul (fneg one)
                      (Ax_at h (A m) (L m) (P m) (dimensions m) 1 1 0 1))
      else zero))
  /\ fget (solveConjugateGradient m 7%positive 1 h).2
          (solveConjugateGradient m 7%positive 1 h).1.1.1 1 0 1 = one.
Proof.
  intros G m h. split; [|vm_compute; reflexivity].
  apply (solveConjugateGradient_residual m 7%positive 1 h 2 2 1 0 1).
  - vm_compute. reflexivity.
  - unfold no_overflow, INT_MIN, INT_MAX. lia.
  - vm_compute. eexists; reflexivity.
  - vm_compute. eexists; reflexivity.
  - vm_compute. eexists; reflexivity.
  - unfold in_domain. lia.
Defined.

(** ** The particle passes *)

Lemma with_particles_same sim ps :
  ps = m_particles sim -> with_particles ps sim = sim.
Proof. intros ->. by destruct sim. Qed.

Lemma same_position_refl v : same_position v v.
Proof. repeat split; by left. Qed.

Section ParticlePasses.
Context {G : geomtype} {scene : Scene}.

(** X19. Right after [StoreTempParticleVelocities] the constraint pass
    has nothing to do: every particle then has [m_pt] equal to [m_p], the
    direction of its ray is a NaN vector, and
    [CheckParticleSolidConstraints] leaves the whole simulation state as
    it is, whatever the scene. *)
Theorem CheckParticleSolidConstraints_after_store (sim : FlipSim) :
  CheckParticleSolidConstraints (StoreTempParticleVelocities sim)
  = StoreTempParticleVelocities sim.
Proof.
  set (s := StoreTempParticleVelocities sim).
  unfold CheckParticleSolidConstraints. apply with_particles_same.
  rewrite for_n_alter_map. apply list_eq. intros n.
  rewrite list_lookup_fmap.
  destruct (m_particles s !! n) as [p|] eqn:Hp; [|done].
  cbn [fmap option_fmap option_map]. f_equal.
  apply CheckParticleSolidConstraints_body_null.
  unfold s, StoreTempParticleVelocities in Hp.
  cbn [m_particles with_particles] in Hp.
  rewrite for_n_alter_map, list_lookup_fmap in Hp.
  destruct (m_particles sim !! n) as [q|]; [|done].
  injection Hp as <-. cbn [m_p m_pt set_ut set_pt].
  apply same_position_refl.
Qed.

(** X20. [CheckParticleSolidConstraints] touches FLUID particles only:
    the array keeps its length, every particle keeps its type, and a
    particle that is not FLUID is left exactly as it was. *)
Theorem CheckParticleSolidConstraints_stable (sim : FlipSim) :
  stable (m_particles sim) (m_particles (CheckParticleSolidConstraints sim)).
Proof.
  unfold CheckParticleSolidConstraints. cbn [m_particles with_particles].
  rewrite for_n_alter_map. split; [by rewrite length_fmap|].
  intros k a Ha. exists (CheckParticleSolidConstraints_body sim a).
  rewrite list_lookup_fmap, Ha. split; [done|].
  unfold CheckParticleSolidConstraints_body. cbv zeta.
  destruct (Z.eqb_spec (m_type a) FLUID) as [Hf|Hf]; [|done].
  split; [|intros; congruence].
  repeat case_match; reflexivity.
Qed.

(** X21. Where there is no solid, [CheckParticleSolidConstraints]
    changes nothing: if no ray hits a solid and no point is inside one,
    the pass leaves the whole simulation state as it is. *)
Theorem CheckParticleSolidConstraints_no_solid (sim : FlipSim) :
  (forall r, m_hit (IntersectSolidGeoms r) = false) ->
  (forall q f, CheckPointInsideSolidGeom q f = false) ->
  CheckParticleSolidConstraints sim = sim.
Proof.
  intros Hh Hc. unfold CheckParticleSolidConstraints.
  apply with_particles_same.
  rewrite for_n_alter_map. apply list_eq. intros n.
  rewrite list_lookup_fmap.
  destruct (m_particles sim !! n) as [p|]; [|done].
  cbn [fmap option_fmap option_map]. f_equal.
  unfold CheckParticleSolidConstraints_body. cbv zeta.
  destruct (m_type p =? FLUID); [|done].
  destruct (feq _ _); [|done].
  by rewrite Hh, Hc.
Qed.

End ParticlePasses.

Lemma CheckParticleSolidConstraints_no_solid_witness :
  let G := geomtype_012 in
  let scene : Scene := {|
    IntersectSolidGeoms := fun _ =>
      mkIntersection false SimExamples.origin3 SimExamples.origin3;
    CheckPointInsideSolidGeom := fun _ _ => false;
    GetExternalForces := [];
    ProjectPointsToSurface := fun ps _ => ps |} in
  let sim := SimExamples.sim4 [SimExamples.mover] in
  CheckParticleSolidConstraints sim = sim.
Proof.
  intros G scene sim. apply (CheckParticleSolidConstraints_no_solid sim).
  - intros r. reflexivity.
  - intros q f. reflexivity.
Defined.

(** X22. [AdvectParticles] moves FLUID particles only: the array keeps
    its length, every particle keeps its type, and a particle that is
    not FLUID (a SOLID one in particular) is left exactly as it was,
    whatever the interpolated velocity field. *)
Theorem AdvectParticles_stable {G : geomtype}
    (InterpolateVelocity : vec3 -> MacGrid -> heap -> vec3) (sim : FlipSim) :
  stable (m_particles sim)
         (m_particles (AdvectParticles InterpolateVelocity sim)).
Proof.
  unfold AdvectParticles. cbn [m_particles with_particles with_pgrid].
  rewrite for_n_alter_map.
  eapply stable_trans; [apply move_stable|].
  apply constrains_stable.
Qed.

Lemma for_n_ind {S} (I : nat -> S -> Prop) n (body : nat -> S -> S) s :
  I 0%nat s ->
  (forall i s, (i < n)%nat -> I i s -> I (Datatypes.S i) (body i s)) ->
  I n (for_n n body s).
Proof.
  intros H0 Hstep.
  assert (Hall : forall m, (m <= n)%nat -> I m (for_n m body s)).
  { induction m as [|m IH]; intros Hm; [exact H0|].
    rewrite for_n_S. apply Hstep; [lia|]. apply IH. lia. }
  by apply Hall.
Qed.

Section Density.
Context {G : geomtype}.
Variable Sqrlength : vec3 -> vec3 -> float.
Variable Smooth : float -> float -> float.

Lemma ComputeDensity_body_other sim rest maxd i ps k :
  k <> i ->
  ComputeDensity_body Sqrlength Smooth sim rest maxd i ps !! k = ps !! k.
Proof.
  intros Hk. unfold ComputeDensity_body.
  destruct (ps !! i) as [p|]; [|done].
  destruct (m_type p =? SOLID); cbv zeta; by rewrite list_lookup_alter_ne.
Qed.

(** X23. [ComputeDensity] writes the density and nothing else: every
    particle comes out with all its other fields as they were, and a
    SOLID particle comes out with the density exactly 1, whatever the
    smoothing kernel. *)
Theorem ComputeDensity_density_only (sim : FlipSim) (rest : FlipSimRest)
    (n : nat) (p : Particle) :
  m_particles sim !! n = Some p ->
  exists d,
    m_particles (ComputeDensity Sqrlength Smooth sim rest) !! n
    = Some (set_density d p)
    /\ (m_type p = SOLID -> d = one).
Proof.
  intros Hn. unfold ComputeDensity. cbn [m_particles with_particles].
  set (maxd := maxd_of (m_dimensions sim)).
  rewrite (for_n_local _ _ n); [|by intros; apply ComputeDensity_body_other].
  rewrite decide_True by (by eapply lookup_lt_Some).
  assert (Hp : for_n n (ComputeDensity_body Sqrlength Smooth sim rest maxd)
                     (m_particles sim) !! n = Some p).
  { rewrite (for_n_local _ _ n);
      [|by intros; apply ComputeDensity_body_other].
    by rewrite decide_False by lia. }
  set (ps := for_n n _ (m_particles sim)) in *.
  unfold ComputeDensity_body. rewrite Hp.
  destruct (Z.eqb_spec (m_type p) SOLID) as [Hs|Hs].
  - exists one. by rewrite list_lookup_alter_eq, Hp.
  - cbv zeta. eexists. rewrite list_lookup_alter_eq, Hp.
    split; [reflexivity|done].
Qed.

End Density.

Lemma ComputeDensity_density_only_witness :
  let G := geomtype_012 in
  let sim := SimExamples.sim4 [SimExamples.pusher] in
  let rest := GridExamples.rest789 in
  exists d,
    m_particles (ComputeDensity (fun _ _ => zero) (fun _ _ => zero) sim rest)
      !! 0%nat
    = Some (set_density d SimExamples.pusher)
    /\ (m_type SimExamples.pusher = SOLID -> d = one).
Proof.
  intros G sim rest.
  apply (ComputeDensity_density_only (fun _ _ => zero) (fun _ _ => zero)
           sim rest 0 SimExamples.pusher).
  reflexivity.
Defined.

Section Stuck.
Context {G : geomtype} {scene : Scene}.

(** What the first loop of [AdjustParticlesStuckInSolids] does to a
    particle, and the check it records. *)
Lemma stuck_checks sim (ps0 : list Particle) m :
  (m <= length ps0)%nat ->
  let maxd := maxd_of (m_dimensions sim) in
  let '(ps, checks) :=
    for_n m (fun p '(ps, checks) =>
      match ps !! p with
      | Some q =>
          if m_type q =? FLUID then
            let ps := alter (set_temps false false) p ps in
            let point := vscale (m_p q) maxd in
            (ps, checks ++
                 [CheckPointInsideSolidGeom point (Z2F (m_frame sim))])
          else (ps, checks ++ [false])
      | None => (ps, checks)
      end) (ps0, []) in
  length checks = m /\
  length ps = length ps0 /\
  (forall k q, ps0 !! k = Some q ->
     ps !! k = Some (if decide (k < m)%nat
                     then (if m_type q =? FLUID
                           then set_temps false false q else q)
                     else q)) /\
  (forall k q, (k < m)%nat -> ps0 !! k = Some q ->
     checks !! k
     = Some ((m_type q =? FLUID)
             && CheckPointInsideSolidGeom (vscale (m_p q) maxd)
                                          (Z2F (m_frame sim)))).
Proof.
  intros Hm maxd. induction m as [|m IH].
  - cbn. split; [done|]. split; [done|]. split; [|intros; lia].
    intros k q Hk. by rewrite decide_False by lia.
  - rewrite for_n_S. specialize (IH ltac:(lia)).
    destruct (for_n m _ (ps0, [])) as [ps checks].
    destruct IH as (Hlc & Hlp & Hps & Hch).
    destruct (lookup_lt_is_Some_2 ps0 m ltac:(lia)) as [q0 Hq0].
    rewrite (Hps m q0 Hq0). rewrite decide_False by lia.
    destruct (m_type q0 =? FLUID) eqn:Ef.
    + cbv zeta. split; [rewrite length_app; cbn; lia|].
      split; [by rewrite length_alter|]. split.
      * intros k q Hk. destruct (decide (k = m)) as [->|Hne].
        -- rewrite list_lookup_alter_eq, (Hps m q Hk).
           rewrite decide_False by lia. rewrite decide_True by lia.
           assert (q = q0) by congruence. subst q. by rewrite Ef.
        -- rewrite list_lookup_alter_ne by done. rewrite (Hps k q Hk).
           destruct (decide (k < m)%nat), (decide (k < Datatypes.S m)%nat);
             try lia; done.
      * intros k q Hk Hq. destruct (decide (k = m)) as [->|Hne].
        -- rewrite lookup_app_r by lia. rewrite Hlc, Nat.sub_diag.
           assert (q = q0) by congruence. subst q. by rewrite Ef.
        -- rewrite lookup_app_l by lia. apply Hch; [lia|done].
    + split; [rewrite length_app; cbn; lia|].
      split; [done|]. split.
      * intros k q Hk. rewrite (Hps k q Hk).
        destruct (decide (k = m)) as [->|Hne].
        -- rewrite decide_False by lia. rewrite decide_True by lia.
           assert (q = q0) by congruence. subst q. by rewrite Ef.
        -- destruct (decide (k < m)%nat), (decide (k < Datatypes.S m)%nat);
             try lia; done.
      * intros k q Hk Hq. destruct (decide (k = m)) as [->|Hne].
        -- rewrite lookup_app_r by lia. rewrite Hlc, Nat.sub_diag.
           assert (q = q0) by congruence. subst q. by rewrite Ef.
        -- rewrite lookup_app_l by lia. apply Hch; [lia|done].
Qed.

(** The second loop collects the indices whose check is set, and writes
    those particles only. *)
Lemma stuck_list (checks : list bool) (ps1 : list Particle) m :
  let '(ps, stuck) :=
    for_n m (fun p '(ps, stuck) =>
      if default false (checks !! p) then
        (alter (fun q => set_pt (m_p q) q) p ps, stuck ++ [p])
      else (ps, stuck)) (ps1, []) in
  (forall k, k ∈ stuck -> checks !! k = Some true) /\
  (forall k, checks !! k <> Some true -> ps !! k = ps1 !! k).
Proof.
  induction m as [|m IH].
  - cbn. split; [|done]. intros k Hk. by apply elem_of_nil in Hk.
  - rewrite for_n_S. destruct (for_n m _ (ps1, [])) as [ps stuck].
    destruct IH as [Hst Hps].
    destruct (checks !! m) as [[]|] eqn:Ec; cbn [default]; [|done|done].
    split.
    + intros k [Hk|Hk%list_elem_of_singleton]%elem_of_app; [by apply Hst|].
      by subst k.
    + intros k Hk. rewrite list_lookup_alter_ne by (intros ->; by apply Hk).
      by apply Hps.
Qed.

Lemma inserts_other (ws : list (nat * Particle)) (ps : list Particle) k :
  k ∉ ws.*1 ->
  fold_left (fun ps '(n, q) => <[n := q]> ps) ws ps !! k = ps !! k.
Proof.
  revert ps. induction ws as [|[n q] ws IH]; intros ps Hk; [done|].
  cbn [fold_left]. rewrite IH.
  - apply list_lookup_insert_ne. intros ->. apply Hk. by left.
  - intros Hin. apply Hk. by right.
Qed.

Lemma raycasts_other sim (stuck : list nat) (ps : list Particle) k :
  k ∉ stuck ->
  AdjustParticlesStuckInSolids_raycasts sim stuck ps !! k = ps !! k.
Proof.
  intros Hk. unfold AdjustParticlesStuckInSolids_raycasts. cbv zeta.
  rewrite (for_n_lookup_fold (fun m ps =>
    alter (AdjustParticlesStuckInSolids_raycast sim) m ps)).
  revert ps. induction stuck as [|m stuck IH]; intros ps; [done|].
  cbn [fold_left]. rewrite IH by (intros Hin; apply Hk; by right).
  apply list_lookup_alter_ne. intros ->. apply Hk. by left.
Qed.

(** X24. [AdjustParticlesStuckInSolids] moves stuck particles only: a
    particle that is not FLUID comes out exactly as it was, and a FLUID
    particle whose position is not inside a solid comes out with its
    position, its velocity and every other field as they were, but for
    the two flags [m_temp] and [m_temp2], which are cleared; this holds
    whatever the projection to the surface does with the particles it
    is handed. *)
Theorem AdjustParticlesStuckInSolids_not_stuck (sim : FlipSim) (n : nat)
    (p : Particle) :
  m_particles sim !! n = Some p ->
  m_type p <> FLUID \/
    CheckPointInsideSolidGeom (vscale (m_p p) (maxd_of (m_dimensions sim)))
                              (Z2F (m_frame sim)) = false ->
  m_particles (AdjustParticlesStuckInSolids sim) !! n
  = Some (if m_type p =? FLUID then set_temps false false p else p).
Proof.
  intros Hn Hfree. unfold AdjustParticlesStuckInSolids.
  set (maxd := maxd_of (m_dimensions sim)).
  pose proof (stuck_checks sim (m_particles sim) (length (m_particles sim))
                ltac:(lia)) as H1.
  cbv zeta in H1 |- *. fold maxd in H1.
  destruct (for_n (length (m_particles sim)) _ (m_particles sim, []))
    as [ps1 checks].
  destruct H1 as (Hlc & Hlp & Hps & Hch).
  pose proof (stuck_list checks ps1 (length (m_particles sim))) as H2.
  destruct (for_n (length (m_particles sim)) _ (ps1, [])) as [ps2 stuck].
  destruct H2 as [Hst Hps2].
  cbn [m_particles with_particles].
  pose proof (lookup_lt_Some _ _ _ Hn) as Hlt.
  assert (Hc : checks !! n <> Some true).
  { rewrite (Hch n p Hlt Hn). intros [= E]. apply andb_true_iff in E as [E1 E2].
    apply Z.eqb_eq in E1. destruct Hfree as [Hf|Hf]; [done|].
    fold maxd in Hf. congruence. }
  assert (Hns : n ∉ stuck) by (intros Hin; by apply Hc, Hst).
  rewrite raycasts_other by done.
  rewrite inserts_other.
  - rewrite Hps2 by done. rewrite (Hps n p Hn). by rewrite decide_True.
  - intros Hin. apply Hns.
    apply list_elem_of_fmap in Hin as ([n' q] & -> & Hin).
    apply elem_of_zip_l in Hin. exact Hin.
Qed.

End Stuck.

Lemma AdjustParticlesStuckInSolids_not_stuck_witness :
  let G := geomtype_012 in
  let scene := SimExamples.wall in
  let sim := SimExamples.sim4 [SimExamples.mover; SimExamples.pusher] in
  m_particles (AdjustParticlesStuckInSolids sim) !! 0%nat
  = Some (if m_type SimExamples.mover =? FLUID
          then set_temps false false SimExamples.mover
          else SimExamples.mover)
  /\ m_type SimExamples.mover = FLUID.
Proof.
  intros G scene sim. split; [|reflexivity].
  apply (AdjustParticlesStuckInSolids_not_stuck sim 0 SimExamples.mover).
  - reflexivity.
  - right. reflexivity.
Defined.

(** ** What [ExtrapolateVelocity] never writes *)

Lemma getCell_setCell_cases {T} `{Inhabited T} (h : gmap loc (Grid T))
    l i j k l' i' j' k' (v : T) :
  (l = l' /\ (i, j, k) = (i', j', k')
   /\ (getCell (setCell h l i j k v) l' i' j' k' = v
       \/ getCell (setCell h l i j k v) l' i' j' k' = getCell h l' i' j' k'))
  \/ getCell (setCell h l i j k v) l' i' j' k' = getCell h l' i' j' k'.
Proof.
  destruct (decide (l = l' /\ (i, j, k) = (i', j', k'))) as [[-> E]|Hne].
  - left. split; [done|]. split; [done|]. injection E as -> -> ->.
    destruct (h !! l') as [gr|] eqn:Eg.
    + left. apply getCell_setCell_eq. by rewrite Eg.
    + right. unfold getCell. by rewrite setCell_lookup_None, Eg.
  - right. by apply getCell_setCell_other.
Qed.

Lemma wrap32_le n : 0 <= n -> wrap32 n <= n.
Proof. intros Hn. unfold wrap32. apply Z.mod_le; lia. Qed.

Lemma wrap32_range n : 0 <= wrap32 n < 2 ^ 32.
Proof. unfold wrap32. apply Z.mod_pos_bound. lia. Qed.

Section ExtrapolateFrame.
Context {G : geomtype}.

Lemma alloc_facts ig0 :
  let '(mark, wallmark, ig1) := ExtrapolateVelocity_alloc ig0 in
  (forall l, is_Some (ig0 !! l) ->
     ig1 !! l = ig0 !! l /\ (forall n, l <> mark n)
     /\ (forall n, l <> wallmark n))
  /\ (forall n n', mark n <> wallmark n')
  /\ (forall n n', 0 <= n < 3 -> 0 <= n' < 3 -> mark n = mark n' -> n = n')
  /\ (forall n n', 0 <= n < 3 -> 0 <= n' < 3 ->
        wallmark n = wallmark n' -> n = n')
  /\ (forall n i j k, getCell ig1 (mark n) i j k = 0)
  /\ (forall n i j k, getCell ig1 (wallmark n) i j k = 0).
Proof.
  unfold ExtrapolateVelocity_alloc, new_grid. cbv zeta beta iota.
  set (e := mkGrid 0 ∅).
  set (m0 := fresh (dom ig0)). set (g1 := <[m0 := e]> ig0).
  set (w0 := fresh (dom g1)). set (g2 := <[w0 := e]> g1).
  set (m1 := fresh (dom g2)). set (g3 := <[m1 := e]> g2).
  set (w1 := fresh (dom g3)). set (g4 := <[w1 := e]> g3).
  set (m2 := fresh (dom g4)). set (g5 := <[m2 := e]> g4).
  set (w2 := fresh (dom g5)). set (g6 := <[w2 := e]> g5).
  assert (F0 : ig0 !! m0 = None) by apply not_elem_of_dom, is_fresh.
  assert (F1 : g1 !! w0 = None) by apply not_elem_of_dom, is_fresh.
  assert (F2 : g2 !! m1 = None) by apply not_elem_of_dom, is_fresh.
  assert (F3 : g3 !! w1 = None) by apply not_elem_of_dom, is_fresh.
  assert (F4 : g4 !! m2 = None) by apply not_elem_of_dom, is_fresh.
  assert (F5 : g5 !! w2 = None) by apply not_elem_of_dom, is_fresh.
  unfold g5 in F5. unfold g4 in F5, F4. unfold g3 in F5, F4, F3.
  unfold g2 in F5, F4, F3, F2. unfold g1 in F5, F4, F3, F2, F1.
  repeat match goal with
         | H : <[_ := _]> _ !! _ = None |- _ =>
             apply lookup_insert_None in H; destruct H
         end.
  assert (E : forall l, l = m0 \/ l = w0 \/ l = m1 \/ l = w1 \/ l = m2 \/ l = w2 ->
              g6 !! l = Some e).
  { intros l Hl. unfold g6, g5, g4, g3, g2, g1.
    destruct Hl as [->|[->|[->|[->|[->| ->]]]]];
      rewrite ?lookup_insert_eq; try done;
      repeat (rewrite lookup_insert_ne by done; rewrite ?lookup_insert_eq);
      done. }
  assert (Z0 : forall l i j k,
             l = m0 \/ l = w0 \/ l = m1 \/ l = w1 \/ l = m2 \/ l = w2 ->
             getCell g6 l i j k = 0).
  { intros l i j k Hl. unfold getCell. by rewrite (E l Hl). }
  split; [|split; [|split; [|split; [|split]]]].
  - intros l Hl.
    assert (Hne : l <> m0 /\ l <> w0 /\ l <> m1 /\ l <> w1 /\ l <> m2 /\ l <> w2).
    { repeat split; intros ->; destruct Hl as [? Hl]; congruence. }
    destruct Hne as (? & ? & ? & ? & ? & ?).
    split; [|split].
    + unfold g6, g5, g4, g3, g2, g1. by rewrite !lookup_insert_ne.
    + intros n. unfold sel3. repeat case_match; done.
    + intros n. unfold sel3. repeat case_match; done.
  - intros n n'. unfold sel3. repeat case_match; congruence.
  - intros n n' Hn Hn'.
    destruct (three_cases n Hn) as [->|[->| ->]],
             (three_cases n' Hn') as [->|[->| ->]];
      unfold sel3; cbn [Z.eqb Pos.eqb]; intros; first [done|congruence].
  - intros n n' Hn Hn'.
    destruct (three_cases n Hn) as [->|[->| ->]],
             (three_cases n' Hn') as [->|[->| ->]];
      unfold sel3; cbn [Z.eqb Pos.eqb]; intros; first [done|congruence].
  - intros n i j k. apply Z0. unfold sel3. repeat case_match; tauto.
  - intros n i j k. apply Z0. unfold sel3. repeat case_match; tauto.
Qed.

End ExtrapolateFrame.

Lemma getCell_same_lookup {T} `{Inhabited T} (s s' : gmap loc (Grid T))
    l i j k :
  s !! l = s' !! l -> getCell s l i j k = getCell s' l i j k.
Proof. intros E. unfold getCell. by rewrite E. Qed.

Section ExtrapolateMarksInv.
Context {G : geomtype}.
Variables (A0 : loc) (x y z : Z) (mark wallmark : Z -> loc).
Variable ig1 : gmap loc (Grid Z).
Hypothesis x_nonneg : 0 <= x.
Hypothesis y_nonneg : 0 <= y.
Hypothesis z_nonneg : 0 <= z.
Hypothesis A_not_mark : forall n, A0 <> mark n.
Hypothesis A_not_wallmark : forall n, A0 <> wallmark n.
Hypothesis mark_not_wallmark : forall n n', mark n <> wallmark n'.
Hypothesis mark_inj :
  forall n n', 0 <= n < 3 -> 0 <= n' < 3 -> mark n = mark n' -> n = n'.
Hypothesis wallmark_inj :
  forall n n', 0 <= n < 3 -> 0 <= n' < 3 -> wallmark n = wallmark n' -> n = n'.

Lemma marks_step n i j k (m w : bool) s :
  0 <= n < 3 ->
  marks_inv A0 x y z mark wallmark ig1 s ->
  (m = true -> exists a b c, in_domain x y z a b c
                             /\ getCell ig1 A0 a b c = FLUID) ->
  (w = true -> ~ open_face ig1 A0 x y z n i j k) ->
  marks_inv A0 x y z mark wallmark ig1
    (setCell (setCell s (mark n) i j k (b2z m)) (wallmark n) i j k (b2z w)).
Proof.
  intros Hn (HA & HM & HW) Hm Hw. split; [|split].
  - rewrite !setCell_lookup_ne by (apply not_eq_sym; done). exact HA.
  - intros n' i' j' k' Hn' Hv.
    rewrite getCell_setCell_ne_loc in Hv by (apply not_eq_sym; done).
    destruct (getCell_setCell_cases s (mark n) i j k (mark n') i' j' k' (b2z m))
      as [(_ & _ & [E|E])|E]; rewrite E in Hv.
    + destruct m; [by apply Hm|done].
    + by apply (HM n' i' j' k').
    + by apply (HM n' i' j' k').
  - intros n' i' j' k' Hn' Hv.
    destruct (getCell_setCell_cases (setCell s (mark n) i j k (b2z m))
                (wallmark n) i j k (wallmark n') i' j' k' (b2z w))
      as [(El & Ec & [E|E])|E]; rewrite E in Hv.
    + destruct w; [|done]. apply wallmark_inj in El; [|done..]. subst n'.
      injection Ec as <- <- <-. by apply Hw.
    + rewrite getCell_setCell_ne_loc in Hv by done. by apply (HW n' i' j' k').
    + rewrite getCell_setCell_ne_loc in Hv by done. by apply (HW n' i' j' k').
Qed.

Lemma marks_good :
  marks_inv A0 x y z mark wallmark ig1 ig1 ->
  marks_inv A0 x y z mark wallmark ig1
    (ExtrapolateVelocity_marks A0 x y z mark wallmark ig1).
Proof.
  intros H0. unfold ExtrapolateVelocity_marks. cbv zeta.
  pose proof (wrap32_le (x + 1) ltac:(lia)) as Wx.
  pose proof (wrap32_le (y + 1) ltac:(lia)) as Wy.
  pose proof (wrap32_le (z + 1) ltac:(lia)) as Wz.
  pose proof (wrap32_range (x + 1)) as Rx.
  pose proof (wrap32_range (y + 1)) as Ry.
  pose proof (wrap32_range (z + 1)) as Rz.
  repeat (apply (for_gn_inv (marks_inv A0 x y z mark wallmark ig1));
          [|intros ? ? ? ?]); try assumption.
  - (* x faces *)
    match goal with
    | Hi : 0 <= ?i < wrap32 (x + 1), Hj : 0 <= ?j < y, Hk : 0 <= ?k < z,
      Hs : marks_inv _ _ _ _ _ _ _ ?s |- _ =>
        pose proof Hs as (HA & _ & _);
        apply (marks_step 0 i j k); [lia|exact Hs| |];
        rewrite ?(getCell_same_lookup (setCell s (mark 0) i j k _) ig1 A0)
          by (rewrite setCell_lookup_ne by (apply not_eq_sym; done); exact HA);
        rewrite ?(getCell_same_lookup s ig1 A0) by exact HA;
        intros Hc
    end.
    + apply orb_true_iff in Hc as [Hc|Hc]; apply andb_true_iff in Hc as [U1 U2];
        apply Z.eqb_eq in U2.
      * apply Z.ltb_lt in U1. rewrite wrap32_small in U2 by lia.
        eexists _, _, _. split; [|exact U2]. unfold in_domain. lia.
      * apply Z.ltb_lt in U1.
        eexists _, _, _. split; [|exact U2]. unfold in_domain. lia.
    + apply andb_true_iff in Hc as [U1 U2].
      unfold open_face, cell_behind, sel3. cbn.
      intros [[Hp Hq]|[Hp Hq]].
      * apply orb_true_iff in U1 as [U1|U1]; [apply Z.leb_le in U1; lia|].
        apply Z.eqb_eq in U1. rewrite wrap32_small in U1 by lia. done.
      * apply orb_true_iff in U2 as [U2|U2]; [apply Z.leb_le in U2; lia|].
        apply Z.eqb_eq in U2. done.
  - (* y faces *)
    match goal with
    | Hi : 0 <= ?i < x, Hj : 0 <= ?j < wrap32 (y + 1), Hk : 0 <= ?k < z,
      Hs : marks_inv _ _ _ _ _ _ _ ?s |- _ =>
        pose proof Hs as (HA & _ & _);
        apply (marks_step 1 i j k); [lia|exact Hs| |];
        rewrite ?(getCell_same_lookup (setCell s (mark 1) i j k _) ig1 A0)
          by (rewrite setCell_lookup_ne by (apply not_eq_sym; done); exact HA);
        rewrite ?(getCell_same_lookup s ig1 A0) by exact HA;
        intros Hc
    end.
    + apply orb_true_iff in Hc as [Hc|Hc]; apply andb_true_iff in Hc as [U1 U2];
        apply Z.eqb_eq in U2.
      * apply Z.ltb_lt in U1. rewrite wrap32_small in U2 by lia.
        eexists _, _, _. split; [|exact U2]. unfold in_domain. lia.
      * apply Z.ltb_lt in U1.
        eexists _, _, _. split; [|exact U2]. unfold in_domain. lia.
    + apply andb_true_iff in Hc as [U1 U2].
      unfold open_face, cell_behind, sel3. cbn.
      intros [[Hp Hq]|[Hp Hq]].
      * apply orb_true_iff in U1 as [U1|U1]; [apply Z.leb_le in U1; lia|].
        apply Z.eqb_eq in U1. rewrite wrap32_small in U1 by lia. done.
      * apply orb_true_iff in U2 as [U2|U2]; [apply Z.leb_le in U2; lia|].
        apply Z.eqb_eq in U2. done.
  - (* z faces *)
    match goal with
    | Hi : 0 <= ?i < x, Hj : 0 <= ?j < y, Hk : 0 <= ?k < wrap32 (z + 1),
      Hs : marks_inv _ _ _ _ _ _ _ ?s |- _ =>
        pose proof Hs as (HA & _ & _);
        apply (marks_step 2 i j k); [lia|exact Hs| |];
        rewrite ?(getCell_same_lookup (setCell s (mark 2) i j k _) ig1 A0)
          by (rewrite setCell_lookup_ne by (apply not_eq_sym; done); exact HA);
        rewrite ?(getCell_same_lookup s ig1 A0) by exact HA;
        intros Hc
    end.
    + apply orb_true_iff in Hc as [Hc|Hc]; apply andb_true_iff in Hc as [U1 U2];
        apply Z.eqb_eq in U2.
      * apply Z.ltb_lt in U1. rewrite wrap32_small in U2 by lia.
        eexists _, _, _. split; [|exact U2]. unfold in_domain. lia.
      * apply Z.ltb_lt in U1.
        eexists _, _, _. split; [|exact U2]. unfold in_domain. lia.
    + apply andb_true_iff in Hc as [U1 U2].
      unfold open_face, cell_behind, sel3. cbn.
      intros [[Hp Hq]|[Hp Hq]].
      * apply orb_true_iff in U1 as [U1|U1]; [apply Z.leb_le in U1; lia|].
        apply Z.eqb_eq in U1. rewrite wrap32_small in U1 by lia. done.
      * apply orb_true_iff in U2 as [U2|U2]; [apply Z.leb_le in U2; lia|].
        apply Z.eqb_eq in U2. done.
Qed.

End ExtrapolateMarksInv.

Lemma with_grids_same sim h : h = grids sim -> with_grids h sim = sim.
Proof. intros ->. by destruct sim. Qed.

Section ExtrapolateWrites.
Context {G : geomtype}.
Variables (ig : gmap loc (Grid Z)) (mgrid : MacGrid) (x y z : Z).
Variables (mark wallmark : Z -> loc).

Lemma pass_frame fg l :
  l ∉ [m_u_x mgrid; m_u_y mgrid; m_u_z mgrid] ->
  ExtrapolateVelocity_pass ig mgrid x y z mark wallmark fg !! l = fg !! l.
Proof.
  intros Hl. unfold ExtrapolateVelocity_pass.
  repeat (apply (for_gn_inv (fun fg' => fg' !! l = fg !! l));
          [|intros ? ? ? ?]); try done.
  unfold ExtrapolateVelocity_face.
  repeat case_match; try done.
  rewrite setCell_lookup_ne; [done|].
  intros <-. apply Hl. unfold u_of, sel3.
  repeat case_match; [by left|by right; left|by right; right; left].
Qed.

Lemma pass_keeps fg n i j k :
  NoDup [m_u_x mgrid; m_u_y mgrid; m_u_z mgrid] ->
  0 <= n < 3 ->
  getCell ig (wallmark n) i j k = 0 ->
  getCell (ExtrapolateVelocity_pass ig mgrid x y z mark wallmark fg)
          (u_of mgrid n) i j k
  = getCell fg (u_of mgrid n) i j k.
Proof.
  intros Hnd Hn Hw. unfold ExtrapolateVelocity_pass.
  repeat (apply (for_gn_inv (fun fg' =>
            getCell fg' (u_of mgrid n) i j k = getCell fg (u_of mgrid n) i j k));
          [|intros ? ? ? ?]); try done.
  match goal with
  | Hn' : 0 <= ?n' < 3, IH : getCell ?s _ _ _ _ = _ |- _ =>
      rewrite <- IH; clear IH
  end.
  unfold ExtrapolateVelocity_face.
  destruct (negb (_ =? 0) && _); [done|].
  destruct (negb (_ =? 1) && _); [done|].
  destruct (negb (_ =? 2) && _); [done|].
  destruct (_ && _) eqn:Ec; [|done].
  destruct (ExtrapolateVelocity_gather _ _ _ _ _ _ _ _ _ _ _) as [wsum sum].
  destruct (negb (wsum =? 0)); [|done].
  apply getCell_setCell_other. intros [Eu Ecell].
  apply (u_of_inj mgrid Hnd) in Eu; [|done..]. subst.
  injection Ecell as -> -> ->.
  apply andb_true_iff in Ec as [_ Ec]. rewrite Hw in Ec. done.
Qed.

Lemma pass_identity fg :
  (forall n i j k, 0 <= n < 3 -> getCell ig (mark n) i j k = 0) ->
  ExtrapolateVelocity_pass ig mgrid x y z mark wallmark fg = fg.
Proof.
  intros Hm. unfold ExtrapolateVelocity_pass.
  repeat (apply (for_gn_inv (fun fg' => fg' = fg)); [|intros ? ? ? ?]);
    try done.
  subst. unfold ExtrapolateVelocity_face.
  destruct (negb (_ =? 0) && _); [done|].
  destruct (negb (_ =? 1) && _); [done|].
  destruct (negb (_ =? 2) && _); [done|].
  destruct (_ && _); [|done].
  match goal with
  | |- context [ExtrapolateVelocity_gather ?a ?b ?c ?d ?e ?f ?i ?j ?k ?n ?g] =>
      assert (E : ExtrapolateVelocity_gather a b c d e f i j k n g = (0, zero))
  end.
  { unfold ExtrapolateVelocity_gather.
    apply (fold_left_inv _ (fun r => r = (0, zero))); [done|].
    intros r q _ ->. destruct (face_in_range _ _ _ _ _); [|done].
    by rewrite Hm. }
  rewrite E. done.
Qed.

End ExtrapolateWrites.

Section ExtrapolateNever.
Context {G : geomtype}.

(** X25. [ExtrapolateVelocity] writes the three face fields and nothing
    else: every int grid, the markers [A] among them, is after the call
    exactly what it was before (the six temporary grids are gone), and
    every float grid other than [u_x], [u_y] and [u_z] is untouched. *)
Theorem ExtrapolateVelocity_frame (sim : FlipSim) :
  let g := m_mgrid sim in
  same_outside [m_u_x g; m_u_y g; m_u_z g]
               (grids sim) (grids (ExtrapolateVelocity sim)).
Proof.
  intros g. unfold ExtrapolateVelocity.
  set (x := F2U (vx (m_dimensions sim))).
  set (y := F2U (vy (m_dimensions sim))).
  set (z := F2U (vz (m_dimensions sim))).
  pose proof (marks_restored (m_A g) x y z (intgrids (grids sim))) as Hr.
  fold g.
  destruct (ExtrapolateVelocity_alloc (intgrids (grids sim)))
    as [[mark wallmark] ig1].
  cbn [grids with_grids]. split; cbn [intgrids floatgrids]; [exact Hr|].
  intros l Hl. by apply pass_frame.
Qed.

(** X26. [ExtrapolateVelocity] does not write an open face below the
    last layer of cells: with the three face fields in distinct grids
    and the markers allocated, a face whose index along its own axis is
    smaller than the dimension minus one and that touches along that
    axis a cell of the domain that is not SOLID, a FLUID or an AIR cell,
    keeps its velocity. (The bound keeps the face away from the marks
    that the pass writes at an index equal to the dimension.) *)
Theorem ExtrapolateVelocity_keeps_open_faces (sim : FlipSim) (n i j k : Z) :
  let g := m_mgrid sim in
  let h := grids sim in
  NoDup [m_u_x g; m_u_y g; m_u_z g] ->
  is_Some (intgrids h !! m_A g) ->
  0 <= n < 3 ->
  sel3 i j k n < sel3 (F2U (vx (m_dimensions sim)))
                      (F2U (vy (m_dimensions sim)))
                      (F2U (vz (m_dimensions sim))) n - 1 ->
  open_face (intgrids h) (m_A g) (F2U (vx (m_dimensions sim)))
            (F2U (vy (m_dimensions sim))) (F2U (vz (m_dimensions sim)))
            n i j k ->
  fget (grids (ExtrapolateVelocity sim)) (u_of g n) i j k
  = fget h (u_of g n) i j k.
Proof.
  intros g h Hnd HA Hn _ Hopen. unfold ExtrapolateVelocity.
  set (x := F2U (vx (m_dimensions sim))) in *.
  set (y := F2U (vy (m_dimensions sim))) in *.
  set (z := F2U (vz (m_dimensions sim))) in *.
  fold g h.
  pose proof (alloc_facts (intgrids h)) as Hal.
  destruct (ExtrapolateVelocity_alloc (intgrids h))
    as [[mark wallmark] ig1].
  destruct Hal as (Hold & Hmw & Hmi & Hwi & Hm0 & Hw0).
  destruct (Hold _ HA) as (HA1 & HAm & HAw).
  cbn [grids with_grids]. unfold fget. cbn [floatgrids].
  apply pass_keeps; [done|done|].
  pose proof (F2U_range (vx (m_dimensions sim))).
  pose proof (F2U_range (vy (m_dimensions sim))).
  pose proof (F2U_range (vz (m_dimensions sim))).
  destruct (marks_good (m_A g) x y z mark wallmark ig1) as (_ & _ & HW);
    try done; try (unfold x, y, z; lia).
  { split; [done|]. split; intros n' i' j' k' _ Hv; exfalso; apply Hv;
      [apply Hm0|apply Hw0]. }
  destruct (decide (getCell
              (ExtrapolateVelocity_marks (m_A g) x y z mark wallmark ig1)
              (wallmark n) i j k = 0)) as [|Hv]; [done|].
  exfalso. apply (HW n i j k Hn Hv).
  unfold open_face in *.
  by rewrite !(getCell_same_lookup ig1 (intgrids h) (m_A g)).
Qed.

(** X27. With no FLUID cell there is nothing to extrapolate from: when
    the markers are allocated and no cell of the domain is FLUID,
    [ExtrapolateVelocity] leaves the whole simulation state as it is. *)
Theorem ExtrapolateVelocity_no_fluid (sim : FlipSim) :
  is_Some (intgrids (grids sim) !! m_A (m_mgrid sim)) ->
  (forall i j k, sim_cell sim i j k ->
     iget (grids sim) (m_A (m_mgrid sim)) i j k <> FLUID) ->
  ExtrapolateVelocity sim = sim.
Proof.
  intros HA Hnf. unfold ExtrapolateVelocity.
  set (x := F2U (vx (m_dimensions sim))) in *.
  set (y := F2U (vy (m_dimensions sim))) in *.
  set (z := F2U (vz (m_dimensions sim))) in *.
  pose proof (marks_restored (m_A (m_mgrid sim)) x y z (intgrids (grids sim)))
    as Hr.
  pose proof (alloc_facts (intgrids (grids sim))) as Hal.
  destruct (ExtrapolateVelocity_alloc (intgrids (grids sim)))
    as [[mark wallmark] ig1].
  destruct Hal as (Hold & Hmw & Hmi & Hwi & Hm0 & Hw0).
  destruct (Hold _ HA) as (HA1 & HAm & HAw).
  pose proof (F2U_range (vx (m_dimensions sim))).
  pose proof (F2U_range (vy (m_dimensions sim))).
  pose proof (F2U_range (vz (m_dimensions sim))).
  destruct (marks_good (m_A (m_mgrid sim)) x y z mark wallmark ig1)
    as (_ & HM & _); try done; try (unfold x, y, z; lia).
  { split; [done|]. split; intros n' i' j' k' _ Hv; exfalso; apply Hv;
      [apply Hm0|apply Hw0]. }
  apply with_grids_same. rewrite Hr.
  rewrite pass_identity; [by destruct (grids sim)|].
  intros n i j k Hn.
  destruct (decide (getCell
              (ExtrapolateVelocity_marks (m_A (m_mgrid sim)) x y z mark
                 wallmark ig1) (mark n) i j k = 0)) as [|Hv]; [done|].
  exfalso. destruct (HM n i j k Hn Hv) as (a & b & c & Hd & Hf).
  apply (Hnf a b c Hd). unfold iget.
  by rewrite <- (getCell_same_lookup ig1 (intgrids (grids sim))).
Qed.

End ExtrapolateNever.

Lemma ExtrapolateVelocity_keeps_open_faces_witness :
  let G := geomtype_012 in
  let sim := SimExamples.solid_run in
  fget (grids (ExtrapolateVelocity sim)) 4%positive 1 0 0
  = fget (grids sim) 4%positive 1 0 0
  /\ fget (grids sim) 4%positive 1 0 0 = Z2F 3.
Proof.
  intros G sim. split; [|vm_compute; reflexivity].
  apply (ExtrapolateVelocity_keeps_open_faces sim 0 1 0 0).
  - apply (bool_decide_unpack _). vm_compute. exact I.
  - vm_compute. eexists; reflexivity.
  - lia.
  - vm_compute. reflexivity.
  - left. split; [vm_compute; reflexivity|].
    vm_compute. intros E; discriminate E.
Defined.

Lemma ExtrapolateVelocity_no_fluid_witness :
  let G := geomtype_012 in
  let sim := with_grids (Examples.uniform_store 2 SOLID one)
                        SimExamples.solid_run in
  ExtrapolateVelocity sim = sim.
Proof.
  intros G sim. apply (ExtrapolateVelocity_no_fluid sim).
  - vm_compute. eexists; reflexivity.
  - intros i j k (Hi & Hj & Hk).
    assert (Hx : F2U (vx (m_dimensions sim)) = 3) by (vm_compute; reflexivity).
    assert (Hy : F2U (vy (m_dimensions sim)) = 1) by (vm_compute; reflexivity).
    assert (Hz : F2U (vz (m_dimensions sim)) = 1) by (vm_compute; reflexivity).
    rewrite Hx in Hi. rewrite Hy in Hj. rewrite Hz in Hk.
    assert (i = 0 \/ i = 1 \/ i = 2) as [->|[->| ->]] by lia;
      assert (j = 0) as -> by lia; assert (k = 0) as -> by lia;
      vm_compute; intros E; discriminate E.
Defined.

(** X28. With no external force [ApplyExternalForces] has nothing to
    add: when the scene returns an empty list of forces the pass leaves
    the whole simulation state as it is. *)
Theorem ApplyExternalForces_no_forces {scene : Scene} (sim : FlipSim) :
  GetExternalForces = [] -> ApplyExternalForces sim = sim.
Proof.
  intros Hf. unfold ApplyExternalForces. rewrite Hf. cbv zeta.
  apply with_particles_same.
  apply (fold_left_inv _ (fun ps => ps = m_particles sim)); [done|].
  by intros ps i _ ->.
Qed.

Lemma ApplyExternalForces_no_forces_witness :
  let scene : Scene := {|
    IntersectSolidGeoms := fun _ =>
      mkIntersection false SimExamples.origin3 SimExamples.origin3;
    CheckPointInsideSolidGeom := fun _ _ => false;
    GetExternalForces := [];
    ProjectPointsToSurface := fun ps _ => ps |} in
  let sim := SimExamples.sim4 [SimExamples.mover; SimExamples.pusher] in
  ApplyExternalForces sim = sim.
Proof.
  intros scene sim. apply (ApplyExternalForces_no_forces sim). reflexivity.
Defined.

(** ** Cell indices through [glm::vec3] and back *)

Lemma binary_round_aux_exact (s : bool) (mz : positive) (ez : Z) :
  digits2_pos mz = 24%positive -> -149 <= ez <= 104 ->
  binary_round_aux prec emax s (Z.pos mz) ez loc_Exact = S754_finite s mz ez.
Proof.
  intros Hd He. unfold binary_round_aux, shr_fexp.
  cbn [Zdigits2 shr_record_of_loc]. rewrite Hd.
  assert (E : fexp prec emax (24 + ez) - ez = 0).
  { unfold fexp, SpecFloat.emin, prec, emax. lia. }
  rewrite E. cbn [shr shr_m loc_of_shr_record round_nearest_even Zdigits2
                  shr_record_of_loc].
  rewrite Hd, E. cbn [shr shr_m].
  assert (L : (ez <=? emax - prec) = true)
    by (apply Z.leb_le; unfold emax, prec; lia).
  by rewrite L.
Qed.

Lemma binary_round_int (s : bool) (p : positive) :
  Z.pos p < 2 ^ 24 ->
  exists m e, binary_round prec emax s p 0 = S754_finite s m e
              /\ -23 <= e <= 0 /\ Z.pos m = Z.pos p * 2 ^ (- e).
Proof.
  intros Hp. pose proof (digits2_pos_small p Hp) as Hd.
  pose proof (Pos2Z.is_pos (digits2_pos p)) as Hd0.
  unfold binary_round, shl_align.
  assert (Ef : fexp prec emax (Z.pos (digits2_pos p) + 0) - 0
               = Z.pos (digits2_pos p) - 24).
  { unfold fexp, SpecFloat.emin, prec, emax. lia. }
  rewrite Ef.
  destruct (Z.pos (digits2_pos p) - 24) as [|q|q] eqn:Eq; [|lia|].
  - exists p, 0. split; [|split; [lia|cbn; lia]].
    apply binary_round_aux_exact; [lia|lia].
  - exists (Pos.iter xO p q), (Z.pos (digits2_pos p) + 0 - 24 + 0).
    assert (Ee : fexp prec emax (Z.pos (digits2_pos p) + 0)
                 = Z.pos (digits2_pos p) + 0 - 24 + 0)
      by (unfold fexp, SpecFloat.emin, prec, emax; lia).
    rewrite Ee. split; [|split; [lia|]].
    + apply binary_round_aux_exact; [|lia].
      rewrite digits2_pos_iter. lia.
    + rewrite iter_xO_value. f_equal. f_equal. lia.
Qed.

(** Converting an integer of less than 24 bits to [float] and back gives
    the integer. *)
Lemma F2Z_Z2F n : - 2 ^ 24 < n < 2 ^ 24 -> F2Z (Z2F n) = n.
Proof.
  intros Hn. unfold Z2F, binary_normalize.
  destruct n as [|p|p]; [reflexivity| |].
  - destruct (binary_round_int false p) as (m & e & -> & He & Hm); [lia|].
    unfold F2Z, trunc. rewrite Hm.
    assert (V : (if 0 <=? e then Z.pos p * 2 ^ (- e) * 2 ^ e
                 else Z.quot (Z.pos p * 2 ^ (- e)) (2 ^ (- e))) = Z.pos p).
    { destruct (Z.leb_spec 0 e).
      - assert (e = 0) as -> by lia. cbn. lia.
      - apply Z.quot_mul. apply Z.pow_nonzero; lia. }
    rewrite V. unfold INT_MIN, INT_MAX.
    destruct (Z.leb_spec (- 2 ^ 31) (Z.pos p)); [|lia].
    destruct (Z.leb_spec (Z.pos p) (2 ^ 31 - 1)); [done|lia].
  - destruct (binary_round_int true p) as (m & e & -> & He & Hm); [lia|].
    unfold F2Z, trunc. rewrite Hm.
    assert (V : (if 0 <=? e then Z.pos p * 2 ^ (- e) * 2 ^ e
                 else Z.quot (Z.pos p * 2 ^ (- e)) (2 ^ (- e))) = Z.pos p).
    { destruct (Z.leb_spec 0 e).
      - assert (e = 0) as -> by lia. cbn. lia.
      - apply Z.quot_mul. apply Z.pow_nonzero; lia. }
    rewrite V. unfold INT_MIN, INT_MAX.
    destruct (Z.leb_spec (- 2 ^ 31) (- Z.pos p)); [|lia].
    destruct (Z.leb_spec (- Z.pos p) (2 ^ 31 - 1)); [|lia].
    cbn [andb]. lia.
Qed.

(** X29. The detour of the cell indices through [glm::vec3] is lossless
    for indices of less than 24 bits: called with [vec3(fi,fj,fk)] and
    [vec3(pi,pj,pk)], [xRef] looks at the cell (pi,pj,pk) clamped to the
    domain, and returns [X] there if the cell is FLUID, [X] at the
    centre (fi,fj,fk) if it is SOLID, and otherwise the ghost value
    L(cell) / min(1e-6, L(centre)) · X(centre), or 0 when [subcell] is
    0. *)
Theorem xRef_reads_clamped_cell {G : geomtype} (h : heap) (A0 L0 X : loc)
    (fi fj fk pi pj pk : Z) (dm : vec3) (subcell x y z : Z) :
  dims_int dm = (x, y, z) ->
  small_index fi -> small_index fj -> small_index fk ->
  small_index pi -> small_index pj -> small_index pk ->
  let i := clampi pi (x - 1) in
  let j := clampi pj (y - 1) in
  let k := clampi pk (z - 1) in
  xRef h A0 L0 X (vec3i fi fj fk) (vec3i pi pj pk) dm subcell
  = if iget h A0 i j k =? FLUID then fget h X i j k
    else if iget h A0 i j k =? SOLID then fget h X fi fj fk
    else if negb (subcell =? 0)
    then fmul (fdiv (fget h L0 i j k) (fmin eps6 (fget h L0 fi fj fk)))
              (fget h X fi fj fk)
    else zero.
Proof.
  intros Hdm Hfi Hfj Hfk Hpi Hpj Hpk i j k.
  unfold xRef. rewrite Hdm. cbv zeta. unfold vec3i. cbn [vx vy vz].
  by rewrite !F2Z_Z2F by done.
Qed.

Lemma xRef_reads_clamped_cell_witness :
  let G := geomtype_012 in
  let h := SolverExamples.bump in
  xRef h 1%positive 1%positive 3%positive (vec3i 0 0 0) (vec3i (-1) 0 0)
       (vec3i 2 2 2) 1
  = (if iget h 1%positive (clampi (-1) (2 - 1)) (clampi 0 (2 - 1))
             (clampi 0 (2 - 1)) =? FLUID
     then fget h 3%positive (clampi (-1) (2 - 1)) (clampi 0 (2 - 1))
               (clampi 0 (2 - 1))
     else if iget h 1%positive (clampi (-1) (2 - 1)) (clampi 0 (2 - 1))
                  (clampi 0 (2 - 1)) =? SOLID
     then fget h 3%positive 0 0 0
     else if negb (1 =? 0)
     then fmul (fdiv (fget h 1%positive (clampi (-1) (2 - 1))
                           (clampi 0 (2 - 1)) (clampi 0 (2 - 1)))
                     (fmin eps6 (fget h 1%positive 0 0 0)))
               (fget h 3%positive 0 0 0)
     else zero)
  /\ xRef h 1%positive 1%positive 3%positive (vec3i 0 0 0) (vec3i (-1) 0 0)
          (vec3i 2 2 2) 1 = one.
Proof.
  intros G h. split; [|vm_compute; reflexivity].
  apply (xRef_reads_clamped_cell h 1%positive 1%positive 3%positive
           0 0 0 (-1) 0 0 (vec3i 2 2 2) 1 2 2 2).
  - vm_compute. reflexivity.
  - unfold small_index. lia.
  - unfold small_index. lia.
  - unfold small_index. lia.
  - unfold small_index. lia.
  - unfold small_index. lia.
  - unfold small_index. lia.
Defined.
